(** * juni-cli-proton: session bridge, output capture and agent loop

    A shallow embedding of the parts of
    - [renderer/src/components/Terminal.jsx]   (output capture engine),
    - [renderer/src/components/GeminiChat.jsx] (agent loop),
    - [main.js]                                (session bridge)
    that the properties below talk about.

    JavaScript strings are sequences of UTF-16 code units; they are
    modelled as [list N].  The regular expressions of the source carry no
    [u] flag, so they work on code units as well. *)

From Stdlib Require Import NArith ZArith Lia.
From stdpp Require Import base option list strings gmap.

Local Open Scope N_scope.

Abbreviation str := (list N).

(** ** Strings *)

Module JsString.

(** A Rocq literal of 7-bit characters as a JavaScript string. *)
Definition js (s : string) : str :=
  map Ascii.N_of_ascii (String.list_ascii_of_string s).

Definition in_range (lo hi c : N) : bool := (lo <=? c) && (c <=? hi).

(** [WhiteSpace] and [LineTerminator] of ECMAScript: what [\s] matches and
    what [String.prototype.trim] removes. *)
Definition is_space (c : N) : bool :=
  in_range 9 13 c || (c =? 32) || (c =? 160) || (c =? 5760)
  || in_range 8192 8202 c || (c =? 8232) || (c =? 8233) || (c =? 8239)
  || (c =? 8287) || (c =? 12288) || (c =? 65279).

Fixpoint skip_while (p : N -> bool) (s : str) : str :=
  match s with
  | c :: r => if p c then skip_while p r else s
  | [] => []
  end.

(** [s.trim()] *)
Definition trim (s : str) : str :=
  rev (skip_while is_space (rev (skip_while is_space s))).

(** [s.substring(0, n)] and [s.substring(n)] for [n] within the string. *)
Definition substring_to (n : nat) (s : str) : str := take n s.
Definition substring_from (n : nat) (s : str) : str := drop n s.

(** Truthiness of a string: [raw || placeholder]. *)
Definition or_else (s placeholder : str) : str :=
  match s with [] => placeholder | _ => s end.

End JsString.
Export JsString.

(** ** Regular expressions

    A backtracking matcher in continuation-passing style: a pattern takes
    the matcher of the rest of the pattern and the input, and returns the
    input left after the leftmost-preferred match.  Greedy quantifiers try
    the longest repetition first and fall back, as the source's regular
    expressions do. *)

Module Regex.

Definition cont := str -> option str.
Definition pattern := cont -> cont.

Definition chr (c : N) : pattern := fun k s =>
  match s with
  | x :: r => if x =? c then k r else None
  | [] => None
  end.

Definition set (p : N -> bool) : pattern := fun k s =>
  match s with
  | x :: r => if p x then k r else None
  | [] => None
  end.

Definition seq (p q : pattern) : pattern := fun k => p (q k).

Definition alt (p q : pattern) : pattern := fun k s =>
  match p k s with
  | Some r => Some r
  | None => q k s
  end.

(** [p?] *)
Definition opt (p : pattern) : pattern := fun k s =>
  match p k s with
  | Some r => Some r
  | None => k s
  end.

(** [[...]*] over a character class. *)
Fixpoint star (p : N -> bool) (k : cont) (s : str) : option str :=
  match s with
  | x :: r =>
      if p x then
        match star p k r with
        | Some z => Some z
        | None => k s
        end
      else k s
  | [] => k []
  end.

Fixpoint lit (w : str) : pattern :=
  match w with
  | [] => fun k => k
  | c :: w' => seq (chr c) (lit w')
  end.

Infix "+>" := seq (at level 60, right associativity).

(** The pattern matched at the head of the input. *)
Definition match_at (p : pattern) : cont := p Some.

(** [re.exec(s)] for a pattern without the [g] flag: the index of the
    leftmost match. *)
Fixpoint exec (p : pattern) (s : str) : option nat :=
  match match_at p s with
  | Some _ => Some 0%nat
  | None =>
      match s with
      | [] => None
      | _ :: r => S <$> exec p r
      end
  end.

(** [s.replace(re, '')] for a pattern with the [g] flag.  [skip] counts the
    code units of the current match that are still to be dropped; an empty
    match keeps the code unit and moves on. *)
Fixpoint remove_go (p : pattern) (skip : nat) (s : str) : str :=
  match s with
  | [] => []
  | c :: r =>
      match skip with
      | S n => remove_go p n r
      | O =>
          match match_at p s with
          | Some rest =>
              match (length s - length rest)%nat with
              | O => c :: remove_go p 0 r
              | S n => remove_go p n r
              end
          | None => c :: remove_go p 0 r
          end
      end
  end.

Definition remove_all (p : pattern) (s : str) : str := remove_go p 0 s.

(** [s.indexOf(c)] for a single code unit. *)
Fixpoint indexOf (c : N) (s : str) : option nat :=
  match s with
  | [] => None
  | x :: r => if x =? c then Some 0%nat else S <$> indexOf c r
  end.

(** [s.includes(w)] *)
Definition includes (w s : str) : bool :=
  match exec (lit w) s with Some _ => true | None => false end.

(** [s.split(/\s+/)]: the pieces between the runs of white space, with an
    empty piece before a leading run and after a trailing one.  [cur] is
    the piece being read, reversed; [in_ws] tells that the previous code
    unit belonged to a separator. *)
Fixpoint split_go (cur : str) (in_ws : bool) (s : str) : list str :=
  match s with
  | [] => [rev cur]
  | c :: r =>
      if is_space c then
        if in_ws then split_go [] true r
        else rev cur :: split_go [] true r
      else split_go (c :: cur) false r
  end.

Definition split_ws (s : str) : list str := split_go [] false s.

End Regex.
Export Regex.

(** ** Terminal.jsx: the escape scrubber *)

Module Scrub.

Definition ESC : N := 27.
Definition BEL : N := 7.
Definition CR : N := 13.
Definition LF : N := 10.

Definition digit_semi (c : N) : bool := in_range 48 57 c || (c =? 59).
Definition alpha (c : N) : bool := in_range 97 122 c || in_range 65 90 c.
Definition one_of (w : str) (c : N) : bool := existsb (N.eqb c) w.

(** [/\x1b\[[\?=>!]?[0-9;]*[a-zA-Z]/g] *)
Definition re_csi : pattern :=
  chr ESC +> chr 91 +> opt (set (one_of (js "?=>!"))) +> star digit_semi +> set alpha.

(** [/\x9b[0-9;]*[a-zA-Z]/g] *)
Definition re_csi8 : pattern :=
  chr 155 +> star digit_semi +> set alpha.

(** [/\x1b\][^\x07]*(?:\x07|\x1b\\)/g] *)
Definition re_osc : pattern :=
  chr ESC +> chr 93 +> star (fun c => negb (c =? BEL)) +>
  alt (chr BEL) (chr ESC +> chr 92).

(** [/\x1b[()][A-Z0-9]/g] *)
Definition re_charset : pattern :=
  chr ESC +> set (one_of (js "()")) +>
  set (fun c => in_range 65 90 c || in_range 48 57 c).

(** [/\x1b[>=<~}|]/g] *)
Definition re_mode : pattern :=
  chr ESC +> set (one_of (js ">=<~}|")).

(** [/\x1b\[[0-9;]*[ -/]*[@-~]/g] *)
Definition re_csi_any : pattern :=
  chr ESC +> chr 91 +> star digit_semi +> star (in_range 32 47) +>
  set (in_range 64 126).

(** [/\[[\?]?[0-9;]*[a-zA-Z]/g] *)
Definition re_bare : pattern :=
  chr 91 +> opt (chr 63) +> star digit_semi +> set alpha.

(** [/\r/g] *)
Definition re_cr : pattern := chr CR.

Definition stripAnsi (s : str) : str :=
  remove_all re_cr
    (remove_all re_bare
      (remove_all re_csi_any
        (remove_all re_mode
          (remove_all re_charset
            (remove_all re_osc
              (remove_all re_csi8
                (remove_all re_csi s))))))).

End Scrub.
Export Scrub.

(** ** Terminal.jsx: the capture engine *)

Module Terminal.

Definition AGENT_SENTINEL : str := js "__JUNI_AGENT_DONE__".

Definition line_break (c : N) : bool := (c =? CR) || (c =? LF).

(** [/[\r\n]__JUNI_AGENT_DONE__/], for any marker text. *)
Definition sentinelPattern_for (marker : str) : pattern :=
  set line_break +> lit marker.

Definition sentinelPattern : pattern := sentinelPattern_for AGENT_SENTINEL.

(** The body of [if (match) { ... }] in the ['ssh:output'] handler: what is
    handed to [resolve] when the pattern matches at [index]. *)
Definition output_before (index : nat) (stripped : str) : str :=
  let beforeSentinel := substring_to index stripped in
  match indexOf LF beforeSentinel with
  | Some firstNewline => trim (substring_from (firstNewline + 1) beforeSentinel)
  | None => trim beforeSentinel
  end.

(** The value resolved for an accumulated raw buffer, when the marker is
    found in its scrubbed form. *)
Definition extract_for (marker : str) (buffer : str) : option str :=
  let stripped := stripAnsi buffer in
  (fun index => output_before index stripped) <$>
    exec (sentinelPattern_for marker) stripped.

Definition extract : str -> option str := extract_for AGENT_SENTINEL.

(** *** Key names *)

Definition KEY_MAP : list (str * str) :=
  [ (js "Enter", [13]); (js "Return", [13]); (js "Tab", [9]);
    (js "Escape", [27]); (js "Esc", [27]); (js "Backspace", [127]);
    (js "Delete", 27 :: js "[3~");
    (js "Up", 27 :: js "[A"); (js "Down", 27 :: js "[B");
    (js "Right", 27 :: js "[C"); (js "Left", 27 :: js "[D");
    (js "Home", 27 :: js "[H"); (js "End", 27 :: js "[F");
    (js "PageUp", 27 :: js "[5~"); (js "PageDown", 27 :: js "[6~");
    (js "Ctrl+C", [3]); (js "Ctrl+D", [4]); (js "Ctrl+Z", [26]);
    (js "Ctrl+L", [12]); (js "Ctrl+A", [1]); (js "Ctrl+E", [5]);
    (js "Ctrl+K", [11]); (js "Ctrl+U", [21]); (js "Ctrl+W", [23]);
    (js "Ctrl+R", [18]); (js "Space", [32]) ].

Fixpoint eqb_str (a b : str) : bool :=
  match a, b with
  | [], [] => true
  | x :: a', y :: b' => (x =? y) && eqb_str a' b'
  | _, _ => false
  end.

(** The own property [name] of an object literal. *)
Fixpoint own (o : list (str * str)) (name : str) : option str :=
  match o with
  | [] => None
  | (k, v) :: o' => if eqb_str k name then Some v else own o' name
  end.

(** What a property read on an object literal can yield: a string of the
    literal, or a member inherited from [Object.prototype]. *)
Inductive value :=
  | VUndefined
  | VString (s : str)
  | VNative (name : str)     (* a built-in method of Object.prototype *)
  | VObjectPrototype.        (* Object.prototype itself, through __proto__ *)

Definition Object_prototype_methods : list (str * str) :=
  [ (js "constructor", js "Object");
    (js "hasOwnProperty", js "hasOwnProperty");
    (js "isPrototypeOf", js "isPrototypeOf");
    (js "propertyIsEnumerable", js "propertyIsEnumerable");
    (js "toLocaleString", js "toLocaleString");
    (js "toString", js "toString");
    (js "valueOf", js "valueOf");
    (js "__defineGetter__", js "__defineGetter__");
    (js "__defineSetter__", js "__defineSetter__");
    (js "__lookupGetter__", js "__lookupGetter__");
    (js "__lookupSetter__", js "__lookupSetter__") ].

Definition inherited (name : str) : value :=
  match own Object_prototype_methods name with
  | Some f => VNative f
  | None => if eqb_str name (js "__proto__") then VObjectPrototype else VUndefined
  end.

(** [KEY_MAP[token]]: the own property, else the prototype chain. *)
Definition KEY_MAP_get (token : str) : value :=
  match own KEY_MAP token with
  | Some v => VString v
  | None => inherited token
  end.

(** The string appended by [payload += v], as the renderer's engine (V8)
    prints built-in functions and plain objects. *)
Definition ToString (v : value) : str :=
  match v with
  | VUndefined => js "undefined"
  | VString s => s
  | VNative name => js "function " ++ name ++ js "() { [native code] }"
  | VObjectPrototype => js "[object Object]"
  end.

(** What one token adds to the payload:
    [KEY_MAP[token] !== undefined ? KEY_MAP[token] : token]. *)
Definition token_text (token : str) : str :=
  match KEY_MAP_get token with
  | VUndefined => token
  | v => ToString v
  end.

(** The body of [for (const token of tokens)]. *)
Definition append_token (payload token : str) : str :=
  payload ++ token_text token.

(** [keys] to the payload sent to the terminal. *)
Definition translate_keys (keys : str) : str :=
  let tokens := split_ws keys in
  fold_left append_token tokens [].

(** The translation as the specification words it: a token is mapped
    through the symbolic-key table when its name is recognised and passed
    through literally otherwise, and the results are concatenated. *)
Definition spec_token_text (token : str) : str :=
  match own KEY_MAP token with
  | Some v => v
  | None => token
  end.

Definition spec_translate_keys (keys : str) : str :=
  concat (map spec_token_text (split_ws keys)).

(** *** State of one Terminal component

    Every call of [runAgentCommand] or [sendAgentKeys] makes one promise, at
    most one timer and at most one [onOutput] closure; the call's number
    names all three. *)

Record capture := Capture {
  buffer : str;
  resolve : nat;
  timer : nat
}.

Record keys_capture := KeysCapture {
  k_resolve : nat;
  k_timer : nat;
  k_cleanup : nat          (* the listener that [cleanup] unregisters *)
}.

(** The two closures handed to [setTimeout]. *)
Inductive callback :=
  | SentinelTimeout (resolve : nat)
  | SampleTimeout (resolve : nat) (closure : nat).

Record term := Term {
  socketRef : bool;                    (* socketRef.current is set *)
  agentCaptureRef : option capture;
  agentKeysRef : option keys_capture;
  timers : gmap nat (N * callback);    (* pending timers: delay in ms, callback *)
  outputBuffer : gmap nat str;         (* [outputBuffer] of each sendAgentKeys call *)
  listeners : list nat;                (* [onOutput] closures registered on 'ssh:output' *)
  resolved : list (nat * str);         (* calls of [resolve]: promise and value, oldest first *)
  emitted : list str;                  (* 'ssh:data' messages sent, oldest first *)
  next : nat                           (* number of the next call *)
}.

Definition initial (connected : bool) : term :=
  Term connected None None ∅ ∅ [] [] [] 0.

Definition with_capture (c : option capture) (t : term) : term :=
  Term (socketRef t) c (agentKeysRef t) (timers t) (outputBuffer t)
       (listeners t) (resolved t) (emitted t) (next t).

Definition with_keys (k : option keys_capture) (t : term) : term :=
  Term (socketRef t) (agentCaptureRef t) k (timers t) (outputBuffer t)
       (listeners t) (resolved t) (emitted t) (next t).

Definition setTimeout (id : nat) (cb : callback) (ms : N) (t : term) : term :=
  Term (socketRef t) (agentCaptureRef t) (agentKeysRef t)
       (<[id := (ms, cb)]> (timers t)) (outputBuffer t)
       (listeners t) (resolved t) (emitted t) (next t).

Definition clearTimeout (id : nat) (t : term) : term :=
  Term (socketRef t) (agentCaptureRef t) (agentKeysRef t)
       (delete id (timers t)) (outputBuffer t)
       (listeners t) (resolved t) (emitted t) (next t).

Definition call_resolve (p : nat) (v : str) (t : term) : term :=
  Term (socketRef t) (agentCaptureRef t) (agentKeysRef t) (timers t)
       (outputBuffer t) (listeners t) (resolved t ++ [(p, v)]) (emitted t)
       (next t).

Definition emit_data (d : str) (t : term) : term :=
  Term (socketRef t) (agentCaptureRef t) (agentKeysRef t) (timers t)
       (outputBuffer t) (listeners t) (resolved t) (emitted t ++ [d])
       (next t).

Definition socket_on (id : nat) (t : term) : term :=
  Term (socketRef t) (agentCaptureRef t) (agentKeysRef t) (timers t)
       (<[id := []]> (outputBuffer t)) (listeners t ++ [id]) (resolved t)
       (emitted t) (next t).

(** [cleanup()]: [socket.off('ssh:output', onOutput)]. *)
Definition cleanup (id : nat) (t : term) : term :=
  Term (socketRef t) (agentCaptureRef t) (agentKeysRef t) (timers t)
       (outputBuffer t) (filter (fun l => l ≠ id) (listeners t)) (resolved t)
       (emitted t) (next t).

Definition fresh (t : term) : term :=
  Term (socketRef t) (agentCaptureRef t) (agentKeysRef t) (timers t)
       (outputBuffer t) (listeners t) (resolved t) (emitted t) (S (next t)).

Definition not_connected : str := js "Error: terminal not connected".
Definition aborted_by_user : str := js "(aborted by user)".
Definition no_visible_output : str := js "(no visible output after sending keys)".

(** ['(command timed out after 60s — it may be waiting for input)']; the
    dash is U+2014. *)
Definition command_timed_out : str :=
  js "(command timed out after 60s " ++ [8212] ++ js " it may be waiting for input)".

Definition runAgentCommand (command : str) (t : term) : term :=
  let id := next t in
  if negb (socketRef t) then fresh (call_resolve id not_connected t)
  else
    fresh
      (emit_data (command ++ js "; echo " ++ AGENT_SENTINEL ++ [LF])
        (with_capture (Some (Capture [] id id))
          (setTimeout id (SentinelTimeout id) 60000 t))).

Definition sendAgentKeys (keys : str) (t : term) : term :=
  let id := next t in
  if negb (socketRef t) then fresh (call_resolve id not_connected t)
  else
    let payload := translate_keys keys in
    fresh
      (with_keys (Some (KeysCapture id id id))
        (setTimeout id (SampleTimeout id id) 3000
          (emit_data payload (socket_on id t)))).

Definition abortAgentCapture (t : term) : term :=
  let t1 :=
    match agentCaptureRef t with
    | Some c =>
        let raw := trim (stripAnsi (buffer c)) in
        call_resolve (resolve c) (or_else raw aborted_by_user)
          (with_capture None (clearTimeout (timer c) t))
    | None => t
    end in
  match agentKeysRef t1 with
  | Some k =>
      call_resolve (k_resolve k) aborted_by_user
        (with_keys None (cleanup (k_cleanup k) (clearTimeout (k_timer k) t1)))
  | None => t1
  end.

(** The component's own ['ssh:output'] handler (the write to the screen is
    left out). *)
Definition on_output_for (marker : str) (data : str) (t : term) : term :=
  match agentCaptureRef t with
  | Some c =>
      let buf := buffer c ++ data in
      let stripped := stripAnsi buf in
      match exec (sentinelPattern_for marker) stripped with
      | Some index =>
          call_resolve (resolve c) (output_before index stripped)
            (with_capture None (clearTimeout (timer c) t))
      | None => with_capture (Some (Capture buf (resolve c) (timer c))) t
      end
  | None => t
  end.

Definition on_output : str -> term -> term := on_output_for AGENT_SENTINEL.

(** The [onOutput] closures: [outputBuffer += data] in each one registered. *)
Definition run_listeners (data : str) (t : term) : term :=
  Term (socketRef t) (agentCaptureRef t) (agentKeysRef t) (timers t)
       (foldr (fun id m => alter (fun b => b ++ data) id m) (outputBuffer t)
              (listeners t))
       (listeners t) (resolved t) (emitted t) (next t).

Definition ssh_output (data : str) (t : term) : term :=
  run_listeners data (on_output data t).

(** A pending timer expires; a timer that was cleared, or has fired, does
    not. *)
Definition timer_fire (id : nat) (t : term) : term :=
  match timers t !! id with
  | None => t
  | Some (_, cb) =>
      let t := clearTimeout id t in
      match cb with
      | SentinelTimeout r =>
          match agentCaptureRef t with
          | Some c =>
              let raw := trim (stripAnsi (buffer c)) in
              call_resolve r (or_else raw command_timed_out)
                (with_capture None t)
          | None => t
          end
      | SampleTimeout r closure =>
          let cleaned :=
            trim (stripAnsi (default [] (outputBuffer t !! closure))) in
          call_resolve r (or_else cleaned no_visible_output)
            (with_keys None (cleanup closure t))
      end
  end.

Inductive event :=
  | RunAgentCommand (command : str)
  | SendAgentKeys (keys : str)
  | AbortAgentCapture
  | SshOutput (data : str)
  | TimerFire (id : nat).

Definition step (t : term) (e : event) : term :=
  match e with
  | RunAgentCommand command => runAgentCommand command t
  | SendAgentKeys keys => sendAgentKeys keys t
  | AbortAgentCapture => abortAgentCapture t
  | SshOutput data => ssh_output data t
  | TimerFire id => timer_fire id t
  end.

Definition run (t : term) (evs : list event) : term := fold_left step evs t.

(** *** The caller's obligation: one capture at a time *)

Definition is_idle (t : term) : bool :=
  match agentCaptureRef t, agentKeysRef t with
  | None, None => true
  | _, _ => false
  end.

Definition is_request (e : event) : bool :=
  match e with
  | RunAgentCommand _ | SendAgentKeys _ => true
  | _ => false
  end.

Definition allowed (t : term) (e : event) : bool :=
  if is_request e then is_idle t else true.

(** No capture is requested while another one is pending. *)
Fixpoint one_at_a_time (t : term) (evs : list event) : bool :=
  match evs with
  | [] => true
  | e :: evs' => allowed t e && one_at_a_time (step t e) evs'
  end.

(** The promises whose resolver has been called, oldest first. *)
Definition resolved_ids (t : term) : list nat := (resolved t).*1.

(** The promise [p] belongs to the capture that is pending. *)
Definition pending (p : nat) (t : term) : Prop :=
  (∃ c, agentCaptureRef t = Some c ∧ resolve c = p ∧
        timers t !! timer c = Some (60000, SentinelTimeout p)) ∨
  (∃ k, agentKeysRef t = Some k ∧ k_resolve k = p ∧
        timers t !! k_timer k = Some (3000, SampleTimeout p (k_cleanup k))).

(** Nothing is pending: no capture, no timer, no listener. *)
Definition quiet (t : term) : Prop :=
  agentCaptureRef t = None ∧ agentKeysRef t = None ∧
  timers t = ∅ ∧ listeners t = [].

(** The step from [t] to [t'] resolves promise [p], once, and leaves
    nothing behind that could resolve anything again: until the next
    request, no event changes the state. *)
Definition settles (p : nat) (t t' : term) : Prop :=
  quiet t' ∧
  (∃ v, resolved t' = resolved t ++ [(p, v)]) ∧
  (∀ e, is_request e = false → step t' e = t').

(** What holds of a Terminal whose captures were requested one at a
    time: no resolver was called twice; every request made so far is
    resolved or is the pending one with its timer armed; and each path open
    to the pending capture settles it. *)
Definition exactly_once (t : term) : Prop :=
  NoDup (resolved_ids t) ∧
  (∀ p, (p < next t)%nat → p ∈ resolved_ids t ∨ pending p t) ∧
  (∀ c, agentCaptureRef t = Some c →
     settles (resolve c) t (step t AbortAgentCapture) ∧
     settles (resolve c) t (step t (TimerFire (timer c))) ∧
     ∀ data index,
       exec sentinelPattern (stripAnsi (buffer c ++ data)) = Some index →
       settles (resolve c) t (step t (SshOutput data))) ∧
  (∀ k, agentKeysRef t = Some k →
     settles (k_resolve k) t (step t AbortAgentCapture) ∧
     settles (k_resolve k) t (step t (TimerFire (k_timer k)))).

(** What an abort does: a pending sentinel capture is resolved with its
    scrubbed, trimmed buffer, or with the placeholder when that is empty; a
    pending sample capture is resolved with the placeholder; afterwards
    nothing is pending and a new request is allowed. *)
Definition abort_outcome (t : term) : Prop :=
  let t' := abortAgentCapture t in
  (∀ c, agentCaptureRef t = Some c →
     resolved t' =
     resolved t ++
     [(resolve c, or_else (trim (stripAnsi (buffer c))) aborted_by_user)]) ∧
  (∀ k, agentKeysRef t = Some k →
     resolved t' = resolved t ++ [(k_resolve k, aborted_by_user)]) ∧
  quiet t' ∧
  (∀ e, allowed t' e = true).

(** The abort of a sample capture as the specification words it: resolved
    with what was accumulated, the placeholder standing in only for an
    empty accumulation. *)
Definition abort_returns_accumulated (t : term) : Prop :=
  ∀ k buf,
    agentKeysRef t = Some k → outputBuffer t !! k_cleanup k = Some buf →
    resolved (abortAgentCapture t) =
    resolved t ++ [(k_resolve k, or_else (trim (stripAnsi buf)) aborted_by_user)].

(** Two sessions used as concrete inputs below. *)
Definition command_session : list event :=
  [ SendAgentKeys (js "y Enter"); TimerFire 0;
    RunAgentCommand (js "ls");
    SshOutput (js "ls; echo __JUNI_AGENT_DONE__" ++ [CR; LF]) ].

Definition keys_session : list event :=
  [ SendAgentKeys (js "y Enter"); SshOutput (js "Proceed? done") ].

(** A command that waits for input: its echo arrives, the marker never
    does, and the 60 s timer expires; and the same with no output at all. *)
Definition stuck_session : list event :=
  [ RunAgentCommand (js "read x");
    SshOutput (js "read x; echo __JUNI_AGENT_DONE__" ++ [CR; LF]);
    TimerFire 0 ].

Definition silent_session : list event :=
  [ RunAgentCommand (js "read x"); TimerFire 0 ].

(** The output of [ls] in a directory of two files, closed by [marker]. *)
Definition ls_output (marker : str) : str :=
  js "ls" ++ LF :: js "file1" ++ LF :: js "file2" ++ LF :: marker ++ [LF].

(** [keys] without its white space. *)
Definition strip_spaces (keys : str) : str :=
  List.filter (λ c, negb (is_space c)) keys.

Definition no_space (w : str) : Prop := Forall (λ c, is_space c = false) w.

(** The token is none of the names every object inherits. *)
Definition plain (token : str) : Prop := inherited token = VUndefined.

(** The three shapes a Terminal can be in when captures are requested one
    at a time. *)
Inductive shape (t : term) : Prop :=
  | Quiet : quiet t → shape t
  | Sentinel c :
      agentCaptureRef t = Some c → agentKeysRef t = None →
      timers t = {[ timer c := (60000, SentinelTimeout (resolve c)) ]} →
      listeners t = [] →
      resolve c ∉ resolved_ids t → (resolve c < next t)%nat →
      shape t
  | Sample k :
      agentCaptureRef t = None → agentKeysRef t = Some k →
      timers t = {[ k_timer k := (3000, SampleTimeout (k_resolve k) (k_cleanup k)) ]} →
      listeners t = [k_cleanup k] →
      is_Some (outputBuffer t !! k_cleanup k) →
      k_resolve k ∉ resolved_ids t → (k_resolve k < next t)%nat →
      shape t.

Record inv (t : term) : Prop := Inv {
  inv_shape : shape t;
  inv_once : NoDup (resolved_ids t);
  inv_bound : ∀ p, p ∈ resolved_ids t → (p < next t)%nat;
  inv_all : ∀ p, (p < next t)%nat → p ∈ resolved_ids t ∨ pending p t
}.

End Terminal.

(** ** GeminiChat.jsx: the agent loop *)

Module Agent.

(** *** Conversation data *)

(** [functionCall.args], with the members the loop reads; [None] is
    [undefined]. *)
Record arguments := Args {
  arg_command : option str;
  arg_keys : option str;
  arg_reasoning : option str;
  arg_summary : option str
}.

(** [{ name, args }]; [args] is [None] where the call has no such member. *)
Record function_call := FunctionCall {
  name : str;
  args : option arguments
}.

Inductive response :=
  | Output (output : str)       (* { output } *)
  | Acknowledged.               (* { acknowledged: true } *)

Inductive part :=
  | Text (text : str)
  | Call (functionCall : function_call)
  | Response (name : str) (response : response).

Inductive role := User | Model.

Record entry := Entry { entry_role : role; parts : list part }.

Inductive message_type := MSystem | MModel.
Record message := Message { m_type : message_type; m_text : str }.

(** *** Step records *)

Inductive step_type := TCommand | TSendKeys | TComplete | TAborted | TError.
Inductive step_status := Running | Done | Timeout.

Record step_record := Step {
  type : step_type;
  status : step_status;
  command : option str;
  keys : option str;
  reasoning : option str;
  summary : option str;
  text : option str;
  output : option str
}.

Definition command_step (command reasoning : option str) : step_record :=
  Step TCommand Running command None reasoning None None None.
Definition send_keys_step (keys reasoning : option str) : step_record :=
  Step TSendKeys Running None keys reasoning None None None.
Definition complete_step (summary : option str) : step_record :=
  Step TComplete Done None None None summary None None.
Definition aborted_step : step_record :=
  Step TAborted Done None None None None None None.
Definition error_step (text : str) : step_record :=
  Step TError Done None None None None (Some text) None.

(** [{ ...s, output, status }] *)
Definition with_output (output : str) (st : step_status) (s : step_record) : step_record :=
  Step (type s) st (command s) (keys s) (reasoning s) (summary s) (text s)
       (Some output).

(** [prev.map((s, i) => i === prev.length - 1 ? f(s) : s)] *)
Fixpoint map_last (f : step_record -> step_record) (prev : list step_record)
  : list step_record :=
  match prev with
  | [] => []
  | [s] => [f s]
  | s :: rest => s :: map_last f rest
  end.

(** *** runAgentStep *)

(** What [runAgentStep] returns, or the message of the [TypeError] it
    throws. *)
Inductive result :=
  | RText (text : str) (parts : list part)
  | RComplete (summary : option str) (parts : list part)
  | RCommand (command reasoning : option str) (parts : list part)
  | RSendKeys (keys reasoning : option str) (parts : list part)
  | RThrow (message : str).

(** [parts.find((p) => p.functionCall)] *)
Fixpoint find_call (ps : list part) : option function_call :=
  match ps with
  | [] => None
  | Call fc :: _ => Some fc
  | _ :: ps' => find_call ps'
  end.

(** [parts.find((p) => p.text)]: the empty string is falsy. *)
Fixpoint find_text (ps : list part) : option str :=
  match ps with
  | [] => None
  | Text (c :: t) :: _ => Some (c :: t)
  | _ :: ps' => find_text ps'
  end.

Definition no_response : str := js "No response generated.".

(** The message of the [TypeError] that reading [args.member] throws when
    [args] is [undefined], as V8, the engine of Electron, words it. *)
Definition type_error (member : str) : str :=
  js "Cannot read properties of undefined (reading '" ++ member ++ js "')".

(** What [runAgentStep] returns for the parts the model sent.  The first
    member read of [args] is [summary], [command] or [keys]; where the
    call has no [args] that read throws. *)
Definition interpret (ps : list part) : result :=
  let fallback :=
    match find_text ps with
    | Some t => RText t ps
    | None => RText no_response [Text no_response]
    end in
  match find_call ps with
  | Some fc =>
      if Terminal.eqb_str (name fc) (js "task_complete") then
        match args fc with
        | Some a => RComplete (arg_summary a) ps
        | None => RThrow (type_error (js "summary"))
        end
      else if Terminal.eqb_str (name fc) (js "run_command") then
        match args fc with
        | Some a => RCommand (arg_command a) (arg_reasoning a) ps
        | None => RThrow (type_error (js "command"))
        end
      else if Terminal.eqb_str (name fc) (js "send_keys") then
        match args fc with
        | Some a => RSendKeys (arg_keys a) (arg_reasoning a) ps
        | None => RThrow (type_error (js "keys"))
        end
      else fallback
  | None => fallback
  end.

(** *** State of one GeminiChat component *)

(** [pausedResolverRef.current]: [null], ['pending'], or the [resolve] of
    the promise the loop is waiting on. *)
Inductive paused_resolver := PNull | PPending | PResolve.

(** The [await] at which [startAgentLoop] is suspended, with the arguments
    of the pending [executeAgentCommand] or [executeAgentSendKeys]; [Idle]
    when it is not running. *)
Inductive pc_t :=
  | Idle
  | AwaitPause
  | AwaitModel
  | AwaitCommand (command reasoning : option str)
  | AwaitKeys (keys reasoning : option str).

Inductive call :=
  | CallModel (history : list entry)          (* runAgentStep(history, signal) *)
  | CallRunAgentCommand (command : option str)
  | CallSendAgentKeys (keys : option str)
  | CallAbortAgentCapture.

Record agent := Agent {
  messages : list message;
  agentHistory : list entry;
  agentSteps : list step_record;
  agentRunning : bool;
  agentPaused : bool;
  agentStopping : bool;
  isLoading : bool;
  abortAgentRef : bool;
  abortControllerRef : bool;
  pausedResolverRef : paused_resolver;
  lastAgentPromptRef : option str;
  history : list entry;
  i : nat;
  pc : pc_t;
  signal_aborted : bool;
  calls : list call
}.

Definition initial : agent :=
  Agent [] [] [] false false false false false false PNull None [] 0 Idle
        false [].

Definition set_messages (v : list message) (s : agent) : agent :=
  Agent v (agentHistory s) (agentSteps s) (agentRunning s) (agentPaused s)
    (agentStopping s) (isLoading s) (abortAgentRef s) (abortControllerRef s)
    (pausedResolverRef s) (lastAgentPromptRef s) (history s) (i s) (pc s)
    (signal_aborted s) (calls s).

Definition set_agentHistory (v : list entry) (s : agent) : agent :=
  Agent (messages s) v (agentSteps s) (agentRunning s) (agentPaused s)
    (agentStopping s) (isLoading s) (abortAgentRef s) (abortControllerRef s)
    (pausedResolverRef s) (lastAgentPromptRef s) (history s) (i s) (pc s)
    (signal_aborted s) (calls s).

Definition set_agentSteps (v : list step_record) (s : agent) : agent :=
  Agent (messages s) (agentHistory s) v (agentRunning s) (agentPaused s)
    (agentStopping s) (isLoading s) (abortAgentRef s) (abortControllerRef s)
    (pausedResolverRef s) (lastAgentPromptRef s) (history s) (i s) (pc s)
    (signal_aborted s) (calls s).

Definition set_agentRunning (v : bool) (s : agent) : agent :=
  Agent (messages s) (agentHistory s) (agentSteps s) v (agentPaused s)
    (agentStopping s) (isLoading s) (abortAgentRef s) (abortControllerRef s)
    (pausedResolverRef s) (lastAgentPromptRef s) (history s) (i s) (pc s)
    (signal_aborted s) (calls s).

Definition set_agentPaused (v : bool) (s : agent) : agent :=
  Agent (messages s) (agentHistory s) (agentSteps s) (agentRunning s) v
    (agentStopping s) (isLoading s) (abortAgentRef s) (abortControllerRef s)
    (pausedResolverRef s) (lastAgentPromptRef s) (history s) (i s) (pc s)
    (signal_aborted s) (calls s).

Definition set_agentStopping (v : bool) (s : agent) : agent :=
  Agent (messages s) (agentHistory s) (agentSteps s) (agentRunning s)
    (agentPaused s) v (isLoading s) (abortAgentRef s) (abortControllerRef s)
    (pausedResolverRef s) (lastAgentPromptRef s) (history s) (i s) (pc s)
    (signal_aborted s) (calls s).

Definition set_isLoading (v : bool) (s : agent) : agent :=
  Agent (messages s) (agentHistory s) (agentSteps s) (agentRunning s)
    (agentPaused s) (agentStopping s) v (abortAgentRef s) (abortControllerRef
    s) (pausedResolverRef s) (lastAgentPromptRef s) (history s) (i s) (pc s)
    (signal_aborted s) (calls s).

Definition set_abortAgentRef (v : bool) (s : agent) : agent :=
  Agent (messages s) (agentHistory s) (agentSteps s) (agentRunning s)
    (agentPaused s) (agentStopping s) (isLoading s) v (abortControllerRef s)
    (pausedResolverRef s) (lastAgentPromptRef s) (history s) (i s) (pc s)
    (signal_aborted s) (calls s).

Definition set_abortControllerRef (v : bool) (s : agent) : agent :=
  Agent (messages s) (agentHistory s) (agentSteps s) (agentRunning s)
    (agentPaused s) (agentStopping s) (isLoading s) (abortAgentRef s) v
    (pausedResolverRef s) (lastAgentPromptRef s) (history s) (i s) (pc s)
    (signal_aborted s) (calls s).

Definition set_pausedResolverRef (v : paused_resolver) (s : agent) : agent :=
  Agent (messages s) (agentHistory s) (agentSteps s) (agentRunning s)
    (agentPaused s) (agentStopping s) (isLoading s) (abortAgentRef s)
    (abortControllerRef s) v (lastAgentPromptRef s) (history s) (i s) (pc s)
    (signal_aborted s) (calls s).

Definition set_lastAgentPromptRef (v : option str) (s : agent) : agent :=
  Agent (messages s) (agentHistory s) (agentSteps s) (agentRunning s)
    (agentPaused s) (agentStopping s) (isLoading s) (abortAgentRef s)
    (abortControllerRef s) (pausedResolverRef s) v (history s) (i s) (pc s)
    (signal_aborted s) (calls s).

Definition set_history (v : list entry) (s : agent) : agent :=
  Agent (messages s) (agentHistory s) (agentSteps s) (agentRunning s)
    (agentPaused s) (agentStopping s) (isLoading s) (abortAgentRef s)
    (abortControllerRef s) (pausedResolverRef s) (lastAgentPromptRef s) v (i
    s) (pc s) (signal_aborted s) (calls s).

Definition set_i (v : nat) (s : agent) : agent :=
  Agent (messages s) (agentHistory s) (agentSteps s) (agentRunning s)
    (agentPaused s) (agentStopping s) (isLoading s) (abortAgentRef s)
    (abortControllerRef s) (pausedResolverRef s) (lastAgentPromptRef s)
    (history s) v (pc s) (signal_aborted s) (calls s).

Definition set_pc (v : pc_t) (s : agent) : agent :=
  Agent (messages s) (agentHistory s) (agentSteps s) (agentRunning s)
    (agentPaused s) (agentStopping s) (isLoading s) (abortAgentRef s)
    (abortControllerRef s) (pausedResolverRef s) (lastAgentPromptRef s)
    (history s) (i s) v (signal_aborted s) (calls s).

Definition set_signal_aborted (v : bool) (s : agent) : agent :=
  Agent (messages s) (agentHistory s) (agentSteps s) (agentRunning s)
    (agentPaused s) (agentStopping s) (isLoading s) (abortAgentRef s)
    (abortControllerRef s) (pausedResolverRef s) (lastAgentPromptRef s)
    (history s) (i s) (pc s) v (calls s).

Definition set_calls (v : list call) (s : agent) : agent :=
  Agent (messages s) (agentHistory s) (agentSteps s) (agentRunning s)
    (agentPaused s) (agentStopping s) (isLoading s) (abortAgentRef s)
    (abortControllerRef s) (pausedResolverRef s) (lastAgentPromptRef s)
    (history s) (i s) (pc s) (signal_aborted s) v.

Definition push_step (r : step_record) (s : agent) : agent :=
  set_agentSteps (agentSteps s ++ [r]) s.

Definition push_message (m : message) (s : agent) : agent :=
  set_messages (messages s ++ [m]) s.

Definition log_call (c : call) (s : agent) : agent :=
  set_calls (calls s ++ [c]) s.

Definition maxIterations : nat := 20.

Section Loop.

(** The props of the component that the loop reads, and the markdown
    renderer applied to a text reply. *)
Variable onRunAgentCommand onSendAgentKeys onAbortAgentCapture : bool.
Variable renderForTerminal : str -> str.

(** The [finally] block. *)
Definition finally (s : agent) : agent :=
  set_pc Idle
    (set_isLoading false
      (set_abortControllerRef false
        (set_pausedResolverRef PNull
          (set_agentStopping false
            (set_agentPaused false
              (set_agentRunning false s)))))).

(** [setIsLoading(true); await runAgentStep(history, controller.signal)] *)
Definition call_model (s : agent) : agent :=
  set_pc AwaitModel (log_call (CallModel (history s)) (set_isLoading true s)).

(** The loop test and the body of an iteration up to its first [await]. *)
Definition loop_top (s : agent) : agent :=
  if (i s <? maxIterations)%nat then
    if abortAgentRef s then finally (push_step aborted_step s)
    else
      match pausedResolverRef s with
      | PPending =>
          set_pc AwaitPause (set_pausedResolverRef PResolve (set_agentPaused true s))
      | _ => call_model s
      end
  else finally s.

(** The loop after the pause promise is resolved. *)
Definition after_pause (s : agent) : agent :=
  let s := set_agentPaused false s in
  if abortAgentRef s then finally (push_step aborted_step s)
  else call_model s.

Definition next_iteration (s : agent) : agent :=
  loop_top (set_i (S (i s)) s).

Definition startAgentLoop (userText : str) (s : agent) : agent :=
  let s := set_abortAgentRef false s in
  let s := set_agentPaused false s in
  let s := set_pausedResolverRef PNull s in
  let s := set_lastAgentPromptRef (Some userText) s in
  let s := set_agentRunning true s in
  let s := set_agentSteps [] s in
  let s := set_signal_aborted false (set_abortControllerRef true s) in
  let userEntry := Entry User [Text userText] in
  let s := set_history (agentHistory s ++ [userEntry]) s in
  let s := set_agentHistory (history s) s in
  loop_top (set_i 0 s).

Definition timed_out : str := js "timed out".
Definition waiting_for_input : str := js "waiting for input".

(** [output.includes('timed out') || output.includes('waiting for input')] *)
Definition timedOut (output : str) : bool :=
  includes timed_out output || includes waiting_for_input output.

Definition command_status (output : str) : step_status :=
  if timedOut output then Timeout else Done.

Definition input_note : str :=
  js "Command may be waiting for input. Check the terminal and resolve it, then try again.".

Definition call_entries (fn : str) (fc : function_call) (r : response) : list entry :=
  [ Entry Model [Call fc]; Entry User [Response fn r] ].

(** [executeAgentCommand] from the point where [output] is known, and the
    rest of the iteration. *)
Definition command_done (command reasoning : option str) (output : str)
  (s : agent) : agent :=
  let s := set_agentSteps
             (map_last (with_output output (command_status output)) (agentSteps s)) s in
  let s := if timedOut output
           then set_abortAgentRef true (push_message (Message MSystem input_note) s)
           else s in
  let s := set_history
             (history s ++
              call_entries (js "run_command")
                (FunctionCall (js "run_command")
                   (Some (Args command None reasoning None)))
                (Output output)) s in
  next_iteration (set_agentHistory (history s) s).

Definition no_terminal_for_command : str :=
  js "(No terminal connected for agent execution)".
Definition no_terminal_for_keys : str :=
  js "(No terminal connected for sending keys)".

Definition executeAgentCommand (command reasoning : option str) (s : agent) : agent :=
  let s := push_step (command_step command reasoning) s in
  if onRunAgentCommand then
    set_pc (AwaitCommand command reasoning)
      (log_call (CallRunAgentCommand command) s)
  else command_done command reasoning no_terminal_for_command s.

(** [executeAgentSendKeys] from the point where [output] is known. *)
Definition keys_done (keys reasoning : option str) (output : str) (s : agent)
  : agent :=
  let s := set_agentSteps (map_last (with_output output Done) (agentSteps s)) s in
  let s := set_history
             (history s ++
              call_entries (js "send_keys")
                (FunctionCall (js "send_keys")
                   (Some (Args None keys reasoning None)))
                (Output output)) s in
  next_iteration (set_agentHistory (history s) s).

Definition executeAgentSendKeys (keys reasoning : option str) (s : agent) : agent :=
  let s := push_step (send_keys_step keys reasoning) s in
  if onSendAgentKeys then
    set_pc (AwaitKeys keys reasoning) (log_call (CallSendAgentKeys keys) s)
  else keys_done keys reasoning no_terminal_for_keys s.

(** [runAgentStep] threw, and the [catch] block; [abort] tells whether [err.name] is
    ['AbortError']. *)
Definition model_threw (abort : bool) (message : str) (s : agent) : agent :=
  let s := set_isLoading false s in
  finally (push_step (if abort then aborted_step else error_step message) s).

(** [runAgentStep] returned, or threw the [TypeError] of a call without
    [args], whose name is not ['AbortError']. *)
Definition model_replied (ps : list part) (s : agent) : agent :=
  let s := set_isLoading false s in
  match interpret ps with
  | RThrow message => model_threw false message s
  | RText text ps =>
      let s := set_history (history s ++ [Entry Model ps]) s in
      let s := set_agentHistory (history s) s in
      finally (push_message (Message MModel (renderForTerminal text)) s)
  | RComplete summary ps =>
      let s := set_history (history s ++ [Entry Model ps]) s in
      let s := set_agentHistory (history s) s in
      let s := push_step (complete_step summary) s in
      let s := set_history
                 (history s ++
                  [Entry User [Response (js "task_complete") Acknowledged]]) s in
      finally (set_agentHistory (history s) s)
  | RCommand command reasoning _ => executeAgentCommand command reasoning s
  | RSendKeys keys reasoning _ => executeAgentSendKeys keys reasoning s
  end.

Definition stopAgent (s : agent) : agent :=
  let s := set_agentStopping true (set_abortAgentRef true s) in
  let s := if abortControllerRef s
           then set_abortControllerRef false (set_signal_aborted true s)
           else s in
  let s := if onAbortAgentCapture then log_call CallAbortAgentCapture s else s in
  match pausedResolverRef s with
  | PResolve =>
      (* the resolver is called; the loop goes on once stopAgent returns *)
      after_pause (set_agentPaused false (set_pausedResolverRef PNull s))
  | _ => set_agentPaused false s
  end.

Definition pauseAgent (s : agent) : agent :=
  if agentRunning s && negb (agentPaused s)
  then set_pausedResolverRef PPending s
  else s.

Definition resumeAgent (s : agent) : agent :=
  match pausedResolverRef s with
  | PResolve => after_pause (set_pausedResolverRef PNull s)
  | _ => s
  end.

(** What drives the loop: the outcome of a call of the model, the output
    of a capture, and the three buttons that act on the loop.  The Clear
    button, which writes the component's state and not the loop's, is
    added to them in [Chat]. *)
Inductive event :=
  | ModelReply (ps : list part)
  | ModelThrow (abort : bool) (message : str)
  | CaptureResolved (output : str)
  | PauseAgent
  | ResumeAgent
  | StopAgent.

(** One event of a run.  A reply is taken only where the loop waits for
    it. *)
Definition step (s : agent) (e : event) : agent :=
  match e, pc s with
  | ModelReply ps, AwaitModel => model_replied ps s
  | ModelThrow abort message, AwaitModel => model_threw abort message s
  | CaptureResolved output, AwaitCommand command reasoning =>
      command_done command reasoning output s
  | CaptureResolved output, AwaitKeys keys reasoning =>
      keys_done keys reasoning output s
  | PauseAgent, _ => pauseAgent s
  | ResumeAgent, _ => resumeAgent s
  | StopAgent, _ => stopAgent s
  | _, _ => s
  end.

Definition run (s : agent) (evs : list event) : agent := fold_left step evs s.

End Loop.

(** *** What the step log and the chat pane show of a run *)

(** The step records that close a run. *)
Definition terminal_step (r : step_record) : bool :=
  match type r with
  | TComplete | TAborted | TError => true
  | TCommand | TSendKeys => false
  end.

Definition no_terminal_step (steps : list step_record) : Prop :=
  Forall (λ r, terminal_step r = false) steps.

(** The text replies of the model shown in the chat pane. *)
Definition model_texts (s : agent) : list str :=
  m_text <$> List.filter (λ m, match m_type m with MModel => true | MSystem => false end)
               (messages s).

(** The number of step records an unfinished run holds: one for each
    iteration that is over, and one for the call it is waiting on. *)
Definition steps_so_far (s : agent) : nat :=
  match pc s with
  | AwaitCommand _ _ | AwaitKeys _ _ => S (i s)
  | _ => i s
  end.

(** What holds of a run started from [s0], whatever happens to it. *)
Record run_inv (s0 s : agent) : Prop := RunInv {
  inv_i : (i s ≤ maxIterations)%nat;
  inv_resolver : pausedResolverRef s = PResolve ↔ pc s = AwaitPause;
  inv_paused : pc s = AwaitPause → agentPaused s = true;
  inv_live :
    pc s ≠ Idle →
    (i s < maxIterations)%nat ∧ agentRunning s = true ∧
    no_terminal_step (agentSteps s) ∧ length (agentSteps s) = steps_so_far s ∧
    model_texts s = model_texts s0;
  inv_over :
    pc s = Idle →
    agentRunning s = false ∧
    (i s = maxIterations →
     no_terminal_step (agentSteps s) ∧ length (agentSteps s) = maxIterations ∧
     model_texts s = model_texts s0)
}.

(** The state of the loop at the top of an iteration, before its test. *)
Record at_top (s0 s : agent) : Prop := AtTop {
  top_i : (i s ≤ maxIterations)%nat;
  top_resolver : pausedResolverRef s ≠ PResolve;
  top_running : agentRunning s = true;
  top_steps : no_terminal_step (agentSteps s);
  top_length : length (agentSteps s) = i s;
  top_texts : model_texts s = model_texts s0
}.

(** The calls of the model among the calls made. *)
Definition model_calls (s : agent) : list call :=
  List.filter (λ c, match c with CallModel _ => true | _ => false end) (calls s).

(** What [stop()] does to a run blocked on the pause-wait: the wait is
    resolved, the run ends with one more step record, [aborted], and
    whatever comes later finds the loop ended: no call of the model and no
    other step record is added. *)
Definition aborted_from_pause
  (onRunAgentCommand onSendAgentKeys onAbortAgentCapture : bool)
  (renderForTerminal : str → str) (s : agent) : Prop :=
  let step := step onRunAgentCommand onSendAgentKeys onAbortAgentCapture renderForTerminal in
  let run := run onRunAgentCommand onSendAgentKeys onAbortAgentCapture renderForTerminal in
  let s' := step s StopAgent in
  pausedResolverRef s = PResolve ∧
  pc s' = Idle ∧ agentRunning s' = false ∧ agentPaused s' = false ∧
  pausedResolverRef s' = PNull ∧
  agentSteps s' = agentSteps s ++ [aborted_step] ∧
  calls s' = calls s ++ (if onAbortAgentCapture then [CallAbortAgentCapture] else []) ∧
  ∀ evs,
    pc (run s' evs) = Idle ∧
    model_calls (run s' evs) = model_calls s ∧
    agentSteps (run s' evs) = agentSteps s'.

(** What the iteration cap leaves behind: the run is over, the step log
    holds the twenty command and keys records and none that closes a run,
    and no text reply was shown. *)
Definition stopped_silently (s0 s : agent) : Prop :=
  agentRunning s = false ∧
  no_terminal_step (agentSteps s) ∧
  length (agentSteps s) = maxIterations ∧
  model_texts s = model_texts s0.

(** The state of an iteration whose command or keys step is recorded and
    whose output is about to be known. *)
Record in_call (s0 s : agent) : Prop := InCall {
  call_i : (i s < maxIterations)%nat;
  call_resolver : pausedResolverRef s ≠ PResolve;
  call_running : agentRunning s = true;
  call_steps : no_terminal_step (agentSteps s);
  call_length : length (agentSteps s) = S (i s);
  call_texts : model_texts s = model_texts s0
}.

Definition run_command_call (command : str) : part :=
  Call (FunctionCall (js "run_command")
          (Some (Args (Some command) None (Some (js "look")) None))).

(** A run paused after its first command, and a run of twenty commands. *)
Definition paused_run : list event :=
  [ PauseAgent; ModelReply [run_command_call (js "ls")]; CaptureResolved (js "ok") ].

Definition capped_run : list event :=
  concat (replicate maxIterations
            [ ModelReply [run_command_call (js "ls")]; CaptureResolved (js "ok") ]).

End Agent.

(** ** main.js: the session bridge

    The state is that of one [io.on('connection')] closure: the three
    backend handles, the buffered terminal size, and the trace of what the
    handlers did to the backends and sent to the client. *)

Module Bridge.

Local Open Scope Z_scope.

Record size := Size { rows : Z; cols : Z }.

(** The [port] member as the client sends it: an integer or a string. *)
Inductive port_value := PortNumber (n : Z) | PortString (s : str).

(** A JavaScript number: an integer, or [Number(s)] for a string [s], left
    as it is written (it may be a rounded value or [NaN]). *)
Inductive number := Num (n : Z) | NumberOf (s : str).

Record credentials := Credentials {
  host : str;
  port : option port_value;      (* [None] where the member is missing *)
  username : str;
  password : option str;
  privateKey : option str;
  local : bool
}.

Definition LOCAL_HOSTS : list str := [js "localhost"; js "127.0.0.1"; js "::1"].

Inductive auth := WithKey (privateKey : str) | WithPassword (password : str) | NoSecret.

Inductive session_status := Authenticated | Ready | Disconnected.

Inductive effect :=
  | PtySpawn (pty : nat) (cols rows : Z)
  | PtyWrite (pty : nat) (data : str)
  | PtyResize (pty : nat) (cols rows : Z)
  | PtyKill (pty : nat)
  | ClientConnect (client : nat) (host : str) (port : number) (username : str) (a : auth)
  | ClientShell (client : nat) (rows cols : Z)
  | ClientEnd (client : nat)
  | StreamWrite (stream : nat) (data : str)
  | StreamSetWindow (stream : nat) (rows cols : Z)
  | StreamEnd (stream : nat)
  | EmitStatus (s : session_status)
  | EmitError (message : str)
  | EmitOutput (data : str).

Record session := Session {
  sshClient : option nat;
  sshStream : option nat;
  ptyProcess : option nat;
  pendingSize : size;
  trace : list effect;       (* oldest first *)
  fresh : nat                (* number of the next backend object *)
}.

Definition connected : session :=
  Session None None None (Size 24 80) [] 0.

Definition perform (e : effect) (s : session) : session :=
  Session (sshClient s) (sshStream s) (ptyProcess s) (pendingSize s)
          (trace s ++ [e]) (fresh s).

Definition set_sshClient (v : option nat) (s : session) : session :=
  Session v (sshStream s) (ptyProcess s) (pendingSize s) (trace s) (fresh s).

Definition set_sshStream (v : option nat) (s : session) : session :=
  Session (sshClient s) v (ptyProcess s) (pendingSize s) (trace s) (fresh s).

Definition set_ptyProcess (v : option nat) (s : session) : session :=
  Session (sshClient s) (sshStream s) v (pendingSize s) (trace s) (fresh s).

Definition set_pendingSize (v : size) (s : session) : session :=
  Session (sshClient s) (sshStream s) (ptyProcess s) v (trace s) (fresh s).

Definition new_object (s : session) : session :=
  Session (sshClient s) (sshStream s) (ptyProcess s) (pendingSize s) (trace s)
          (S (fresh s)).

Definition writeToBackend (data : str) (s : session) : session :=
  match ptyProcess s, sshStream s with
  | Some p, _ => perform (PtyWrite p data) s
  | None, Some st => perform (StreamWrite st data) s
  | None, None => s
  end.

Definition resizeBackend (cols rows : Z) (s : session) : session :=
  let s := set_pendingSize (Size rows cols) s in
  match ptyProcess s, sshStream s with
  | Some p, _ => perform (PtyResize p cols rows) s
  | None, Some st => perform (StreamSetWindow st rows cols) s
  | None, None => s
  end.

Definition cleanupBackend (s : session) : session :=
  let s := match ptyProcess s with
           | Some p => set_ptyProcess None (perform (PtyKill p) s)
           | None => s
           end in
  let s := match sshStream s with
           | Some st => perform (StreamEnd st) s
           | None => s
           end in
  let s := match sshClient s with
           | Some c => perform (ClientEnd c) s
           | None => s
           end in
  set_sshClient None (set_sshStream None s).

Definition no_pty : str :=
  js "node-pty is not available. Cannot open local terminal.".

Definition truthy (v : option str) : option str :=
  match v with Some (c :: r) => Some (c :: r) | _ => None end.

(** [local || LOCAL_HOSTS.includes(host)] *)
Definition isLocal (cr : credentials) : bool :=
  local cr || existsb (Terminal.eqb_str (host cr)) LOCAL_HOSTS.

Definition connect_auth (cr : credentials) : auth :=
  match truthy (privateKey cr), truthy (password cr) with
  | Some k, _ => WithKey k
  | None, Some pw => WithPassword pw
  | None, None => NoSecret
  end.

(** [Number(port)], with [port = 22] where the member is missing. *)
Definition connect_port (cr : credentials) : number :=
  match port cr with
  | None => Num 22
  | Some (PortNumber n) => Num n
  | Some (PortString s) => NumberOf s
  end.

Section Handlers.

(** Whether [require('node-pty')] succeeded. *)
Variable pty : bool.

(** [socket.on('ssh:connect')] *)
Definition ssh_connect (cr : credentials) (s : session) : session :=
  if isLocal cr then
    if negb pty then perform (EmitError no_pty) s
    else
      let s := perform (EmitStatus Authenticated) s in
      let p := fresh s in
      let s := perform (PtySpawn p (cols (pendingSize s)) (rows (pendingSize s))) s in
      let s := set_ptyProcess (Some p) (new_object s) in
      perform (EmitStatus Ready) s
  else
    let c := fresh s in
    let s := set_sshClient (Some c) (new_object s) in
    perform (ClientConnect c (host cr) (connect_port cr) (username cr) (connect_auth cr)) s.

End Handlers.

(** [sshClient.on('ready')]: [None] is the [TypeError] of calling [shell]
    on [null]. *)
Definition client_ready (s : session) : option session :=
  let s := perform (EmitStatus Authenticated) s in
  match sshClient s with
  | Some c => Some (perform (ClientShell c (rows (pendingSize s)) (cols (pendingSize s))) s)
  | None => None
  end.

(** The callback of [sshClient.shell]: an error message, or the stream. *)
Definition shell_opened (r : str + nat) (s : session) : session :=
  match r with
  | inl message => perform (EmitError message) s
  | inr stream => perform (EmitStatus Ready) (set_sshStream (Some stream) s)
  end.

Definition stream_close (s : session) : session :=
  let s := perform (EmitStatus Disconnected) s in
  match sshClient s with
  | Some c => perform (ClientEnd c) s
  | None => s
  end.

Definition client_close (s : session) : session :=
  set_sshStream None (set_sshClient None (perform (EmitStatus Disconnected) s)).

Definition pty_exit (s : session) : session :=
  set_ptyProcess None (perform (EmitStatus Disconnected) s).

Inductive event :=
  | SshConnect (cr : credentials)
  | SshData (data : str)
  | SshResize (cols rows : Z)
  | Disconnect
  | ClientReady
  | ShellOpened (r : str + nat)
  | ClientError (message : str)
  | ClientClose
  | StreamClose
  | BackendData (data : str)
  | PtyExit.

Definition step (pty : bool) (s : session) (e : event) : option session :=
  match e with
  | SshConnect cr => Some (ssh_connect pty cr s)
  | SshData data => Some (writeToBackend data s)
  | SshResize cols rows => Some (resizeBackend cols rows s)
  | Disconnect => Some (cleanupBackend s)
  | ClientReady => client_ready s
  | ShellOpened r => Some (shell_opened r s)
  | ClientError message => Some (perform (EmitError message) s)
  | ClientClose => Some (client_close s)
  | StreamClose => Some (stream_close s)
  | BackendData data => Some (perform (EmitOutput data) s)
  | PtyExit => Some (pty_exit s)
  end.

Fixpoint run (pty : bool) (s : session) (evs : list event) : option session :=
  match evs with
  | [] => Some s
  | e :: evs' =>
      match step pty s e with
      | Some s' => run pty s' evs'
      | None => None
      end
  end.

(** The effects of one teardown, in the order the handler performs them. *)
Definition teardown_effects (s : session) : list effect :=
  match ptyProcess s with Some p => [PtyKill p] | None => [] end ++
  match sshStream s with Some st => [StreamEnd st] | None => [] end ++
  match sshClient s with Some c => [ClientEnd c] | None => [] end.

(** [ssh:resize] messages, oldest first. *)
Definition resizes (rs : list (Z * Z)) : list event :=
  map (λ cr, SshResize cr.1 cr.2) rs.

Definition local_host : credentials :=
  Credentials (js "localhost") (Some (PortNumber 22)) (js "juni") None None false.

(** A remote host, with the port as the text of a form field. *)
Definition remote_host : credentials :=
  Credentials (js "example.org") (Some (PortString (js "22"))) (js "juni")
    (Some (js "secret")) None false.

(** What [pendingSize] holds after the resize requests [rs], oldest
    first, each given as [(cols, rows)]. *)
Definition last_size (sz : size) (rs : list (Z * Z)) : size :=
  fold_left (λ _ cr, Size cr.2 cr.1) rs sz.

End Bridge.

(** ** Terminal.jsx: the rest of the imperative handle *)

Module Screen.

(** Text that holds none of the code units an escape pattern starts with:
    ESC, the 8-bit CSI, an opening bracket, a carriage return. *)
Definition plain_text (s : str) : bool :=
  forallb (λ c, negb (one_of [ESC; 155; 91; CR] c)) s.

(** [line.trim() === ''] *)
Definition blank (line : str) : bool :=
  match trim line with [] => true | _ => false end.

(** [while (lines.length > 0 && lines[lines.length - 1].trim() === '')
    lines.pop()], on the lines in reverse order. *)
Fixpoint pop_blank_rev (rev_lines : list str) : list str :=
  match rev_lines with
  | line :: rest => if blank line then pop_blank_rev rest else rev_lines
  | [] => []
  end.

Definition pop_blank (lines : list str) : list str :=
  rev (pop_blank_rev (rev lines)).

(** [lines.join(sep)] *)
Fixpoint join (sep : str) (lines : list str) : str :=
  match lines with
  | [] => []
  | [line] => line
  | line :: rest => line ++ sep ++ join sep rest
  end.

(** [getBufferText], given the lines of the active buffer as
    [translateToString(true)] renders them ([None] where [getLine] has no
    line); [None] for the terminal when [xtermRef.current] is not set. *)
Definition getBufferText (term : option (list (option str))) : str :=
  match term with
  | None => []
  | Some buf => join [LF] (pop_blank (map (default []) buf))
  end.

(** [writeToTerminal] *)
Definition writeToTerminal (text : str) (t : Terminal.term) : Terminal.term :=
  if Terminal.socketRef t then Terminal.emit_data text t else t.

End Screen.

(** ** GeminiChat.jsx: replies of the model *)

Module Replies.

Import Agent.

(** The three action names the loop acts on. *)
Definition recognised (fn : str) : bool :=
  Terminal.eqb_str fn (js "task_complete")
  || Terminal.eqb_str fn (js "run_command")
  || Terminal.eqb_str fn (js "send_keys").

(** The text reply made of the parts when no call decides. *)
Definition text_reply (ps : list part) : result :=
  match find_text ps with
  | Some t => RText t ps
  | None => RText no_response [Text no_response]
  end.

(** The action a recognised call with arguments stands for. *)
Definition action (fn : str) (a : arguments) (ps : list part) : result :=
  if Terminal.eqb_str fn (js "task_complete") then
    RComplete (arg_summary a) ps
  else if Terminal.eqb_str fn (js "run_command") then
    RCommand (arg_command a) (arg_reasoning a) ps
  else RSendKeys (arg_keys a) (arg_reasoning a) ps.

(** The member of [args] that [runAgentStep] reads first for a recognised
    call. *)
Definition member (fn : str) : str :=
  if Terminal.eqb_str fn (js "task_complete") then js "summary"
  else if Terminal.eqb_str fn (js "run_command") then js "command"
  else js "keys".

(** What a recognised call gives: its action, or the [TypeError] of
    reading a member of the [args] it does not have. *)
Definition decided (fc : function_call) (ps : list part) : result :=
  match args fc with
  | Some a => action (name fc) a ps
  | None => RThrow (type_error (member (name fc)))
  end.

Definition is_text (r : result) : bool :=
  match r with RText _ _ => true | _ => false end.

End Replies.

(** ** GeminiChat.jsx: whole runs *)

Module Runs.

Import Agent.

(** How many times the model was called, seen from a run that began when
    it had been called [n0] times. *)
Record calls_inv (n0 : nat) (s : agent) : Prop := CallsInv {
  calls_paused : pc s = AwaitPause → length (model_calls s) = (n0 + i s)%nat;
  calls_busy :
    pc s ≠ AwaitPause → pc s ≠ Idle →
    length (model_calls s) = (n0 + S (i s))%nat;
  calls_over : pc s = Idle → (length (model_calls s) ≤ n0 + maxIterations)%nat
}.

(** A run that has asked for one command and waits for its output. *)
Definition command_pending : list event :=
  [ ModelReply [run_command_call (js "read x")] ].

(** A scripted model: it asks for the commands [cmds] one after the other,
    each paired with the output the terminal answers, and then declares
    the task complete. *)
Definition script (cmds : list (str * str)) : list event :=
  concat (map (λ co, [ModelReply [run_command_call co.1]; CaptureResolved co.2]) cmds).

Definition complete_call (summary : str) : part :=
  Call (FunctionCall (js "task_complete") (Some (Args None None None (Some summary)))).

(** The step record of a command that has run. *)
Definition done_step (co : str * str) : step_record :=
  with_output co.2 Done (command_step (Some co.1) (Some (js "look"))).

Definition ordinary (cmds : list (str * str)) : bool :=
  forallb (λ co, negb (timedOut co.2)) cmds.

End Runs.

(** ** GeminiChat.jsx: the Clear button during a run

    While a run is going on the header shows the pause or resume button,
    the stop button and the Clear button; New Chat and Retry are rendered
    only when no run is going on, and [handleSend] returns at once while
    [agentRunning].  [handleClear] writes the state the loop writes, but
    not the loop's local [history]. *)

Module Chat.

Import Agent.

(** [handleClear], on the state shared with the loop; the command history
    of the input line it also empties is in [Prompt]. *)
Definition handleClear (s : agent) : agent :=
  set_agentSteps [] (set_agentHistory [] (set_messages [] s)).

Inductive event :=
  | Loop (e : Agent.event)
  | ClearClick.

Section Component.

Variable onRunAgentCommand onSendAgentKeys onAbortAgentCapture : bool.
Variable renderForTerminal : str -> str.

Definition step (s : agent) (e : event) : agent :=
  match e with
  | Loop e =>
      Agent.step onRunAgentCommand onSendAgentKeys onAbortAgentCapture
        renderForTerminal s e
  | ClearClick => handleClear s
  end.

Definition run (s : agent) (evs : list event) : agent := fold_left step evs s.

End Component.

Definition is_clear (e : event) : bool :=
  match e with ClearClick => true | Loop _ => false end.

(** Whether the Clear button was clicked. *)
Definition cleared (evs : list event) : bool := existsb is_clear evs.

(** A run in which the screen is cleared while the first command runs. *)
Definition cleared_run : list event :=
  [ Loop (ModelReply [run_command_call (js "ls")]); ClearClick ].

End Chat.

(** ** main.js: input and the backends *)

Module Inputs.

Import Bridge.

(** What the client sends while a session lasts: data and resizes. *)
Definition is_input (e : event) : bool :=
  match e with
  | SshData _ | SshResize _ _ => true
  | _ => false
  end.

(** The effects on a local pty. *)
Definition is_pty_effect (e : effect) : bool :=
  match e with
  | PtySpawn _ _ _ | PtyWrite _ _ | PtyResize _ _ _ | PtyKill _ => true
  | _ => false
  end.

(** The effects on a backend, local or remote, as opposed to messages to
    the client. *)
Definition is_backend_effect (e : effect) : bool :=
  match e with
  | EmitStatus _ | EmitError _ | EmitOutput _ => false
  | _ => true
  end.

End Inputs.

(** ** main.js: the cache of Vertex AI clients *)

Module Vertex.

(** [new VertexAI({ project, location })]; [made] numbers the objects in
    the order they are constructed. *)
Record client := Client { made : nat; project : str; location : str }.

Record cache := Cache {
  clientCache : gmap str client;
  constructed : nat                (* how many clients were constructed *)
}.

Definition empty : cache := Cache ∅ 0.

(** [`${project}::${location}`] *)
Definition cache_key (project location : str) : str :=
  project ++ js "::" ++ location.

Definition getVertexClient (project location : str) (c : cache) : client * cache :=
  let key := cache_key project location in
  match clientCache c !! key with
  | Some v => (v, c)
  | None =>
      let v := Client (constructed c) project location in
      (v, Cache (<[key := v]> (clientCache c)) (S (constructed c)))
  end.

(** The cache after the requests [rs], oldest first. *)
Definition serve (c : cache) (rs : list (str * str)) : cache :=
  fold_left (λ c r, (getVertexClient r.1 r.2 c).2) rs c.

End Vertex.

(** ** App.jsx: tabs and the agent's terminal *)

Module App.

Inductive tab_type := Ssh | Gemini | Claude.

Record tab := Tab {
  id : nat;
  type : tab_type;
  connection : option Bridge.credentials;
  status : str
}.

Record app := App {
  tabs : list tab;
  activeTab : option nat;          (* [None] is null *)
  showForm : bool;
  nextId : nat
}.

Definition initial : app := App [] None true 1.

Definition connecting : str := js "connecting".

(** The four handlers that open a tab: [const id = nextId++; ...]. *)
Definition open_tab (ty : tab_type) (conn : option Bridge.credentials) (a : app) : app :=
  let id := nextId a in
  App (tabs a ++ [Tab id ty conn connecting]) (Some id) false (S id).

Definition local_connection : Bridge.credentials :=
  Bridge.Credentials (js "localhost") (Some (Bridge.PortNumber 0)) [] None None true.

Definition handleConnect (credentials : Bridge.credentials) : app → app :=
  open_tab Ssh (Some credentials).
Definition handleLocalConnect : app → app := open_tab Ssh (Some local_connection).
Definition handleOpenGemini : app → app := open_tab Gemini None.
Definition handleOpenClaude : app → app := open_tab Claude None.

Definition handleStatusChange (tabId : nat) (newStatus : str) (a : app) : app :=
  App (map (λ t, if (id t =? tabId)%nat
                 then Tab (id t) (type t) (connection t) newStatus else t) (tabs a))
      (activeTab a) (showForm a) (nextId a).

Definition is_active (tabId : nat) (a : app) : bool :=
  match activeTab a with
  | Some x => (x =? tabId)%nat
  | None => false
  end.

Definition handleCloseTab (tabId : nat) (a : app) : app :=
  let updated := List.filter (λ t, negb (id t =? tabId)%nat) (tabs a) in
  if is_active tabId a then
    match last updated with
    | Some t => App updated (Some (id t)) false (nextId a)
    | None => App updated None true (nextId a)
    end
  else App updated (activeTab a) (showForm a) (nextId a).

Definition handleNewTab (a : app) : app :=
  App (tabs a) None true (nextId a).

Definition switchTab (tabId : nat) (a : app) : app :=
  App (tabs a) (Some tabId) false (nextId a).

Definition is_ssh (t : tab) : bool :=
  match type t with Ssh => true | _ => false end.

(** A number is truthy unless it is 0; null is not. *)
Definition truthy (x : option nat) : bool :=
  match x with Some (S _) => true | _ => false end.

(** [activeTab && tabs.find((t) => t.id === activeTab && t.type === 'ssh')
      ? activeTab : tabs.find((t) => t.type === 'ssh')?.id] *)
Definition sshTabId (a : app) : option nat :=
  if truthy (activeTab a)
     && bool_decide (is_Some (List.find (λ t, is_active (id t) a && is_ssh t) (tabs a)))
  then activeTab a
  else id <$> List.find is_ssh (tabs a).

Definition no_ssh_terminal : str := js "(No SSH terminal connected)".
Definition ref_not_found : str := js "(Terminal ref not found)".

(** What [handleRunAgentCommand] and [handleSendAgentKeys] do with a call:
    answer it themselves, or hand it to the Terminal of a tab. *)
Inductive dispatch :=
  | Answer (text : str)
  | ToTerminal (tabId : nat).

(** [terminalRefs] holds the tabs whose Terminal is mounted. *)
Definition handleRunAgentCommand (terminalRefs : list nat) (a : app) : dispatch :=
  if truthy (sshTabId a) then
    match sshTabId a with
    | Some tabId =>
        if bool_decide (tabId ∈ terminalRefs) then ToTerminal tabId
        else Answer ref_not_found
    | None => Answer no_ssh_terminal
    end
  else Answer no_ssh_terminal.

Inductive event :=
  | Connect (credentials : Bridge.credentials)
  | LocalConnect
  | OpenGemini
  | OpenClaude
  | StatusChange (tabId : nat) (newStatus : str)
  | CloseTab (tabId : nat)
  | NewTab
  | SwitchTab (tabId : nat).

Definition step (a : app) (e : event) : app :=
  match e with
  | Connect credentials => handleConnect credentials a
  | LocalConnect => handleLocalConnect a
  | OpenGemini => handleOpenGemini a
  | OpenClaude => handleOpenClaude a
  | StatusChange tabId newStatus => handleStatusChange tabId newStatus a
  | CloseTab tabId => handleCloseTab tabId a
  | NewTab => handleNewTab a
  | SwitchTab tabId => switchTab tabId a
  end.

Definition run (a : app) (evs : list event) : app := fold_left step evs a.

Definition ids (a : app) : list nat := id <$> tabs a.

(** The tab bar offers only open tabs to switch to. *)
Fixpoint offered (a : app) (evs : list event) : bool :=
  match evs with
  | [] => true
  | e :: evs' =>
      match e with
      | SwitchTab tabId => bool_decide (tabId ∈ ids a)
      | _ => true
      end && offered (step a e) evs'
  end.

Record tabs_inv (a : app) : Prop := TabsInv {
  next_positive : (1 ≤ nextId a)%nat;
  ids_once : NoDup (ids a);
  ids_range : Forall (λ x, (1 ≤ x < nextId a)%nat) (ids a);
  active_open : ∀ x, activeTab a = Some x → x ∈ ids a;
  form_shown : showForm a = true ↔ activeTab a = None
}.

(** Some tabs being opened, used and closed. *)
Definition session_of_tabs : list event :=
  [ OpenGemini; LocalConnect; Connect Bridge.local_host; SwitchTab 1;
    CloseTab 2; StatusChange 3 (js "ready") ].

End App.

(** ** GeminiChat.jsx: the input line and its history *)

Module Prompt.

Local Open Scope Z_scope.

Record prompt := Prompt {
  input : option str;              (* [None] is undefined *)
  commandHistory : list str;       (* newest first *)
  historyIndex : Z
}.

(** [commandHistory[k]] *)
Definition entry (l : list str) (k : Z) : option str :=
  if k <? 0 then None else l !! Z.to_nat k.

Definition len (p : prompt) : Z := Z.of_nat (length (commandHistory p)).

(** [handleKeyDown] on ArrowUp and on ArrowDown. *)
Definition arrowUp (p : prompt) : prompt :=
  if 0 <? len p then
    let newIndex := Z.min (historyIndex p + 1) (len p - 1) in
    Prompt (entry (commandHistory p) newIndex) (commandHistory p) newIndex
  else p.

Definition arrowDown (p : prompt) : prompt :=
  if 0 <? historyIndex p then
    let newIndex := historyIndex p - 1 in
    Prompt (entry (commandHistory p) newIndex) (commandHistory p) newIndex
  else Prompt (Some []) (commandHistory p) (-1).

(** [onChange]: [setInput(e.target.value)] *)
Definition change (v : str) (p : prompt) : prompt :=
  Prompt (Some v) (commandHistory p) (historyIndex p).

(** What [handleSend] does to the input line and its history; [busy] is
    [isLoading || agentRunning].  With an undefined input [input.trim()]
    throws and nothing is set. *)
Definition handleSend (busy : bool) (p : prompt) : prompt :=
  match input p with
  | None => p
  | Some typed =>
      let text := trim typed in
      match text with
      | [] => p
      | _ =>
          if busy then p
          else if Terminal.eqb_str text (js "clear") then
            Prompt (Some []) [] (historyIndex p)
          else if Terminal.eqb_str text (js "help")
                  || Terminal.eqb_str text (js "model") then
            Prompt (Some []) (commandHistory p) (historyIndex p)
          else Prompt (Some []) (take 50 (text :: commandHistory p)) (-1)
      end
  end.

Definition handleClear (p : prompt) : prompt :=
  Prompt (input p) [] (historyIndex p).

Definition handleNewChat (p : prompt) : prompt := Prompt (Some []) [] (-1).

Inductive event :=
  | ArrowUp
  | ArrowDown
  | Change (v : str)
  | Send (busy : bool)
  | ClearScreen
  | NewChat.

Definition step (p : prompt) (e : event) : prompt :=
  match e with
  | ArrowUp => arrowUp p
  | ArrowDown => arrowDown p
  | Change v => change v p
  | Send busy => handleSend busy p
  | ClearScreen => handleClear p
  | NewChat => handleNewChat p
  end.

Definition run (p : prompt) (evs : list event) : prompt := fold_left step evs p.

(** The event empties the history without resetting the index: the Clear
    button, or the word [clear] sent from the input line. *)
Definition clears (p : prompt) (e : event) : bool :=
  match e with
  | ClearScreen => true
  | Send false =>
      match input p with
      | Some typed => Terminal.eqb_str (trim typed) (js "clear")
      | None => false
      end
  | _ => false
  end.

Fixpoint never_cleared (p : prompt) (evs : list event) : bool :=
  match evs with
  | [] => true
  | e :: evs' => negb (clears p e) && never_cleared (step p e) evs'
  end.

(** The component as it is mounted, with the history loaded from storage. *)
Definition mounted (loaded : list str) : prompt := Prompt (Some []) loaded (-1).

(** The index names no entry, or an entry of the history; the input is a
    string. *)
Definition in_range (p : prompt) : Prop :=
  (historyIndex p = -1 ∨ 0 ≤ historyIndex p < len p) ∧ is_Some (input p).

Definition browsing : list event :=
  [ Change (js "ls -la"); Send false; Change (js "pwd"); Send false;
    ArrowUp; ArrowUp; ArrowUp; ArrowDown; Change (js "help"); Send false ].

End Prompt.

(** ** Terminal.jsx: whole captures *)

Module Captures.

Import Terminal.

(** ['ssh:output'] messages, oldest first. *)
Definition outputs (ds : list str) : list event := map SshOutput ds.

(** No message of [ds], arriving after [buffer], completes the marker. *)
Fixpoint stays_pending (buffer : str) (ds : list str) : bool :=
  match ds with
  | [] => true
  | d :: ds' =>
      match exec sentinelPattern (stripAnsi (buffer ++ d)) with
      | Some _ => false
      | None => stays_pending (buffer ++ d) ds'
      end
  end.

(** The requests among the events. *)
Definition requests (evs : list event) : list event :=
  List.filter is_request evs.

(** Call [id] is a pending sample capture that has gathered [b]. *)
Definition sampling (id : nat) (b : str) (u : term) : Prop :=
  agentCaptureRef u = None ∧
  agentKeysRef u = Some (KeysCapture id id id) ∧
  timers u = {[ id := (3000, SampleTimeout id id) ]} ∧
  listeners u = [id] ∧
  outputBuffer u !! id = Some b.

(** Call [id] is a pending sentinel capture that has gathered [b]. *)
Definition capturing (id : nat) (b : str) (u : term) : Prop :=
  agentCaptureRef u = Some (Capture b id id) ∧
  agentKeysRef u = None ∧
  timers u = {[ id := (60000, SentinelTimeout id) ]} ∧
  listeners u = [].

(** The line sent for a command. *)
Definition command_line (command : str) : str :=
  command ++ js "; echo " ++ AGENT_SENTINEL ++ [LF].

End Captures.

Example stripAnsi_colour :
  stripAnsi (ESC :: js "[1;31mred" ++ ESC :: js "[0m" ++ [CR; LF]) = js "red" ++ [LF].
Proof. vm_compute. reflexivity. Qed.

Example stripAnsi_osc_title :
  stripAnsi (ESC :: js "]0;title" ++ BEL :: js "$ ") = js "$ ".
Proof. vm_compute. reflexivity. Qed.

Example split_ws_edges :
  split_ws (js " a  b ") = [ []; js "a"; js "b"; [] ].
Proof. vm_compute. reflexivity. Qed.

Example translate_y_enter :
  Terminal.translate_keys (js "y Enter") = js "y" ++ [CR].
Proof. vm_compute. reflexivity. Qed.

Example extract_ls :
  Terminal.extract_for (js "__DONE__")
    (js "ls" ++ LF :: js "file1" ++ LF :: js "file2" ++ LF :: js "__DONE__" ++ [LF])
  = Some (js "file1" ++ LF :: js "file2").
Proof. vm_compute. reflexivity. Qed.

Example run_ls :
  Terminal.resolved (Terminal.run (Terminal.initial true)
    [Terminal.RunAgentCommand (js "ls");
     Terminal.SshOutput (js "ls; echo __JUNI_AGENT_DONE__" ++ [CR; LF]);
     Terminal.SshOutput (js "file1" ++ [CR; LF] ++ js "file2" ++ [CR; LF]);
     Terminal.SshOutput (js "__JUNI_AGENT_DONE__" ++ [CR; LF])])
  = [(0%nat, js "file1" ++ LF :: js "file2")].
Proof. vm_compute. reflexivity. Qed.

(** * Properties *)

(** ** Session bridge *)

Section BridgeFacts.

Import Bridge.
Local Open Scope Z_scope.

Lemma cleanupBackend_trace (s : session) :
  trace (cleanupBackend s) = trace s ++ teardown_effects s.
Proof.
  destruct s as [c st p sz tr n]; unfold cleanupBackend, teardown_effects; simpl.
  destruct p, st, c; simpl; rewrite <- ?app_assoc; simpl;
    rewrite ?app_nil_r; reflexivity.
Qed.

Lemma cleanupBackend_handles (s : session) :
  ptyProcess (cleanupBackend s) = None ∧
  sshStream (cleanupBackend s) = None ∧
  sshClient (cleanupBackend s) = None.
Proof.
  destruct s as [c st p sz tr n]; unfold cleanupBackend; simpl.
  destruct p, st, c; simpl; auto.
Qed.

Lemma cleanupBackend_detached (s : session) :
  ptyProcess s = None → sshStream s = None → sshClient s = None →
  cleanupBackend s = s.
Proof.
  destruct s as [c st p sz tr n]; simpl; intros -> -> ->; reflexivity.
Qed.

(** C7: two disconnect teardowns in a row.  The first one kills the pty,
    ends the shell stream and ends the transport, each only if it is
    attached and in that order; the second one raises nothing and leaves
    the whole session, its trace of effects included, as it was: no second
    kill and no second end, whether the backend was local, remote or
    absent. *)
Theorem disconnect_twice_no_duplicate_cleanup (pty : bool) (s : session) :
  ∃ s1,
    step pty s Disconnect = Some s1 ∧
    trace s1 = trace s ++ teardown_effects s ∧
    teardown_effects s1 = [] ∧
    step pty s1 Disconnect = Some s1 ∧
    run pty s [Disconnect; Disconnect] = Some s1.
Proof.
  exists (cleanupBackend s).
  destruct (cleanupBackend_handles s) as (Hp & Hst & Hc).
  assert (Hid : cleanupBackend (cleanupBackend s) = cleanupBackend s)
    by (apply cleanupBackend_detached; assumption).
  repeat split.
  - apply cleanupBackend_trace.
  - unfold teardown_effects. rewrite Hp, Hst, Hc. reflexivity.
  - simpl. rewrite Hid. reflexivity.
  - simpl. rewrite Hid. reflexivity.
Qed.

Lemma resize_detached (c r : Z) (s : session) :
  ptyProcess s = None → sshStream s = None →
  resizeBackend c r s = set_pendingSize (Size r c) s.
Proof.
  destruct s as [cl st p sz tr n]; simpl; intros -> ->; reflexivity.
Qed.

Lemma set_pendingSize_same (s : session) : set_pendingSize (pendingSize s) s = s.
Proof. destruct s; reflexivity. Qed.

Lemma run_resizes_detached (pty : bool) (rs : list (Z * Z)) :
  ∀ s,
    ptyProcess s = None → sshStream s = None →
    run pty s (resizes rs) = Some (set_pendingSize (last_size (pendingSize s) rs) s).
Proof.
  induction rs as [|[c0 r0] rs IH]; intros s Hp Hst.
  - simpl. rewrite set_pendingSize_same. reflexivity.
  - simpl. rewrite resize_detached by assumption.
    rewrite IH by (destruct s; assumption).
    destruct s; reflexivity.
Qed.

Lemma bridge_run_app (pty : bool) (evs1 evs2 : list event) :
  ∀ s s1, run pty s evs1 = Some s1 → run pty s (evs1 ++ evs2) = run pty s1 evs2.
Proof.
  induction evs1 as [|e evs1 IH]; simpl; intros s s1 H.
  - congruence.
  - destruct (step pty s e); [apply IH; exact H|discriminate].
Qed.

Lemma last_size_app (sz : size) (rs1 rs2 : list (Z * Z)) :
  last_size sz (rs1 ++ rs2) = last_size (last_size sz rs1) rs2.
Proof. unfold last_size. apply fold_left_app. Qed.

(** Resize requests that arrive while no backend is attached do nothing
    but overwrite the single [pendingSize] slot, so the last of them is
    what is kept.  The pty spawned by a local
    connect is created with the size kept then; the shell channel of a
    remote connect is requested with the size kept when the connection is
    authenticated, which takes in the resize requests that arrived after
    the connect request. *)
Lemma pending_resize_is_initial_size
  (s : session) (rs1 rs2 : list (Z * Z)) (cr : credentials) :
  ptyProcess s = None → sshStream s = None →
  (isLocal cr = true →
     ∃ s1, run true s (resizes rs1 ++ [SshConnect cr]) = Some s1 ∧
       let sz := last_size (pendingSize s) rs1 in
       trace s1 =
       trace s ++ [EmitStatus Authenticated; PtySpawn (fresh s) (cols sz) (rows sz);
                   EmitStatus Ready]) ∧
  (isLocal cr = false →
     ∀ pty, ∃ s2,
       run pty s (resizes rs1 ++ [SshConnect cr] ++ resizes rs2 ++ [ClientReady])
       = Some s2 ∧
       let sz := last_size (pendingSize s) (rs1 ++ rs2) in
       trace s2 =
       trace s ++ [ClientConnect (fresh s) (host cr) (connect_port cr) (username cr)
                     (connect_auth cr);
                   EmitStatus Authenticated; ClientShell (fresh s) (rows sz) (cols sz)]).
Proof.
  intros Hp Hst. split.
  - intros Hl. eexists. split.
    + rewrite (bridge_run_app true _ _ s _ (run_resizes_detached true rs1 s Hp Hst)).
      reflexivity.
    + cbn zeta. unfold ssh_connect. rewrite Hl. simpl.
      rewrite <- !app_assoc. reflexivity.
  - intros Hl pty. eexists. split.
    + rewrite (bridge_run_app pty _ _ s _ (run_resizes_detached pty rs1 s Hp Hst)).
      change ([SshConnect cr] ++ resizes rs2 ++ [ClientReady])
        with (SshConnect cr :: resizes rs2 ++ [ClientReady]).
      cbn [run step]. unfold ssh_connect. rewrite Hl.
      match goal with |- run pty ?x _ = _ =>
        rewrite (bridge_run_app pty _ _ x _
                   (run_resizes_detached pty rs2 x
                      ltac:(simpl; exact Hp) ltac:(simpl; exact Hst)))
      end.
      reflexivity.
    + cbn zeta. rewrite last_size_app. simpl.
      rewrite <- !app_assoc. reflexivity.
Qed.

(** C9, at the input where the code departs from it.  A resize request
    that arrives after the connect request of a remote session and before
    the connection is authenticated is kept and is the size the shell
    channel is requested with.  A resize request that arrives after the
    shell channel is requested and before it is opened still finds no
    backend: it is written to [pendingSize], and never applied.  The
    callback of [sshClient.shell] attaches the stream without reading
    [pendingSize], so the channel keeps the size of the request although
    the last resize request before the backend was attached asked for
    another.  The local pty, spawned in one step, never loses one. *)
Theorem resize_while_shell_opens_is_lost
  (pty : bool) (s : session) (cr : credentials) (rs : list (Z * Z)) (c r : Z)
  (stream : nat)
  (Hpty : ptyProcess s = None) (Hstream : sshStream s = None)
  (Hremote : isLocal cr = false) :
  let sz := last_size (pendingSize s) rs in
  let connect :=
    ClientConnect (fresh s) (host cr) (connect_port cr) (username cr) (connect_auth cr) in
  (∃ s1,
     run pty s (SshConnect cr :: resizes rs ++
                [SshResize c r; ClientReady; ShellOpened (inr stream)]) = Some s1 ∧
     trace s1 =
     trace s ++ [connect; EmitStatus Authenticated; ClientShell (fresh s) r c;
                 EmitStatus Ready] ∧
     sshStream s1 = Some stream ∧ pendingSize s1 = Size r c) ∧
  (∃ s2,
     run pty s (SshConnect cr :: resizes rs ++
                [ClientReady; SshResize c r; ShellOpened (inr stream)]) = Some s2 ∧
     trace s2 =
     trace s ++ [connect; EmitStatus Authenticated;
                 ClientShell (fresh s) (rows sz) (cols sz); EmitStatus Ready] ∧
     sshStream s2 = Some stream ∧ pendingSize s2 = Size r c).
Proof.
  cbn zeta. split.
  - eexists. split; [|split; [|split]].
    + cbn [run step]. unfold ssh_connect. rewrite Hremote.
      match goal with |- run pty ?x _ = _ =>
        rewrite (bridge_run_app pty _ _ x _
                   (run_resizes_detached pty rs x
                      ltac:(simpl; exact Hpty) ltac:(simpl; exact Hstream)))
      end.
      cbn [run step]. rewrite resize_detached by (simpl; assumption).
      reflexivity.
    + simpl. rewrite <- !app_assoc. reflexivity.
    + reflexivity.
    + reflexivity.
  - eexists. split; [|split; [|split]].
    + cbn [run step]. unfold ssh_connect. rewrite Hremote.
      match goal with |- run pty ?x _ = _ =>
        rewrite (bridge_run_app pty _ _ x _
                   (run_resizes_detached pty rs x
                      ltac:(simpl; exact Hpty) ltac:(simpl; exact Hstream)))
      end.
      cbn [run step]. unfold client_ready. cbn [sshClient perform set_pendingSize
        set_sshClient new_object].
      rewrite resize_detached by (simpl; assumption).
      reflexivity.
    + simpl. rewrite <- !app_assoc. reflexivity.
    + reflexivity.
    + reflexivity.
Qed.

Lemma resize_while_shell_opens_is_lost_witness :
  let sz := last_size (pendingSize connected) [(100, 30)] in
  let connect :=
    ClientConnect (fresh connected) (host remote_host) (connect_port remote_host)
      (username remote_host) (connect_auth remote_host) in
  (∃ s1,
     run true connected (SshConnect remote_host :: resizes [(100, 30)] ++
                [SshResize 120 40; ClientReady; ShellOpened (inr 1%nat)]) = Some s1 ∧
     trace s1 =
     trace connected ++ [connect; EmitStatus Authenticated;
                         ClientShell (fresh connected) 40 120; EmitStatus Ready] ∧
     sshStream s1 = Some 1%nat ∧ pendingSize s1 = Size 40 120) ∧
  (∃ s2,
     run true connected (SshConnect remote_host :: resizes [(100, 30)] ++
                [ClientReady; SshResize 120 40; ShellOpened (inr 1%nat)]) = Some s2 ∧
     trace s2 =
     trace connected ++ [connect; EmitStatus Authenticated;
                         ClientShell (fresh connected) (rows sz) (cols sz);
                         EmitStatus Ready] ∧
     sshStream s2 = Some 1%nat ∧ pendingSize s2 = Size 40 120).
Proof.
  apply (resize_while_shell_opens_is_lost true connected remote_host [(100, 30)] 120 40 1);
    reflexivity.
Defined.

(** The same on the plainest input: the client asks for a remote shell,
    the connection is authenticated and the channel requested at the
    initial 80 columns by 24 rows, a resize to 120 by 40 arrives, the
    channel opens.  Nothing tells the channel of the 120 by 40: no window
    change is sent, though [pendingSize] holds it. *)
Example lost_resize_trace :
  ∃ s',
    run true connected
      [SshConnect remote_host; ClientReady; SshResize 120 40; ShellOpened (inr 1%nat)]
    = Some s' ∧
    trace s' =
    [ClientConnect 0 (js "example.org") (NumberOf (js "22")) (js "juni")
       (WithPassword (js "secret"));
     EmitStatus Authenticated; ClientShell 0 24 80; EmitStatus Ready] ∧
    sshStream s' = Some 1%nat ∧ pendingSize s' = Size 40 120.
Proof. eexists. repeat split; reflexivity. Qed.

End BridgeFacts.

(** ** Capture engine: one capture at a time *)

Section TerminalFacts.

Import Terminal.

Lemma initial_inv (connected : bool) : inv (initial connected).
Proof.
  split.
  - apply Quiet. repeat split.
  - constructor.
  - intros p Hp. inversion Hp.
  - intros p Hp. simpl in Hp. lia.
Qed.

Lemma is_idle_quiet (t : term) : shape t → is_idle t = true → quiet t.
Proof.
  intros Hs Hi. unfold is_idle in Hi.
  destruct Hs as [Hq|c Hc Hk|k Hc Hk]; [assumption| |].
  - rewrite Hc in Hi. discriminate.
  - rewrite Hc, Hk in Hi. discriminate.
Qed.

Lemma resolved_ids_snoc (l : list (nat * str)) (p : nat) (v : str) :
  (l ++ [(p, v)]).*1 = l.*1 ++ [p].
Proof. rewrite fmap_app. reflexivity. Qed.

Lemma NoDup_snoc (l : list nat) (p : nat) : NoDup l → p ∉ l → NoDup (l ++ [p]).
Proof.
  intros Hl Hp. apply NoDup_app. split; [assumption|]. split.
  - intros x Hx Hx'. apply list_elem_of_singleton in Hx'. subst. contradiction.
  - apply NoDup_singleton.
Qed.

(** A call that only resolves a fresh promise (the terminal is not
    connected). *)
Lemma not_connected_inv (t : term) :
  inv t → inv (fresh (call_resolve (next t) not_connected t)).
Proof.
  intros [Hs Ho Hb Ha]. split.
  - destruct Hs as [Hq|c Hc Hk Ht Hl Hn Hlt|k Hc Hk Ht Hl Hob Hn Hlt].
    + apply Quiet. exact Hq.
    + apply (Sentinel _ c); simpl; try assumption.
      * unfold resolved_ids; simpl. rewrite resolved_ids_snoc.
        intros [H|H]%elem_of_app; [contradiction|].
        apply list_elem_of_singleton in H. lia.
      * lia.
    + apply (Sample _ k); simpl; try assumption.
      * unfold resolved_ids; simpl. rewrite resolved_ids_snoc.
        intros [H|H]%elem_of_app; [contradiction|].
        apply list_elem_of_singleton in H. lia.
      * lia.
  - unfold resolved_ids; simpl. rewrite resolved_ids_snoc.
    apply NoDup_snoc; [assumption|]. intros H. apply Hb in H. lia.
  - unfold resolved_ids; simpl. rewrite resolved_ids_snoc.
    intros p [H|H]%elem_of_app.
    + apply Hb in H. lia.
    + apply list_elem_of_singleton in H. lia.
  - simpl. intros p Hp. unfold resolved_ids; simpl. rewrite resolved_ids_snoc.
    destruct (decide (p = next t)) as [->|Hne].
    + left. apply elem_of_app. right. apply list_elem_of_singleton. reflexivity.
    + destruct (Ha p) as [H|H]; [lia| |].
      * left. apply elem_of_app. left. exact H.
      * right. exact H.
Qed.

(** Resolving the only pending promise and going quiet. *)
Lemma settle_inv (t t' : term) (p : nat) (v : str) :
  inv t →
  (∀ q, pending q t → q = p) →
  p ∉ resolved_ids t → (p < next t)%nat →
  quiet t' → resolved t' = resolved t ++ [(p, v)] → next t' = next t →
  inv t'.
Proof.
  intros [Hs Ho Hb Ha] Honly Hn Hlt Hq Hr Hnx.
  assert (Hids : resolved_ids t' = resolved_ids t ++ [p])
    by (unfold resolved_ids; rewrite Hr; apply resolved_ids_snoc).
  split.
  - apply Quiet, Hq.
  - rewrite Hids. apply NoDup_snoc; assumption.
  - rewrite Hids, Hnx. intros q [H|H]%elem_of_app; [auto|].
    apply list_elem_of_singleton in H. subst. assumption.
  - rewrite Hids, Hnx. intros q Hq'. left.
    destruct (Ha q Hq') as [H|H].
    + apply elem_of_app. left. exact H.
    + apply Honly in H. subst. apply elem_of_app. right.
      apply list_elem_of_singleton. reflexivity.
Qed.

(** A step that calls no resolver and keeps what is pending. *)
Lemma keep_inv (t t' : term) :
  inv t → shape t' →
  resolved t' = resolved t → next t' = next t →
  (∀ q, pending q t → pending q t') →
  inv t'.
Proof.
  intros [Hs Ho Hb Ha] Hs' Hr Hnx Hp.
  assert (Hids : resolved_ids t' = resolved_ids t)
    by (unfold resolved_ids; rewrite Hr; reflexivity).
  split; [assumption| | |]; rewrite Hids, ?Hnx; try assumption.
  intros q Hq. destruct (Ha q Hq); auto.
Qed.

Lemma pending_sentinel (t : term) (c : capture) (q : nat) :
  agentCaptureRef t = Some c → agentKeysRef t = None →
  pending q t → q = resolve c.
Proof.
  intros Hc Hk [(c' & Hc' & <- & _)|(k & Hk' & _)]; congruence.
Qed.

Lemma pending_sample (t : term) (k : keys_capture) (q : nat) :
  agentCaptureRef t = None → agentKeysRef t = Some k →
  pending q t → q = k_resolve k.
Proof.
  intros Hc Hk [(c' & Hc' & _)|(k' & Hk' & <- & _)]; congruence.
Qed.

Lemma pending_quiet (t : term) (q : nat) : quiet t → ¬ pending q t.
Proof.
  intros (Hc & Hk & _) [(c' & Hc' & _)|(k' & Hk' & _)]; congruence.
Qed.

Lemma run_listeners_none (data : str) (t : term) :
  listeners t = [] → run_listeners data t = t.
Proof. destruct t; simpl; intros ->; reflexivity. Qed.

Lemma filter_ne_singleton (id : nat) : filter (λ l, l ≠ id) [id] = [].
Proof.
  rewrite filter_cons. destruct (decide (id ≠ id)); [congruence|reflexivity].
Qed.

(** *** Each handler keeps the invariant *)

Lemma runAgentCommand_inv (command : str) (t : term) :
  inv t → quiet t → inv (runAgentCommand command t).
Proof.
  intros Hi Hq. unfold runAgentCommand.
  destruct (socketRef t) eqn:Hso; simpl; [|apply not_connected_inv, Hi].
  destruct Hi as [Hs Ho Hb Ha]. destruct Hq as (Hc & Hk & Ht & Hl).
  split.
  - apply (Sentinel _ (Capture [] (next t) (next t))); simpl; try assumption.
    + reflexivity.
    + rewrite Ht. apply insert_empty.
    + intros H. apply Hb in H. lia.
    + lia.
  - exact Ho.
  - intros p Hp. apply Hb in Hp. simpl. lia.
  - simpl. intros p Hp. destruct (decide (p = next t)) as [->|Hne].
    + right. left. exists (Capture [] (next t) (next t)). simpl.
      repeat split. apply lookup_insert_eq.
    + destruct (Ha p) as [H|H]; [lia|left; exact H|].
      exfalso. eapply pending_quiet; [|exact H]. repeat split; assumption.
Qed.

Lemma sendAgentKeys_inv (keys : str) (t : term) :
  inv t → quiet t → inv (sendAgentKeys keys t).
Proof.
  intros Hi Hq. unfold sendAgentKeys.
  destruct (socketRef t) eqn:Hso; simpl; [|apply not_connected_inv, Hi].
  destruct Hi as [Hs Ho Hb Ha]. destruct Hq as (Hc & Hk & Ht & Hl).
  split.
  - apply (Sample _ (KeysCapture (next t) (next t) (next t))); simpl;
      try assumption.
    + reflexivity.
    + rewrite Ht. apply insert_empty.
    + rewrite Hl. reflexivity.
    + rewrite lookup_insert_eq. eauto.
    + intros H. apply Hb in H. lia.
    + lia.
  - exact Ho.
  - intros p Hp. apply Hb in Hp. simpl. lia.
  - simpl. intros p Hp. destruct (decide (p = next t)) as [->|Hne].
    + right. right. exists (KeysCapture (next t) (next t) (next t)). simpl.
      repeat split. apply lookup_insert_eq.
    + destruct (Ha p) as [H|H]; [lia|left; exact H|].
      exfalso. eapply pending_quiet; [|exact H]. repeat split; assumption.
Qed.

(** What an abort does in each shape. *)
Lemma abort_quiet (t : term) : quiet t → abortAgentCapture t = t.
Proof.
  intros (Hc & Hk & _). unfold abortAgentCapture. rewrite Hc, Hk. reflexivity.
Qed.

Lemma abort_sentinel (t : term) (c : capture) :
  agentCaptureRef t = Some c → agentKeysRef t = None →
  abortAgentCapture t =
  call_resolve (resolve c) (or_else (trim (stripAnsi (buffer c))) aborted_by_user)
    (with_capture None (clearTimeout (timer c) t)).
Proof.
  intros Hc Hk. unfold abortAgentCapture. rewrite Hc. simpl. rewrite Hk.
  reflexivity.
Qed.

Lemma abort_sample (t : term) (k : keys_capture) :
  agentCaptureRef t = None → agentKeysRef t = Some k →
  abortAgentCapture t =
  call_resolve (k_resolve k) aborted_by_user
    (with_keys None (cleanup (k_cleanup k) (clearTimeout (k_timer k) t))).
Proof.
  intros Hc Hk. unfold abortAgentCapture. rewrite Hc, Hk. reflexivity.
Qed.

Lemma abortAgentCapture_inv (t : term) : inv t → inv (abortAgentCapture t).
Proof.
  intros Hi.
  destruct (inv_shape _ Hi) as [Hq|c Hc Hk Ht Hl Hn Hlt|k Hc Hk Ht Hl Hob Hn Hlt].
  - rewrite abort_quiet; assumption.
  - rewrite (abort_sentinel t c) by assumption.
    eapply (settle_inv t _ (resolve c)); try eassumption; try reflexivity.
    + intros q. apply pending_sentinel; assumption.
    + repeat split; simpl; try assumption.
      rewrite Ht. apply delete_singleton_eq.
  - rewrite (abort_sample t k) by assumption.
    eapply (settle_inv t _ (k_resolve k)); try eassumption; try reflexivity.
    + intros q. apply pending_sample; assumption.
    + repeat split; simpl; try assumption.
      * rewrite Ht. apply delete_singleton_eq.
      * rewrite Hl. apply filter_ne_singleton.
Qed.

(** What arriving output does to a pending sentinel capture. *)
Lemma on_output_match (t : term) (c : capture) (data : str) (index : nat) :
  agentCaptureRef t = Some c →
  exec sentinelPattern (stripAnsi (buffer c ++ data)) = Some index →
  on_output data t =
  call_resolve (resolve c) (output_before index (stripAnsi (buffer c ++ data)))
    (with_capture None (clearTimeout (timer c) t)).
Proof.
  intros Hc He. unfold on_output, on_output_for. rewrite Hc.
  fold sentinelPattern. rewrite He. reflexivity.
Qed.

Lemma on_output_no_match (t : term) (c : capture) (data : str) :
  agentCaptureRef t = Some c →
  exec sentinelPattern (stripAnsi (buffer c ++ data)) = None →
  on_output data t =
  with_capture (Some (Capture (buffer c ++ data) (resolve c) (timer c))) t.
Proof.
  intros Hc He. unfold on_output, on_output_for. rewrite Hc.
  fold sentinelPattern. rewrite He. reflexivity.
Qed.

Lemma on_output_no_capture (t : term) (data : str) :
  agentCaptureRef t = None → on_output data t = t.
Proof.
  intros Hc. unfold on_output, on_output_for. rewrite Hc. reflexivity.
Qed.

Lemma ssh_output_inv (data : str) (t : term) : inv t → inv (ssh_output data t).
Proof.
  intros Hi. unfold ssh_output.
  destruct (inv_shape _ Hi) as [Hq|c Hc Hk Ht Hl Hn Hlt|k Hc Hk Ht Hl Hob Hn Hlt].
  - destruct Hq as (Hc & Hk & Ht & Hl).
    rewrite on_output_no_capture by assumption.
    rewrite run_listeners_none by assumption. exact Hi.
  - destruct (exec sentinelPattern (stripAnsi (buffer c ++ data)))
      as [index|] eqn:He.
    + rewrite (on_output_match t c data index) by assumption.
      rewrite run_listeners_none by (simpl; assumption).
      eapply (settle_inv t _ (resolve c)); try eassumption; try reflexivity.
      * intros q. apply pending_sentinel; assumption.
      * repeat split; simpl; try assumption.
        rewrite Ht. apply delete_singleton_eq.
    + rewrite (on_output_no_match t c data) by assumption.
      rewrite run_listeners_none by (simpl; assumption).
      apply (keep_inv t); try reflexivity; [exact Hi| |].
      * apply (Sentinel _ (Capture (buffer c ++ data) (resolve c) (timer c)));
          simpl; try assumption. reflexivity.
      * intros q Hq. pose proof (pending_sentinel t c q Hc Hk Hq) as ->.
        left. eexists. simpl. split; [reflexivity|]. split; [reflexivity|].
        rewrite Ht. apply lookup_singleton_eq.
  - rewrite on_output_no_capture by assumption.
    apply (keep_inv t); try (destruct t; reflexivity); [exact Hi| |].
    + apply (Sample _ k); try (destruct t; simpl in *; assumption).
      destruct t; simpl in *. subst. simpl.
      rewrite lookup_alter_eq. destruct Hob as [b ->]. simpl. eauto.
    + intros q Hq. pose proof (pending_sample t k q Hc Hk Hq) as ->.
      right. exists k. destruct t; simpl in *. repeat split; try assumption.
      subst. apply lookup_singleton_eq.
Qed.

(** What an expiring timer does in each shape. *)
Lemma timer_fire_stale (id : nat) (t : term) :
  timers t !! id = None → timer_fire id t = t.
Proof. intros H. unfold timer_fire. rewrite H. reflexivity. Qed.

Lemma timer_fire_sentinel (t : term) (c : capture) (ms : N) (r : nat) :
  agentCaptureRef t = Some c →
  timers t !! timer c = Some (ms, SentinelTimeout r) →
  timer_fire (timer c) t =
  call_resolve r (or_else (trim (stripAnsi (buffer c))) command_timed_out)
    (with_capture None (clearTimeout (timer c) t)).
Proof.
  intros Hc Ht. unfold timer_fire. rewrite Ht. simpl. rewrite Hc. reflexivity.
Qed.

Lemma timer_fire_sample (t : term) (k : keys_capture) (ms : N) (r cl : nat) :
  timers t !! k_timer k = Some (ms, SampleTimeout r cl) →
  timer_fire (k_timer k) t =
  call_resolve r
    (or_else (trim (stripAnsi (default [] (outputBuffer t !! cl)))) no_visible_output)
    (with_keys None (cleanup cl (clearTimeout (k_timer k) t))).
Proof.
  intros Ht. unfold timer_fire. rewrite Ht. reflexivity.
Qed.

Lemma timer_fire_inv (id : nat) (t : term) : inv t → inv (timer_fire id t).
Proof.
  intros Hi.
  destruct (inv_shape _ Hi) as [Hq|c Hc Hk Ht Hl Hn Hlt|k Hc Hk Ht Hl Hob Hn Hlt].
  - destruct Hq as (Hc & Hk & Ht & Hl).
    rewrite timer_fire_stale; [exact Hi|]. rewrite Ht. apply lookup_empty.
  - destruct (decide (id = timer c)) as [->|Hne].
    + rewrite (timer_fire_sentinel t c 60000 (resolve c)); try assumption.
      2: { rewrite Ht. apply lookup_singleton_eq. }
      eapply (settle_inv t _ (resolve c)); try eassumption; try reflexivity.
      * intros q. apply pending_sentinel; assumption.
      * repeat split; simpl; try assumption.
        rewrite Ht. apply delete_singleton_eq.
    + rewrite timer_fire_stale; [exact Hi|]. rewrite Ht.
      apply lookup_singleton_ne. congruence.
  - destruct (decide (id = k_timer k)) as [->|Hne].
    + rewrite (timer_fire_sample t k 3000 (k_resolve k) (k_cleanup k)).
      2: { rewrite Ht. apply lookup_singleton_eq. }
      eapply (settle_inv t _ (k_resolve k)); try eassumption; try reflexivity.
      * intros q. apply pending_sample; assumption.
      * repeat split; simpl; try assumption.
        -- rewrite Ht. apply delete_singleton_eq.
        -- rewrite Hl. apply filter_ne_singleton.
    + rewrite timer_fire_stale; [exact Hi|]. rewrite Ht.
      apply lookup_singleton_ne. congruence.
Qed.

Lemma terminal_step_inv (t : term) (e : event) :
  inv t → allowed t e = true → inv (step t e).
Proof.
  intros Hi Hal. destruct e; simpl in *.
  - apply runAgentCommand_inv; [assumption|].
    apply is_idle_quiet; [apply Hi|assumption].
  - apply sendAgentKeys_inv; [assumption|].
    apply is_idle_quiet; [apply Hi|assumption].
  - apply abortAgentCapture_inv, Hi.
  - apply ssh_output_inv, Hi.
  - apply timer_fire_inv, Hi.
Qed.

Lemma terminal_run_inv (evs : list event) :
  ∀ t, inv t → one_at_a_time t evs = true → inv (run t evs).
Proof.
  induction evs as [|e evs IH]; intros t Hi Hok; simpl in *; [assumption|].
  apply andb_true_iff in Hok as [Hal Hok].
  apply IH; [apply terminal_step_inv; assumption|assumption].
Qed.

Lemma quiet_silent (t : term) (e : event) :
  quiet t → is_request e = false → step t e = t.
Proof.
  intros Hq He. destruct e; try discriminate; simpl.
  - apply abort_quiet, Hq.
  - destruct Hq as (Hc & Hk & Ht & Hl). unfold ssh_output.
    rewrite on_output_no_capture by assumption.
    apply run_listeners_none, Hl.
  - destruct Hq as (Hc & Hk & Ht & Hl).
    apply timer_fire_stale. rewrite Ht. apply lookup_empty.
Qed.

Lemma settles_intro (p : nat) (v : str) (t t' : term) :
  quiet t' → resolved t' = resolved t ++ [(p, v)] → settles p t t'.
Proof.
  intros Hq Hr. split; [assumption|]. split; [eauto|].
  intros e He. apply quiet_silent; assumption.
Qed.

Lemma sentinel_shape (t : term) (c : capture) :
  inv t → agentCaptureRef t = Some c →
  agentKeysRef t = None ∧
  timers t = {[ timer c := (60000, SentinelTimeout (resolve c)) ]} ∧
  listeners t = [].
Proof.
  intros Hi Hc.
  destruct (inv_shape _ Hi) as [Hq|c' Hc' Hk Ht Hl Hn Hlt|k Hc' Hk Ht Hl Hob Hn Hlt].
  - destruct Hq as (Hc' & _). congruence.
  - assert (c' = c) by congruence. subst. auto.
  - congruence.
Qed.

Lemma sample_shape (t : term) (k : keys_capture) :
  inv t → agentKeysRef t = Some k →
  agentCaptureRef t = None ∧
  timers t = {[ k_timer k := (3000, SampleTimeout (k_resolve k) (k_cleanup k)) ]} ∧
  listeners t = [k_cleanup k].
Proof.
  intros Hi Hk.
  destruct (inv_shape _ Hi) as [Hq|c' Hc' Hk' Ht Hl Hn Hlt|k' Hc' Hk' Ht Hl Hob Hn Hlt].
  - destruct Hq as (_ & Hk' & _). congruence.
  - congruence.
  - assert (k' = k) by congruence. subst. auto.
Qed.

Lemma abort_sentinel_quiet (t : term) (c : capture) :
  inv t → agentCaptureRef t = Some c →
  quiet (abortAgentCapture t) ∧
  resolved (abortAgentCapture t) =
  resolved t ++ [(resolve c, or_else (trim (stripAnsi (buffer c))) aborted_by_user)].
Proof.
  intros Hi Hc. destruct (sentinel_shape t c Hi Hc) as (Hk & Ht & Hl).
  rewrite (abort_sentinel t c) by assumption. split; [|reflexivity].
  repeat split; simpl; try assumption. rewrite Ht. apply delete_singleton_eq.
Qed.

Lemma abort_sample_quiet (t : term) (k : keys_capture) :
  inv t → agentKeysRef t = Some k →
  quiet (abortAgentCapture t) ∧
  resolved (abortAgentCapture t) = resolved t ++ [(k_resolve k, aborted_by_user)].
Proof.
  intros Hi Hk. destruct (sample_shape t k Hi Hk) as (Hc & Ht & Hl).
  rewrite (abort_sample t k) by assumption. split; [|reflexivity].
  repeat split; simpl; try assumption.
  - rewrite Ht. apply delete_singleton_eq.
  - rewrite Hl. apply filter_ne_singleton.
Qed.

Lemma timeout_sentinel_quiet (t : term) (c : capture) :
  inv t → agentCaptureRef t = Some c →
  timers t !! timer c = Some (60000, SentinelTimeout (resolve c)) ∧
  quiet (timer_fire (timer c) t) ∧
  resolved (timer_fire (timer c) t) =
  resolved t ++ [(resolve c, or_else (trim (stripAnsi (buffer c))) command_timed_out)].
Proof.
  intros Hi Hc. destruct (sentinel_shape t c Hi Hc) as (Hk & Ht & Hl).
  assert (Hlk : timers t !! timer c = Some (60000, SentinelTimeout (resolve c)))
    by (rewrite Ht; apply lookup_singleton_eq).
  split; [exact Hlk|].
  rewrite (timer_fire_sentinel t c _ _ Hc Hlk). split; [|reflexivity].
  repeat split; simpl; try assumption. rewrite Ht. apply delete_singleton_eq.
Qed.

Lemma timeout_sample_quiet (t : term) (k : keys_capture) :
  inv t → agentKeysRef t = Some k →
  quiet (timer_fire (k_timer k) t) ∧
  resolved (timer_fire (k_timer k) t) =
  resolved t ++
  [(k_resolve k,
    or_else (trim (stripAnsi (default [] (outputBuffer t !! k_cleanup k))))
            no_visible_output)].
Proof.
  intros Hi Hk. destruct (sample_shape t k Hi Hk) as (Hc & Ht & Hl).
  assert (Hlk : timers t !! k_timer k =
                Some (3000, SampleTimeout (k_resolve k) (k_cleanup k)))
    by (rewrite Ht; apply lookup_singleton_eq).
  rewrite (timer_fire_sample t k _ _ _ Hlk). split; [|reflexivity].
  repeat split; simpl; try assumption.
  - rewrite Ht. apply delete_singleton_eq.
  - rewrite Hl. apply filter_ne_singleton.
Qed.

Lemma match_sentinel_quiet (t : term) (c : capture) (data : str) (index : nat) :
  inv t → agentCaptureRef t = Some c →
  exec sentinelPattern (stripAnsi (buffer c ++ data)) = Some index →
  quiet (ssh_output data t) ∧
  resolved (ssh_output data t) =
  resolved t ++ [(resolve c, output_before index (stripAnsi (buffer c ++ data)))].
Proof.
  intros Hi Hc He. destruct (sentinel_shape t c Hi Hc) as (Hk & Ht & Hl).
  unfold ssh_output. rewrite (on_output_match t c data index) by assumption.
  rewrite run_listeners_none by (simpl; assumption). split; [|reflexivity].
  repeat split; simpl; try assumption. rewrite Ht. apply delete_singleton_eq.
Qed.

(** C2: when captures are requested one at a time, no resolver is ever
    called twice, and every request made so far is either resolved or is
    the pending one with its timer armed.  For a pending sentinel capture
    each of the three paths (abort, deadline, marker match), and for a
    pending sample capture each of the two (abort, deadline), calls the
    resolver once, clears the pending slot and leaves no timer, so that no
    later event resolves anything until the next request. *)
Theorem capture_resolves_exactly_once (connected : bool) (evs : list event)
  (Hone : one_at_a_time (initial connected) evs = true) :
  exactly_once (run (initial connected) evs).
Proof.
  set (t := run (initial connected) evs).
  assert (Hi : inv t) by (apply terminal_run_inv; [apply initial_inv|exact Hone]).
  split; [apply Hi|]. split; [apply Hi|]. split.
  - intros c Hc. simpl. split; [|split].
    + destruct (abort_sentinel_quiet t c Hi Hc) as (Hq & Hr).
      eapply settles_intro; eassumption.
    + destruct (timeout_sentinel_quiet t c Hi Hc) as (_ & Hq & Hr).
      eapply settles_intro; eassumption.
    + intros data index He.
      destruct (match_sentinel_quiet t c data index Hi Hc He) as (Hq & Hr).
      eapply settles_intro; eassumption.
  - intros k Hk. simpl. split.
    + destruct (abort_sample_quiet t k Hi Hk) as (Hq & Hr).
      eapply settles_intro; eassumption.
    + destruct (timeout_sample_quiet t k Hi Hk) as (Hq & Hr).
      eapply settles_intro; eassumption.
Qed.

Lemma capture_resolves_exactly_once_witness :
  one_at_a_time (initial true) command_session = true ∧
  exactly_once (run (initial true) command_session).
Proof.
  split; [vm_compute; reflexivity|].
  apply (capture_resolves_exactly_once true command_session).
  vm_compute; reflexivity.
Defined.

Lemma is_idle_of_quiet (t : term) : quiet t → is_idle t = true.
Proof. intros (Hc & Hk & _). unfold is_idle. rewrite Hc, Hk. reflexivity. Qed.

(** C4, as the code has it: an abort resolves a pending sentinel capture
    with its scrubbed and trimmed buffer, the placeholder "(aborted by
    user)" standing in when that is empty, and resolves a pending sample
    capture with the placeholder whatever output it had gathered; either
    way the timer is cancelled, the pending slot and the listener are
    cleared, and the next capture may be requested. *)
Theorem abort_resolves_pending_capture (connected : bool) (evs : list event)
  (Hone : one_at_a_time (initial connected) evs = true) :
  abort_outcome (run (initial connected) evs).
Proof.
  set (t := run (initial connected) evs).
  assert (Hi : inv t) by (apply terminal_run_inv; [apply initial_inv|exact Hone]).
  assert (Hq : quiet (abortAgentCapture t)).
  { destruct (inv_shape _ Hi) as [Hq|c Hc Hk Ht Hl Hn Hlt|k Hc Hk Ht Hl Hob Hn Hlt].
    - rewrite abort_quiet; assumption.
    - apply (abort_sentinel_quiet t c Hi Hc).
    - apply (abort_sample_quiet t k Hi Hk). }
  unfold abort_outcome. simpl. split; [|split; [|split]].
  - intros c Hc. apply (abort_sentinel_quiet t c Hi Hc).
  - intros k Hk. apply (abort_sample_quiet t k Hi Hk).
  - exact Hq.
  - intros e. unfold allowed. rewrite (is_idle_of_quiet _ Hq).
    destruct (is_request e); reflexivity.
Qed.

Lemma abort_resolves_pending_capture_witness :
  one_at_a_time (initial true) keys_session = true ∧
  abort_outcome (run (initial true) keys_session).
Proof.
  split; [vm_compute; reflexivity|].
  apply (abort_resolves_pending_capture true keys_session).
  vm_compute; reflexivity.
Defined.

(** C4 as stated fails for a sample capture: after the keys "y Enter" were
    sent and the output "Proceed? done" was gathered, an abort resolves
    with the placeholder, not with the gathered output. *)
Lemma abort_discards_sampled_output :
  ¬ abort_returns_accumulated (run (initial true) keys_session).
Proof.
  intros H.
  specialize (H (KeysCapture 0 0 0) (js "Proceed? done")).
  assert (H1 : agentKeysRef (run (initial true) keys_session)
               = Some (KeysCapture 0 0 0)) by (vm_compute; reflexivity).
  assert (H2 : outputBuffer (run (initial true) keys_session) !! 0%nat
               = Some (js "Proceed? done")) by (vm_compute; reflexivity).
  specialize (H H1 H2). vm_compute in H. discriminate H.
Qed.

(** The deadline of a pending sentinel capture is the timer of 60000 ms
    set by its request; when it expires the capture is resolved with the
    scrubbed, trimmed buffer, the timeout text standing in only for an
    empty one. *)
Lemma deadline_resolves_pending_command (connected : bool) (evs : list event) (c : capture) :
  one_at_a_time (initial connected) evs = true →
  agentCaptureRef (run (initial connected) evs) = Some c →
  let t := run (initial connected) evs in
  timers t !! timer c = Some (60000, SentinelTimeout (resolve c)) ∧
  quiet (timer_fire (timer c) t) ∧
  resolved (timer_fire (timer c) t) =
  resolved t ++ [(resolve c, or_else (trim (stripAnsi (buffer c))) command_timed_out)].
Proof.
  intros Hone Hc t. apply timeout_sentinel_quiet; [|exact Hc].
  apply terminal_run_inv; [apply initial_inv|exact Hone].
Qed.

(** C1, at the input where the code departs from it: the command [read x]
    echoes its line and then waits.  When the 60 s timer expires the capture
    is resolved with the scrubbed buffer alone, which carries no mark of
    the timeout; the agent loop gives that output the status [done], leaves
    its stop latch unset and calls the model again.  Only an empty buffer
    is resolved with the text that the loop recognises as a timeout. *)
Theorem timeout_with_output_not_annotated :
  resolved (run (initial true) stuck_session)
  = [(0%nat, js "read x; echo __JUNI_AGENT_DONE__")] ∧
  Agent.command_status (js "read x; echo __JUNI_AGENT_DONE__") = Agent.Done ∧
  (let s := Agent.run true true true (λ x, x)
              (Agent.startAgentLoop (js "ask for x") Agent.initial)
              [ Agent.ModelReply [Agent.run_command_call (js "read x")];
                Agent.CaptureResolved (js "read x; echo __JUNI_AGENT_DONE__") ] in
   Agent.status <$> Agent.agentSteps s = [Agent.Done] ∧
   Agent.abortAgentRef s = false ∧ Agent.pc s = Agent.AwaitModel) ∧
  resolved (run (initial true) silent_session) = [(0%nat, command_timed_out)] ∧
  Agent.command_status command_timed_out = Agent.Timeout.
Proof. repeat split; vm_compute; reflexivity. Qed.

(** *** Extraction of a command's output *)

Lemma indexOf_first (c : N) (echo rest : str) :
  indexOf c echo = None → indexOf c (echo ++ c :: rest) = Some (length echo).
Proof.
  induction echo as [|x echo IH]; simpl; intros H.
  - rewrite N.eqb_refl. reflexivity.
  - destruct (x =? c); [discriminate|].
    destruct (indexOf c echo); [discriminate|].
    rewrite IH by reflexivity. reflexivity.
Qed.

Lemma output_before_body (echo body rest : str) :
  indexOf LF echo = None →
  output_before (length (echo ++ LF :: body)) ((echo ++ LF :: body) ++ rest)
  = trim body.
Proof.
  intros H. unfold output_before, substring_to, substring_from.
  rewrite take_app_length. rewrite indexOf_first by assumption.
  rewrite drop_app_add. reflexivity.
Qed.

(** C3: the buffer [ls\nfile1\nfile2\n__DONE__\n] with the marker
    [__DONE__] yields [file1\nfile2], and so does the same output closed
    by the marker the component uses, both for the extraction alone and
    for a capture of the command [ls] that receives it.  In general, when
    the leftmost marker that follows a line break comes after a first line
    [echo] and a text [body], the result is [body] trimmed. *)
Theorem sentinel_extraction_example :
  extract_for (js "__DONE__") (ls_output (js "__DONE__"))
  = Some (js "file1" ++ LF :: js "file2") ∧
  extract (ls_output AGENT_SENTINEL) = Some (js "file1" ++ LF :: js "file2") ∧
  resolved (run (initial true)
              [RunAgentCommand (js "ls"); SshOutput (ls_output AGENT_SENTINEL)])
  = [(0%nat, js "file1" ++ LF :: js "file2")] ∧
  ∀ marker buffer echo body rest,
    stripAnsi buffer = (echo ++ LF :: body) ++ LF :: marker ++ rest →
    indexOf LF echo = None →
    exec (sentinelPattern_for marker) (stripAnsi buffer)
    = Some (length (echo ++ LF :: body)) →
    extract_for marker buffer = Some (trim body).
Proof.
  split; [vm_compute; reflexivity|].
  split; [vm_compute; reflexivity|].
  split; [vm_compute; reflexivity|].
  intros marker buffer echo body rest Hs Hecho Hex.
  unfold extract_for. rewrite Hex. simpl. rewrite Hs.
  rewrite output_before_body by assumption. reflexivity.
Qed.

Lemma sentinel_extraction_example_witness :
  extract_for (js "__DONE__") (ls_output (js "__DONE__"))
  = Some (trim (js "file1" ++ LF :: js "file2")).
Proof.
  apply (proj2 (proj2 (proj2 sentinel_extraction_example))
           (js "__DONE__") (ls_output (js "__DONE__"))
           (js "ls") (js "file1" ++ LF :: js "file2") [LF]);
    vm_compute; reflexivity.
Defined.

(** *** Key translation *)

Lemma fold_append_token (tokens : list str) :
  ∀ payload,
    fold_left append_token tokens payload
    = payload ++ concat (map token_text tokens).
Proof.
  induction tokens as [|tok tokens IH]; intros payload; simpl.
  - rewrite app_nil_r. reflexivity.
  - rewrite IH. unfold append_token. rewrite <- app_assoc. reflexivity.
Qed.

Lemma translate_keys_concat (keys : str) :
  translate_keys keys = concat (map token_text (split_ws keys)).
Proof. unfold translate_keys. apply fold_append_token. Qed.

Lemma token_text_plain (token : str) :
  plain token → token_text token = spec_token_text token.
Proof.
  unfold plain, token_text, spec_token_text, KEY_MAP_get.
  destruct (own KEY_MAP token); [reflexivity|]. intros ->. reflexivity.
Qed.

(** Away from the names every object inherits, the code translates as the
    specification says. *)
Lemma translate_keys_plain (keys : str) :
  Forall plain (split_ws keys) → translate_keys keys = spec_translate_keys keys.
Proof.
  intros H. rewrite translate_keys_concat. unfold spec_translate_keys.
  f_equal. induction H as [|tok toks Htok _ IH]; simpl; [reflexivity|].
  rewrite token_text_plain by assumption. rewrite IH. reflexivity.
Qed.

(** C8: ["y Enter"] becomes [y] followed at once by a carriage return, as
    the table and the plain concatenation of the translated tokens give
    it.  The token [constructor] is in no table of key names and should go
    through as it is; the code finds [Object.prototype.constructor] under
    that name and sends the text of that function instead. *)
Theorem translate_keys_inherited_name :
  translate_keys (js "y Enter") = js "y" ++ [CR] ∧
  spec_translate_keys (js "y Enter") = js "y" ++ [CR] ∧
  (∀ keys, translate_keys keys = concat (map token_text (split_ws keys))) ∧
  own KEY_MAP (js "constructor") = None ∧
  spec_translate_keys (js "constructor") = js "constructor" ∧
  translate_keys (js "constructor") = js "function Object() { [native code] }".
Proof.
  split; [vm_compute; reflexivity|].
  split; [vm_compute; reflexivity|].
  split; [apply translate_keys_concat|].
  repeat split; vm_compute; reflexivity.
Qed.

Lemma split_go_no_space (s : str) :
  ∀ cur in_ws, no_space cur → Forall no_space (split_go cur in_ws s).
Proof.
  induction s as [|c s IH]; intros cur in_ws Hcur; simpl.
  - apply Forall_singleton. apply Forall_rev, Hcur.
  - destruct (is_space c) eqn:Hc.
    + destruct in_ws.
      * apply IH. constructor.
      * constructor; [apply Forall_rev, Hcur|]. apply IH. constructor.
    + apply IH. constructor; assumption.
Qed.

Lemma split_go_concat (s : str) :
  ∀ cur in_ws,
    (in_ws = true → cur = []) →
    concat (split_go cur in_ws s) = rev cur ++ strip_spaces s.
Proof.
  induction s as [|c s IH]; intros cur in_ws Hws; simpl.
  - reflexivity.
  - destruct (is_space c) eqn:Hc; simpl.
    + destruct in_ws; simpl.
      * rewrite (Hws eq_refl). apply IH. reflexivity.
      * rewrite IH by reflexivity. reflexivity.
    + rewrite IH by discriminate. simpl. rewrite <- app_assoc. reflexivity.
Qed.

Lemma eqb_str_eq (a b : str) : eqb_str a b = true → a = b.
Proof.
  revert b. induction a as [|x a IH]; intros [|y b]; simpl; try discriminate.
  - reflexivity.
  - intros [Hxy Hab]%andb_true_iff. apply N.eqb_eq in Hxy. subst.
    rewrite (IH b Hab). reflexivity.
Qed.

Lemma own_elem (o : list (str * str)) (name v : str) :
  own o name = Some v → (name, v) ∈ o.
Proof.
  induction o as [|[k w] o IH]; simpl; [discriminate|].
  destruct (eqb_str k name) eqn:Hk.
  - intros [= ->]. apply eqb_str_eq in Hk. subst. apply list_elem_of_here.
  - intros H. apply list_elem_of_further, IH, H.
Qed.

(** [Space] is the only key name whose text holds a space. *)
Lemma KEY_MAP_space (name v : str) :
  (name, v) ∈ KEY_MAP → 32 ∈ v → name = js "Space".
Proof.
  intros H Hv. unfold KEY_MAP in H.
  repeat (apply elem_of_cons in H as [H|H];
          [injection H as -> ->;
           first [reflexivity
                 | exfalso;
                   repeat (apply elem_of_cons in Hv as [Hv|Hv]; [discriminate Hv|]);
                   inversion Hv]|]).
  inversion H.
Qed.

Lemma no_space_32 (w : str) : no_space w → 32 ∉ w.
Proof.
  intros Hw H. unfold no_space in Hw. rewrite Forall_forall in Hw.
  specialize (Hw _ H). discriminate Hw.
Qed.

(** Away from the names every object inherits, a space reaches the
    terminal only through the key name [Space]. *)
Lemma space_only_by_name (keys : str) :
  Forall plain (split_ws keys) →
  32 ∈ translate_keys keys → js "Space" ∈ split_ws keys.
Proof.
  intros Hplain. rewrite translate_keys_concat.
  pose proof (split_go_no_space keys [] false (Forall_nil_2 _)) as Hns.
  fold (split_ws keys) in Hns.
  induction (split_ws keys) as [|tok toks IH]; simpl; intros H.
  - inversion H.
  - apply Forall_cons in Hplain as [Hp Hplain].
    apply Forall_cons in Hns as [Hn Hns].
    apply elem_of_app in H as [H|H].
    + rewrite token_text_plain in H by assumption.
      unfold spec_token_text in H.
      destruct (own KEY_MAP tok) as [v|] eqn:Hown.
      * apply own_elem in Hown. rewrite (KEY_MAP_space tok v Hown H).
        apply list_elem_of_here.
      * exfalso. apply (no_space_32 tok Hn H).
    + apply list_elem_of_further. apply IH; assumption.
Qed.

(** C10: the tokens are the pieces of [keys] between its runs of white
    space, they hold no white space themselves, and joined together they
    are [keys] with every white space code unit taken out, so ["echo hi"]
    is sent as [echohi] and the key name [Space] sends a space.  That a
    space is sent by that name only fails at the token [constructor]: the
    text of the inherited function, which holds spaces, is sent although
    no token is [Space]. *)
Theorem whitespace_only_separates :
  (∀ keys, Forall no_space (split_ws keys)) ∧
  (∀ keys, concat (split_ws keys) = strip_spaces keys) ∧
  translate_keys (js "echo hi") = js "echohi" ∧
  translate_keys (js "Space") = js " " ∧
  split_ws (js "constructor") = [js "constructor"] ∧
  translate_keys (js "constructor") = js "function Object() { [native code] }".
Proof.
  split; [intros keys; apply split_go_no_space; constructor|].
  split; [intros keys; apply (split_go_concat keys [] false); discriminate|].
  repeat split; vm_compute; reflexivity.
Qed.

End TerminalFacts.

(** ** Agent loop *)

Section AgentFacts.

Import Agent.

Variable onRunAgentCommand onSendAgentKeys onAbortAgentCapture : bool.
Variable renderForTerminal : str → str.

Lemma map_last_length (f : step_record → step_record) (l : list step_record) :
  length (map_last f l) = length l.
Proof.
  induction l as [|a [|b l] IH]; simpl in *; [reflexivity|reflexivity|].
  rewrite IH. reflexivity.
Qed.

Lemma map_last_no_terminal (output : str) (st : step_status) (l : list step_record) :
  no_terminal_step l → no_terminal_step (map_last (with_output output st) l).
Proof.
  unfold no_terminal_step.
  induction l as [|a [|b l] IH]; simpl in *; intros H.
  - constructor.
  - inversion H as [|? ? Ha _]; subst. constructor; [exact Ha|constructor].
  - inversion H as [|? ? Ha Hl]; subst. constructor; [exact Ha|]. apply IH, Hl.
Qed.

Lemma no_terminal_snoc (l : list step_record) (r : step_record) :
  no_terminal_step l → terminal_step r = false → no_terminal_step (l ++ [r]).
Proof.
  intros Hl Hr. apply Forall_app. split; [exact Hl|].
  apply Forall_singleton, Hr.
Qed.

(** Leaving the loop by [break] or by an exception: the loop variable is
    below the cap. *)
Lemma finally_break (s0 s : agent) :
  (i s < maxIterations)%nat → run_inv s0 (finally s).
Proof.
  intros Hi. split; simpl.
  - lia.
  - split; discriminate.
  - discriminate.
  - intros H. contradiction.
  - intros _. split; [reflexivity|]. intros H. lia.
Qed.

(** Leaving the loop because its test fails. *)
Lemma finally_cap (s0 s : agent) :
  at_top s0 s → i s = maxIterations → run_inv s0 (finally s).
Proof.
  intros [Hi Hr Hrun Hst Hlen Htx] Hcap. split; simpl.
  - lia.
  - split; discriminate.
  - discriminate.
  - intros H. contradiction.
  - intros _. split; [reflexivity|]. intros _.
    split; [exact Hst|]. split; [congruence|exact Htx].
Qed.

Lemma call_model_inv (s0 s : agent) :
  at_top s0 s → (i s < maxIterations)%nat → run_inv s0 (call_model s).
Proof.
  intros [Hi Hr Hrun Hst Hlen Htx] Hlt. split; simpl.
  - lia.
  - split; [intros H; contradiction|discriminate].
  - discriminate.
  - intros _. unfold steps_so_far. simpl. auto.
  - discriminate.
Qed.

Lemma loop_top_inv (s0 s : agent) : at_top s0 s → run_inv s0 (loop_top s).
Proof.
  intros Htop. unfold loop_top.
  destruct (i s <? maxIterations)%nat eqn:Hlt.
  - apply Nat.ltb_lt in Hlt.
    destruct (abortAgentRef s) eqn:Hab.
    + apply finally_break. simpl. exact Hlt.
    + destruct (pausedResolverRef s) eqn:Hp.
      * apply call_model_inv; assumption.
      * destruct Htop as [Hi Hr Hrun Hst Hlen Htx]. split; simpl.
        -- lia.
        -- split; reflexivity.
        -- reflexivity.
        -- intros _. unfold steps_so_far. simpl. auto.
        -- discriminate.
      * apply call_model_inv; assumption.
  - apply Nat.ltb_ge in Hlt. apply finally_cap; [exact Htop|].
    destruct Htop. lia.
Qed.

Lemma after_pause_inv (s0 s : agent) :
  at_top s0 s → (i s < maxIterations)%nat → run_inv s0 (after_pause s).
Proof.
  intros Htop Hlt. unfold after_pause. simpl.
  destruct (abortAgentRef s) eqn:Hab.
  - apply finally_break. simpl. exact Hlt.
  - apply call_model_inv; [|simpl; exact Hlt].
    destruct Htop as [Hi Hr Hrun Hst Hlen Htx]. split; simpl; assumption.
Qed.

Lemma model_texts_system (m : str) (s : agent) :
  model_texts (push_message (Message MSystem m) s) = model_texts s.
Proof.
  unfold model_texts. simpl. rewrite List.filter_app. simpl.
  rewrite app_nil_r. reflexivity.
Qed.

Lemma next_iteration_inv (s0 s : agent) :
  (i s < maxIterations)%nat →
  pausedResolverRef s ≠ PResolve → agentRunning s = true →
  no_terminal_step (agentSteps s) → length (agentSteps s) = S (i s) →
  model_texts s = model_texts s0 →
  run_inv s0 (next_iteration s).
Proof.
  intros Hi Hr Hrun Hst Hlen Htx. unfold next_iteration.
  apply loop_top_inv. split; simpl; first [assumption|lia].
Qed.

Lemma command_done_inv (s0 s : agent) (command reasoning : option str) (output : str) :
  in_call s0 s → run_inv s0 (command_done command reasoning output s).
Proof.
  intros [Hi Hr Hrun Hst Hlen Htx]. unfold command_done.
  destruct (timedOut output); apply next_iteration_inv; simpl;
    try assumption;
    try (apply map_last_no_terminal; assumption);
    try (rewrite map_last_length; assumption);
    unfold model_texts in *; simpl; rewrite ?List.filter_app; simpl;
    rewrite ?app_nil_r; assumption.
Qed.

Lemma keys_done_inv (s0 s : agent) (keys reasoning : option str) (output : str) :
  in_call s0 s → run_inv s0 (keys_done keys reasoning output s).
Proof.
  intros [Hi Hr Hrun Hst Hlen Htx]. unfold keys_done.
  apply next_iteration_inv; simpl; try assumption.
  - apply map_last_no_terminal; assumption.
  - rewrite map_last_length; assumption.
Qed.

(** The state of the loop while it waits for the model. *)
Lemma at_model (s0 s : agent) :
  run_inv s0 s → pc s = AwaitModel →
  at_top s0 s ∧ (i s < maxIterations)%nat.
Proof.
  intros [Hi Hr Hp Hlive Hover] Hpc.
  destruct Hlive as (Hlt & Hrun & Hst & Hlen & Htx); [congruence|].
  unfold steps_so_far in Hlen. rewrite Hpc in Hlen.
  split; [|exact Hlt]. split; try assumption.
  intros H. apply Hr in H. congruence.
Qed.

Lemma executeAgentCommand_inv (s0 s : agent) (command reasoning : option str) :
  at_top s0 s → (i s < maxIterations)%nat →
  run_inv s0 (executeAgentCommand onRunAgentCommand command reasoning s).
Proof.
  intros [Hi Hr Hrun Hst Hlen Htx] Hlt. unfold executeAgentCommand.
  assert (Hst' : no_terminal_step (agentSteps s ++ [command_step command reasoning]))
    by (apply no_terminal_snoc; [assumption|reflexivity]).
  assert (Hlen' : length (agentSteps s ++ [command_step command reasoning]) = S (i s))
    by (rewrite length_app; simpl; lia).
  destruct onRunAgentCommand.
  - split; simpl.
    + lia.
    + split; [intros H; contradiction|discriminate].
    + discriminate.
    + intros _. unfold steps_so_far. simpl. auto.
    + discriminate.
  - apply command_done_inv. split; simpl; assumption.
Qed.

Lemma executeAgentSendKeys_inv (s0 s : agent) (keys reasoning : option str) :
  at_top s0 s → (i s < maxIterations)%nat →
  run_inv s0 (executeAgentSendKeys onSendAgentKeys keys reasoning s).
Proof.
  intros [Hi Hr Hrun Hst Hlen Htx] Hlt. unfold executeAgentSendKeys.
  assert (Hst' : no_terminal_step (agentSteps s ++ [send_keys_step keys reasoning]))
    by (apply no_terminal_snoc; [assumption|reflexivity]).
  assert (Hlen' : length (agentSteps s ++ [send_keys_step keys reasoning]) = S (i s))
    by (rewrite length_app; simpl; lia).
  destruct onSendAgentKeys.
  - split; simpl.
    + lia.
    + split; [intros H; contradiction|discriminate].
    + discriminate.
    + intros _. unfold steps_so_far. simpl. auto.
    + discriminate.
  - apply keys_done_inv. split; simpl; assumption.
Qed.

Lemma model_replied_inv (s0 s : agent) (ps : list part) :
  run_inv s0 s → pc s = AwaitModel →
  run_inv s0 (model_replied onRunAgentCommand onSendAgentKeys renderForTerminal ps s).
Proof.
  intros Hinv Hpc. destruct (at_model s0 s Hinv Hpc) as [Htop Hlt].
  unfold model_replied.
  destruct (interpret ps)
    as [text ps'|summary ps'|command reasoning ps'|keys reasoning ps'|message].
  - apply finally_break. simpl. exact Hlt.
  - apply finally_break. simpl. exact Hlt.
  - apply executeAgentCommand_inv; [|simpl; exact Hlt].
    destruct Htop. split; simpl; assumption.
  - apply executeAgentSendKeys_inv; [|simpl; exact Hlt].
    destruct Htop. split; simpl; assumption.
  - unfold model_threw. apply finally_break. simpl. exact Hlt.
Qed.

Lemma model_threw_inv (s0 s : agent) (abort : bool) (message : str) :
  run_inv s0 s → pc s = AwaitModel → run_inv s0 (model_threw abort message s).
Proof.
  intros Hinv Hpc. destruct (at_model s0 s Hinv Hpc) as [Htop Hlt].
  unfold model_threw. apply finally_break. simpl. exact Hlt.
Qed.

Lemma in_call_command (s0 s : agent) (command reasoning : option str) :
  run_inv s0 s → pc s = AwaitCommand command reasoning → in_call s0 s.
Proof.
  intros [Hi Hr Hp Hlive Hover] Hpc.
  destruct Hlive as (Hlt & Hrun & Hst & Hlen & Htx); [congruence|].
  unfold steps_so_far in Hlen. rewrite Hpc in Hlen.
  split; try assumption. intros H. apply Hr in H. congruence.
Qed.

Lemma in_call_keys (s0 s : agent) (keys reasoning : option str) :
  run_inv s0 s → pc s = AwaitKeys keys reasoning → in_call s0 s.
Proof.
  intros [Hi Hr Hp Hlive Hover] Hpc.
  destruct Hlive as (Hlt & Hrun & Hst & Hlen & Htx); [congruence|].
  unfold steps_so_far in Hlen. rewrite Hpc in Hlen.
  split; try assumption. intros H. apply Hr in H. congruence.
Qed.

(** The state of the loop while it waits to be resumed. *)
Lemma at_pause (s0 s : agent) :
  run_inv s0 s → pc s = AwaitPause →
  (i s < maxIterations)%nat ∧ agentRunning s = true ∧
  no_terminal_step (agentSteps s) ∧ length (agentSteps s) = i s ∧
  model_texts s = model_texts s0.
Proof.
  intros [Hi Hr Hp Hlive Hover] Hpc.
  destruct Hlive as (Hlt & Hrun & Hst & Hlen & Htx); [congruence|].
  unfold steps_so_far in Hlen. rewrite Hpc in Hlen. auto.
Qed.

(** A change of the refs and flags that the invariant does not read. *)
Lemma run_inv_same (s0 s s' : agent) :
  run_inv s0 s →
  i s' = i s → pc s' = pc s → pausedResolverRef s' = pausedResolverRef s →
  agentRunning s' = agentRunning s → agentSteps s' = agentSteps s →
  messages s' = messages s →
  (pc s = AwaitPause → agentPaused s' = true) →
  run_inv s0 s'.
Proof.
  intros [Hi Hr Hp Hlive Hover] Ei Epc Er Erun Est Emsg Epaused.
  assert (Etx : model_texts s' = model_texts s)
    by (unfold model_texts; rewrite Emsg; reflexivity).
  split; unfold steps_so_far in *;
    rewrite ?Ei, ?Epc, ?Er, ?Erun, ?Est, ?Etx; assumption.
Qed.

Lemma pauseAgent_inv (s0 s : agent) : run_inv s0 s → run_inv s0 (pauseAgent s).
Proof.
  intros Hinv. unfold pauseAgent.
  destruct (agentRunning s && negb (agentPaused s)) eqn:Hc; [|exact Hinv].
  apply andb_true_iff in Hc as [Hrun Hnp]. apply negb_true_iff in Hnp.
  assert (Hpc : pc s ≠ AwaitPause).
  { intros H. apply (inv_paused _ _ Hinv) in H. congruence. }
  destruct Hinv as [Hi Hr Hp Hlive Hover]. split; simpl; try assumption.
  split; [discriminate|intros H; contradiction].
Qed.

Lemma resumeAgent_inv (s0 s : agent) : run_inv s0 s → run_inv s0 (resumeAgent s).
Proof.
  intros Hinv. unfold resumeAgent.
  destruct (pausedResolverRef s) eqn:Hp; try exact Hinv.
  assert (Hpc : pc s = AwaitPause) by (apply (inv_resolver _ _ Hinv), Hp).
  destruct (at_pause s0 s Hinv Hpc) as (Hlt & Hrun & Hst & Hlen & Htx).
  apply after_pause_inv; [|simpl; exact Hlt].
  split; simpl; try assumption; [lia|discriminate].
Qed.

Lemma stopAgent_inv (s0 s : agent) :
  run_inv s0 s → run_inv s0 (stopAgent onAbortAgentCapture s).
Proof.
  intros Hinv. unfold stopAgent.
  set (s1 := set_agentStopping true (set_abortAgentRef true s)).
  set (s2 := if abortControllerRef s1
             then set_abortControllerRef false (set_signal_aborted true s1)
             else s1).
  set (s3 := if onAbortAgentCapture then log_call CallAbortAgentCapture s2 else s2).
  assert (E : i s3 = i s ∧ pc s3 = pc s ∧ pausedResolverRef s3 = pausedResolverRef s ∧
              agentRunning s3 = agentRunning s ∧ agentSteps s3 = agentSteps s ∧
              messages s3 = messages s ∧ agentPaused s3 = agentPaused s ∧
              abortAgentRef s3 = true).
  { subst s3 s2 s1. destruct onAbortAgentCapture, (abortControllerRef _);
      simpl; repeat split; reflexivity. }
  destruct E as (Ei & Epc & Er & Erun & Est & Emsg & Epa & Eab).
  assert (Hquiet : pausedResolverRef s ≠ PResolve →
                   run_inv s0 (set_agentPaused false s3)).
  { intros Hne. apply (run_inv_same s0 s); simpl; try assumption.
    intros H. apply (inv_resolver _ _ Hinv) in H. contradiction. }
  destruct (pausedResolverRef s3) eqn:Hp.
  - apply Hquiet. congruence.
  - apply Hquiet. congruence.
  - assert (Hpc : pc s = AwaitPause)
      by (apply (inv_resolver _ _ Hinv); congruence).
    destruct (at_pause s0 s Hinv Hpc) as (Hlt & Hrun & Hst & Hlen & Htx).
    apply after_pause_inv; [|simpl; lia].
    split; simpl; rewrite ?Ei, ?Erun, ?Est; try assumption; [lia|discriminate|].
    unfold model_texts in *. simpl. rewrite Emsg. exact Htx.
Qed.

Lemma agent_step_inv (s0 s : agent) (e : event) :
  run_inv s0 s → run_inv s0 (Agent.step onRunAgentCommand onSendAgentKeys onAbortAgentCapture renderForTerminal s e).
Proof.
  intros Hinv. unfold Agent.step.
  destruct e as [ps|abort message|output| | |].
  - destruct (pc s) eqn:Hpc; try exact Hinv. apply model_replied_inv; assumption.
  - destruct (pc s) eqn:Hpc; try exact Hinv. apply model_threw_inv; assumption.
  - destruct (pc s) eqn:Hpc; try exact Hinv.
    + apply command_done_inv. eapply in_call_command; eassumption.
    + apply keys_done_inv. eapply in_call_keys; eassumption.
  - destruct (pc s); apply pauseAgent_inv, Hinv.
  - destruct (pc s); apply resumeAgent_inv, Hinv.
  - destruct (pc s); apply stopAgent_inv, Hinv.
Qed.

Lemma startAgentLoop_inv (userText : str) (s0 : agent) :
  run_inv s0 (startAgentLoop userText s0).
Proof.
  unfold startAgentLoop. apply loop_top_inv. split; simpl.
  - unfold maxIterations. lia.
  - discriminate.
  - reflexivity.
  - constructor.
  - reflexivity.
  - reflexivity.
Qed.

Lemma agent_run_inv (evs : list event) :
  ∀ s0 s, run_inv s0 s → run_inv s0 (Agent.run onRunAgentCommand onSendAgentKeys onAbortAgentCapture renderForTerminal s evs).
Proof.
  induction evs as [|e evs IH]; intros s0 s Hinv; simpl; [exact Hinv|].
  apply IH, agent_step_inv, Hinv.
Qed.

(** Once the loop has ended, nothing restarts it. *)
Lemma ended_step (s : agent) (e : event) :
  pc s = Idle → agentRunning s = false → pausedResolverRef s = PNull →
  let s' := Agent.step onRunAgentCommand onSendAgentKeys onAbortAgentCapture renderForTerminal s e in
  pc s' = Idle ∧ agentRunning s' = false ∧ pausedResolverRef s' = PNull ∧
  model_calls s' = model_calls s ∧ agentSteps s' = agentSteps s.
Proof.
  intros Hpc Hrun Hres. unfold Agent.step. rewrite Hpc.
  destruct e as [ps|abort message|output| | |]; simpl; auto.
  - unfold pauseAgent. rewrite Hrun. simpl. auto.
  - unfold resumeAgent. rewrite Hres. auto.
  - unfold stopAgent, model_calls.
    destruct onAbortAgentCapture, (abortControllerRef s) eqn:Hc;
      simpl; rewrite ?Hc; simpl; rewrite Hres; simpl;
      rewrite ?List.filter_app, ?app_nil_r; auto.
Qed.

Lemma ended_run (evs : list event) :
  ∀ s,
    pc s = Idle → agentRunning s = false → pausedResolverRef s = PNull →
    pc (Agent.run onRunAgentCommand onSendAgentKeys onAbortAgentCapture renderForTerminal s evs) = Idle ∧ model_calls (Agent.run onRunAgentCommand onSendAgentKeys onAbortAgentCapture renderForTerminal s evs) = model_calls s ∧
    agentSteps (Agent.run onRunAgentCommand onSendAgentKeys onAbortAgentCapture renderForTerminal s evs) = agentSteps s.
Proof.
  induction evs as [|e evs IH]; intros s Hpc Hrun Hres; simpl; [auto|].
  destruct (ended_step s e Hpc Hrun Hres) as (Hpc' & Hrun' & Hres' & Hm & Hst).
  destruct (IH _ Hpc' Hrun' Hres') as (H1 & H2 & H3).
  split; [exact H1|]. split; congruence.
Qed.

(** C5: whenever a run is blocked on the pause-wait, [stop()] resolves the
    wait; the loop then sees the stop latch, records the step [aborted]
    and ends, without calling the model.  Nothing that happens later, a
    resume included, makes it call the model or record another step. *)
Theorem stop_while_paused_aborts (userText : str) (s0 : agent) (evs : list event)
  (Hpaused : pc (Agent.run onRunAgentCommand onSendAgentKeys onAbortAgentCapture renderForTerminal (startAgentLoop userText s0) evs) = AwaitPause) :
  aborted_from_pause onRunAgentCommand onSendAgentKeys onAbortAgentCapture
    renderForTerminal (Agent.run onRunAgentCommand onSendAgentKeys onAbortAgentCapture renderForTerminal (startAgentLoop userText s0) evs).
Proof.
  set (s := Agent.run onRunAgentCommand onSendAgentKeys onAbortAgentCapture renderForTerminal
             (startAgentLoop userText s0) evs) in *.
  assert (Hinv : run_inv s0 s) by apply agent_run_inv, startAgentLoop_inv.
  assert (Hres : pausedResolverRef s = PResolve)
    by (apply (inv_resolver _ _ Hinv), Hpaused).
  unfold aborted_from_pause.
  set (s' := Agent.step onRunAgentCommand onSendAgentKeys onAbortAgentCapture renderForTerminal
              s StopAgent).
  assert (Hs' : pc s' = Idle ∧ agentRunning s' = false ∧ agentPaused s' = false ∧
                pausedResolverRef s' = PNull ∧
                agentSteps s' = agentSteps s ++ [aborted_step] ∧
                calls s' = calls s ++
                  (if onAbortAgentCapture then [CallAbortAgentCapture] else [])).
  { subst s'. unfold Agent.step, stopAgent.
    destruct onAbortAgentCapture, (abortControllerRef s) eqn:Hc;
      simpl; rewrite ?Hc; simpl; rewrite Hres; unfold after_pause; simpl;
      rewrite ?app_nil_r; repeat split; reflexivity. }
  destruct Hs' as (Hpc & Hrun & Hpa & Hnull & Hst & Hcalls).
  split; [exact Hres|]. repeat (split; [assumption|]).
  intros evs'.
  destruct (ended_run evs' s' Hpc Hrun Hnull) as (H1 & H2 & H3).
  split; [exact H1|]. split; [|exact H3].
  rewrite H2. unfold model_calls. rewrite Hcalls, List.filter_app.
  destruct onAbortAgentCapture; simpl; rewrite app_nil_r; reflexivity.
Qed.

(** C6: a run whose loop ends because its variable reached the cap of 20,
    that is after twenty iterations none of which ended it, leaves
    [running] false, a step log of exactly the twenty command and keys
    records with no [complete], [aborted] or [error] record among them,
    and no text reply in the chat pane. *)
Theorem iteration_cap_stops_silently (userText : str) (s0 : agent) (evs : list event)
  (Hended : pc (Agent.run onRunAgentCommand onSendAgentKeys onAbortAgentCapture renderForTerminal (startAgentLoop userText s0) evs) = Idle)
  (Hcap : i (Agent.run onRunAgentCommand onSendAgentKeys onAbortAgentCapture renderForTerminal (startAgentLoop userText s0) evs) = maxIterations) :
  stopped_silently s0 (Agent.run onRunAgentCommand onSendAgentKeys onAbortAgentCapture renderForTerminal (startAgentLoop userText s0) evs).
Proof.
  set (s := Agent.run onRunAgentCommand onSendAgentKeys onAbortAgentCapture renderForTerminal
             (startAgentLoop userText s0) evs) in *.
  assert (Hinv : run_inv s0 s) by apply agent_run_inv, startAgentLoop_inv.
  destruct (inv_over _ _ Hinv Hended) as (Hrun & Hsteps).
  destruct (Hsteps Hcap) as (Hst & Hlen & Htx).
  unfold stopped_silently. auto.
Qed.

End AgentFacts.

Lemma stop_while_paused_aborts_witness :
  Agent.pc (Agent.run true true true (λ x, x)
              (Agent.startAgentLoop (js "list the files") Agent.initial)
              Agent.paused_run) = Agent.AwaitPause ∧
  Agent.aborted_from_pause true true true (λ x, x)
    (Agent.run true true true (λ x, x)
       (Agent.startAgentLoop (js "list the files") Agent.initial)
       Agent.paused_run).
Proof.
  split; [vm_compute; reflexivity|].
  apply (stop_while_paused_aborts true true true (λ x, x)
           (js "list the files") Agent.initial Agent.paused_run).
  vm_compute; reflexivity.
Defined.

Lemma iteration_cap_stops_silently_witness :
  Agent.pc (Agent.run true true true (λ x, x)
              (Agent.startAgentLoop (js "list the files") Agent.initial)
              Agent.capped_run) = Agent.Idle ∧
  Agent.i (Agent.run true true true (λ x, x)
             (Agent.startAgentLoop (js "list the files") Agent.initial)
             Agent.capped_run) = Agent.maxIterations ∧
  Agent.stopped_silently Agent.initial
    (Agent.run true true true (λ x, x)
       (Agent.startAgentLoop (js "list the files") Agent.initial)
       Agent.capped_run).
Proof.
  split; [vm_compute; reflexivity|].
  split; [vm_compute; reflexivity|].
  apply (iteration_cap_stops_silently true true true (λ x, x)
           (js "list the files") Agent.initial Agent.capped_run);
    vm_compute; reflexivity.
Defined.

(** ** The escape scrubber *)

Section ScrubFacts.

Lemma remove_go_match (p : pattern) (c : N) (r rest : str) :
  match_at p (c :: r) = Some rest →
  remove_go p 0 (c :: r) =
  match (length (c :: r) - length rest)%nat with
  | O => c :: remove_go p 0 r
  | S n => remove_go p n r
  end.
Proof. intros H. cbn [remove_go]. rewrite H. reflexivity. Qed.

Lemma remove_go_no_match (p : pattern) (c : N) (r : str) :
  match_at p (c :: r) = None →
  remove_go p 0 (c :: r) = c :: remove_go p 0 r.
Proof. intros H. cbn [remove_go]. rewrite H. reflexivity. Qed.

(** A pass only deletes code units. *)
Lemma remove_go_sublist (p : pattern) (s : str) :
  ∀ skip, sublist (remove_go p skip s) s.
Proof.
  induction s as [|c r IH]; intros skip.
  - destruct skip; constructor.
  - destruct skip as [|n].
    + destruct (match_at p (c :: r)) as [rest|] eqn:Hm.
      * rewrite (remove_go_match p c r rest Hm).
        destruct (length (c :: r) - length rest)%nat.
        -- apply sublist_skip, IH.
        -- apply sublist_cons, IH.
      * rewrite (remove_go_no_match p c r Hm). apply sublist_skip, IH.
    + cbn [remove_go]. apply sublist_cons, IH.
Qed.

(** X1: scrubbing only deletes code units: the result is the input with
    some of its code units left out, in the same order, and is never
    longer. *)
Theorem stripAnsi_only_deletes (s : str) :
  sublist (stripAnsi s) s ∧ (length (stripAnsi s) ≤ length s)%nat.
Proof.
  assert (H : sublist (stripAnsi s) s).
  { unfold stripAnsi, remove_all.
    repeat (etransitivity; [apply remove_go_sublist|]). reflexivity. }
  split; [exact H|]. apply sublist_length, H.
Qed.

Lemma remove_go_chr_absent (c : N) (s : str) :
  ∀ skip, c ∉ remove_go (chr c) skip s.
Proof.
  induction s as [|x r IH]; intros skip.
  - destruct skip; apply not_elem_of_nil.
  - destruct skip as [|n]; [|cbn [remove_go]; apply IH].
    destruct (x =? c) eqn:Hx.
    + assert (Hm : match_at (chr c) (x :: r) = Some r)
        by (unfold match_at, chr; rewrite Hx; reflexivity).
      rewrite (remove_go_match _ _ _ _ Hm).
      destruct (length (x :: r) - length r)%nat eqn:E; [|apply IH].
      exfalso. cbn [length] in E. lia.
    + assert (Hm : match_at (chr c) (x :: r) = None)
        by (unfold match_at, chr; rewrite Hx; reflexivity).
      rewrite (remove_go_no_match _ _ _ Hm).
      apply not_elem_of_cons. split; [|apply IH].
      apply N.eqb_neq in Hx. congruence.
Qed.

(** X2: scrubbed text holds no carriage return. *)
Theorem stripAnsi_no_carriage_return (s : str) : CR ∉ stripAnsi s.
Proof. unfold stripAnsi, remove_all, re_cr. apply remove_go_chr_absent. Qed.

(** A pattern that can only match at a given code unit leaves alone any
    text without that code unit. *)
Lemma remove_go_absent (p : pattern) (c0 : N) (s : str) :
  (∀ x r, x ≠ c0 → match_at p (x :: r) = None) →
  c0 ∉ s → remove_go p 0 s = s.
Proof.
  intros Hp. induction s as [|x r IH]; intros Hs; [reflexivity|].
  apply not_elem_of_cons in Hs as [Hx Hr].
  rewrite remove_go_no_match by (apply Hp; congruence).
  rewrite IH by assumption. reflexivity.
Qed.

Lemma chr_head (c0 : N) (q : pattern) (x : N) (r : str) :
  x ≠ c0 → match_at (chr c0 +> q) (x :: r) = None.
Proof.
  intros Hx. unfold match_at, seq, chr.
  apply N.eqb_neq in Hx. rewrite Hx. reflexivity.
Qed.

Lemma plain_text_absent (s : str) (c : N) :
  Screen.plain_text s = true → one_of [ESC; 155; 91; CR] c = true → c ∉ s.
Proof.
  unfold Screen.plain_text. intros Hs Hc Hin.
  rewrite forallb_forall in Hs. apply list_elem_of_In in Hin.
  specialize (Hs c Hin). rewrite Hc in Hs. discriminate Hs.
Qed.

(** X3: text without an escape, an 8-bit CSI, an opening bracket or a
    carriage return comes out of the scrubber as it went in. *)
Theorem stripAnsi_plain_text (s : str) (Hplain : Screen.plain_text s = true) :
  stripAnsi s = s.
Proof.
  pose proof (plain_text_absent s ESC Hplain eq_refl) as Hesc.
  pose proof (plain_text_absent s 155 Hplain eq_refl) as Hcsi.
  pose proof (plain_text_absent s 91 Hplain eq_refl) as Hbr.
  pose proof (plain_text_absent s CR Hplain eq_refl) as Hcr.
  unfold stripAnsi, remove_all.
  rewrite (remove_go_absent re_csi ESC s) by (assumption || apply chr_head).
  rewrite (remove_go_absent re_csi8 155 s) by (assumption || apply chr_head).
  rewrite (remove_go_absent re_osc ESC s) by (assumption || apply chr_head).
  rewrite (remove_go_absent re_charset ESC s) by (assumption || apply chr_head).
  rewrite (remove_go_absent re_mode ESC s) by (assumption || apply chr_head).
  rewrite (remove_go_absent re_csi_any ESC s) by (assumption || apply chr_head).
  rewrite (remove_go_absent re_bare 91 s) by (assumption || apply chr_head).
  apply (remove_go_absent re_cr CR s); [|assumption].
  intros x r Hx. unfold re_cr, match_at, chr.
  apply N.eqb_neq in Hx. rewrite Hx. reflexivity.
Qed.

Lemma stripAnsi_plain_text_witness :
  Screen.plain_text (js "total 8") = true ∧ stripAnsi (js "total 8") = js "total 8".
Proof.
  split; [reflexivity|].
  apply (stripAnsi_plain_text (js "total 8")). reflexivity.
Defined.

End ScrubFacts.

(** ** Whole captures *)

Section CaptureFacts.

Import Terminal Captures.

Lemma run_app (t : term) (evs1 evs2 : list event) :
  run t (evs1 ++ evs2) = run (run t evs1) evs2.
Proof. unfold run. apply fold_left_app. Qed.

Lemma sampling_output (id : nat) (b d : str) (u : term) :
  sampling id b u →
  sampling id (b ++ d) (ssh_output d u) ∧
  resolved (ssh_output d u) = resolved u ∧ emitted (ssh_output d u) = emitted u.
Proof.
  intros (Hc & Hk & Ht & Hl & Hb). unfold ssh_output.
  rewrite on_output_no_capture by assumption.
  destruct u as [so cap ks tm ob ls rs em nx]; simpl in *. subst.
  unfold sampling; simpl. repeat split.
  rewrite lookup_alter_eq, Hb. reflexivity.
Qed.

Lemma sampling_outputs (id : nat) (ds : list str) :
  ∀ b u,
    sampling id b u →
    sampling id (b ++ concat ds) (run u (outputs ds)) ∧
    resolved (run u (outputs ds)) = resolved u ∧
    emitted (run u (outputs ds)) = emitted u.
Proof.
  induction ds as [|d ds IH]; intros b u Hs; simpl.
  - rewrite app_nil_r. auto.
  - destruct (sampling_output id b d u Hs) as (Hs' & Hr & He).
    destruct (IH _ _ Hs') as (Hs'' & Hr' & He').
    rewrite app_assoc. split; [exact Hs''|]. split; congruence.
Qed.

(** X4: a sample capture on a connected, idle terminal sends the
    translated keys at once, gathers every output message that arrives
    before its 3000 ms timer expires, in order, and is then resolved with
    that text scrubbed and trimmed, or with "(no visible output after
    sending keys)" when nothing visible is left; nothing stays pending. *)
Theorem sample_capture_gathers_output (t : term) (keys : str) (ds : list str)
  (Hconnected : socketRef t = true) (Hquiet : quiet t) :
  let t' := run t (SendAgentKeys keys :: outputs ds ++ [TimerFire (next t)]) in
  resolved t' =
  resolved t ++
  [(next t, or_else (trim (stripAnsi (concat ds))) no_visible_output)] ∧
  emitted t' = emitted t ++ [translate_keys keys] ∧
  quiet t'.
Proof.
  destruct Hquiet as (Hc & Hk & Ht & Hl).
  cbn zeta. change (SendAgentKeys keys :: outputs ds ++ [TimerFire (next t)])
    with ([SendAgentKeys keys] ++ outputs ds ++ [TimerFire (next t)]).
  rewrite !run_app.
  set (t1 := run t [SendAgentKeys keys]).
  assert (H1 : sampling (next t) [] t1 ∧ resolved t1 = resolved t ∧
               emitted t1 = emitted t ++ [translate_keys keys]).
  { subst t1. simpl. unfold sendAgentKeys. rewrite Hconnected. simpl.
    unfold sampling; simpl. rewrite Ht, Hl, insert_empty.
    repeat split; first [assumption|apply lookup_insert_eq]. }
  destruct H1 as (Hs1 & Hr1 & He1).
  destruct (sampling_outputs (next t) ds [] t1 Hs1) as (Hs2 & Hr2 & He2).
  simpl in Hs2. set (t2 := run t1 (outputs ds)) in *.
  destruct Hs2 as (Hc2 & Hk2 & Ht2 & Hl2 & Hb2).
  simpl. unfold timer_fire. rewrite Ht2, lookup_singleton_eq. simpl.
  rewrite Hb2. simpl. rewrite Hr2, Hr1, He2, He1.
  split; [reflexivity|]. split; [reflexivity|].
  repeat split; simpl; try assumption.
  - rewrite Ht2. apply delete_singleton_eq.
  - rewrite Hl2. apply filter_ne_singleton.
Qed.

Lemma sample_capture_gathers_output_witness :
  socketRef (initial true) = true ∧ quiet (initial true) ∧
  let t' := run (initial true)
              (SendAgentKeys (js "y Enter")
               :: outputs [js "Proceed? "; js "done"] ++ [TimerFire (next (initial true))]) in
  resolved t' =
  resolved (initial true) ++
  [(next (initial true),
    or_else (trim (stripAnsi (concat [js "Proceed? "; js "done"]))) no_visible_output)] ∧
  emitted t' = emitted (initial true) ++ [translate_keys (js "y Enter")] ∧
  quiet t'.
Proof.
  split; [reflexivity|]. split; [repeat split|].
  apply (sample_capture_gathers_output (initial true) (js "y Enter")
           [js "Proceed? "; js "done"]); [reflexivity|repeat split].
Defined.

Lemma capturing_outputs (id : nat) (ds : list str) :
  ∀ b u,
    capturing id b u → stays_pending b ds = true →
    capturing id (b ++ concat ds) (run u (outputs ds)) ∧
    resolved (run u (outputs ds)) = resolved u ∧
    emitted (run u (outputs ds)) = emitted u.
Proof.
  induction ds as [|d ds IH]; intros b u Hcap Hp; simpl.
  - rewrite app_nil_r. auto.
  - simpl in Hp.
    destruct (exec sentinelPattern (stripAnsi (b ++ d))) eqn:He; [discriminate|].
    destruct Hcap as (Hc & Hk & Ht & Hl).
    assert (Hu : ssh_output d u = with_capture (Some (Capture (b ++ d) id id)) u).
    { unfold ssh_output. rewrite (on_output_no_match u (Capture b id id) d Hc He).
      apply run_listeners_none. simpl. exact Hl. }
    rewrite Hu.
    destruct (IH (b ++ d) (with_capture (Some (Capture (b ++ d) id id)) u))
      as (Hcap' & Hr & He'); [repeat split; simpl; assumption|exact Hp|].
    rewrite app_assoc. auto.
Qed.

Lemma capturing_start (t : term) (command : str) :
  socketRef t = true → quiet t →
  let t1 := run t [RunAgentCommand command] in
  capturing (next t) [] t1 ∧ resolved t1 = resolved t ∧
  emitted t1 = emitted t ++ [command_line command].
Proof.
  intros Hso (Hc & Hk & Ht & Hl). simpl. unfold runAgentCommand.
  rewrite Hso. simpl. unfold capturing; simpl. rewrite Ht, insert_empty.
  repeat split; assumption.
Qed.

(** X5: a command capture on a connected, idle terminal sends the command
    followed by the echo of the marker.  As long as no message completes
    the marker the capture stays pending; the message [d] that completes
    it resolves the capture with the text before the marker in everything
    received so far, first line left out; nothing stays pending. *)
Theorem command_capture_resolves_on_marker
  (t : term) (command : str) (ds : list str) (d : str) (index : nat)
  (Hconnected : socketRef t = true) (Hquiet : quiet t)
  (Hpending : stays_pending [] ds = true)
  (Hmatch : exec sentinelPattern (stripAnsi (concat ds ++ d)) = Some index) :
  let t' := run t (RunAgentCommand command :: outputs ds ++ [SshOutput d]) in
  resolved (run t (RunAgentCommand command :: outputs ds)) = resolved t ∧
  resolved t' =
  resolved t ++ [(next t, output_before index (stripAnsi (concat ds ++ d)))] ∧
  emitted t' = emitted t ++ [command_line command] ∧
  quiet t'.
Proof.
  cbn zeta.
  change (RunAgentCommand command :: outputs ds ++ [SshOutput d])
    with ([RunAgentCommand command] ++ outputs ds ++ [SshOutput d]).
  change (RunAgentCommand command :: outputs ds)
    with ([RunAgentCommand command] ++ outputs ds).
  rewrite !run_app.
  destruct (capturing_start t command Hconnected Hquiet) as (H1 & Hr1 & He1).
  set (t1 := run t [RunAgentCommand command]) in *.
  destruct (capturing_outputs (next t) ds [] t1 H1 Hpending) as (H2 & Hr2 & He2).
  simpl in H2. set (t2 := run t1 (outputs ds)) in *.
  destruct H2 as (Hc2 & Hk2 & Ht2 & Hl2).
  split; [congruence|].
  simpl. unfold ssh_output.
  rewrite (on_output_match t2 (Capture (concat ds) (next t) (next t)) d index Hc2 Hmatch).
  rewrite run_listeners_none by (simpl; exact Hl2). simpl.
  rewrite Hr2, Hr1, He2, He1.
  split; [reflexivity|]. split; [reflexivity|].
  repeat split; simpl; try assumption.
  rewrite Ht2. apply delete_singleton_eq.
Qed.

Lemma command_capture_resolves_on_marker_witness :
  let t := initial true in
  let ds := [js "ls; echo __JUNI_AGENT_DONE__" ++ [CR; LF]; js "file1" ++ [CR; LF]] in
  let d := js "__JUNI_AGENT_DONE__" ++ [CR; LF] in
  let t' := run t (RunAgentCommand (js "ls") :: outputs ds ++ [SshOutput d]) in
  resolved (run t (RunAgentCommand (js "ls") :: outputs ds)) = resolved t ∧
  resolved t' =
  resolved t ++ [(next t, output_before 34 (stripAnsi (concat ds ++ d)))] ∧
  emitted t' = emitted t ++ [command_line (js "ls")] ∧
  quiet t'.
Proof.
  apply (command_capture_resolves_on_marker (initial true) (js "ls")
           [js "ls; echo __JUNI_AGENT_DONE__" ++ [CR; LF]; js "file1" ++ [CR; LF]]
           (js "__JUNI_AGENT_DONE__" ++ [CR; LF]) 34);
    [reflexivity|repeat split|vm_compute; reflexivity|vm_compute; reflexivity].
Defined.

(** X6: when the 60000 ms timer of a command capture expires before any
    message has completed the marker, the capture is resolved with all the
    output received, in order, scrubbed and trimmed, and with the timeout
    text only when that is empty; nothing stays pending. *)
Theorem command_capture_deadline
  (t : term) (command : str) (ds : list str)
  (Hconnected : socketRef t = true) (Hquiet : quiet t)
  (Hpending : stays_pending [] ds = true) :
  let t' := run t (RunAgentCommand command :: outputs ds ++ [TimerFire (next t)]) in
  resolved t' =
  resolved t ++
  [(next t, or_else (trim (stripAnsi (concat ds))) command_timed_out)] ∧
  quiet t'.
Proof.
  cbn zeta.
  change (RunAgentCommand command :: outputs ds ++ [TimerFire (next t)])
    with ([RunAgentCommand command] ++ outputs ds ++ [TimerFire (next t)]).
  rewrite !run_app.
  destruct (capturing_start t command Hconnected Hquiet) as (H1 & Hr1 & He1).
  set (t1 := run t [RunAgentCommand command]) in *.
  destruct (capturing_outputs (next t) ds [] t1 H1 Hpending) as (H2 & Hr2 & He2).
  simpl in H2. set (t2 := run t1 (outputs ds)) in *.
  destruct H2 as (Hc2 & Hk2 & Ht2 & Hl2).
  simpl. unfold timer_fire. rewrite Ht2, lookup_singleton_eq. simpl.
  rewrite Hc2. simpl. rewrite Hr2, Hr1.
  split; [reflexivity|].
  repeat split; simpl; try assumption.
  rewrite Ht2. apply delete_singleton_eq.
Qed.

Lemma command_capture_deadline_witness :
  let t := initial true in
  let ds := [js "read x; echo __JUNI_AGENT_DONE__" ++ [CR; LF]; js "x? "] in
  let t' := run t (RunAgentCommand (js "read x") :: outputs ds ++ [TimerFire (next t)]) in
  resolved t' =
  resolved t ++
  [(next t, or_else (trim (stripAnsi (concat ds))) command_timed_out)] ∧
  quiet t'.
Proof.
  apply (command_capture_deadline (initial true) (js "read x")
           [js "read x; echo __JUNI_AGENT_DONE__" ++ [CR; LF]; js "x? "]);
    [reflexivity|repeat split|vm_compute; reflexivity].
Defined.

Lemma requests_app (evs1 evs2 : list event) :
  requests (evs1 ++ evs2) = requests evs1 ++ requests evs2.
Proof. unfold requests. apply List.filter_app. Qed.

Lemma disconnected_run (evs : list event) :
  ∀ t,
    socketRef t = false → quiet t →
    let t' := run t evs in
    socketRef t' = false ∧ quiet t' ∧ emitted t' = emitted t ∧
    (resolved t').*2 =
    (resolved t).*2 ++ replicate (length (requests evs)) not_connected.
Proof.
  induction evs as [|e evs IH]; intros t Hso Hq; cbn zeta.
  - simpl. rewrite app_nil_r. auto.
  - change (e :: evs) with ([e] ++ evs). rewrite run_app, requests_app.
    destruct (is_request e) eqn:He.
    + assert (H1 : run t [e] = fresh (call_resolve (next t) not_connected t)).
      { destruct e; try discriminate; simpl;
          [unfold runAgentCommand|unfold sendAgentKeys]; rewrite Hso; reflexivity. }
      destruct (IH (run t [e])) as (Hso' & Hq' & Hem & Hres).
      { rewrite H1. exact Hso. }
      { rewrite H1. exact Hq. }
      split; [exact Hso'|]. split; [exact Hq'|].
      split; [rewrite Hem, H1; reflexivity|].
      rewrite Hres, H1. simpl. rewrite fmap_app. simpl.
      unfold requests at 2. simpl. rewrite He. simpl.
      rewrite <- app_assoc. reflexivity.
    + assert (H1 : run t [e] = t) by (apply quiet_silent; assumption).
      rewrite H1. destruct (IH t Hso Hq) as (Hso' & Hq' & Hem & Hres).
      split; [exact Hso'|]. split; [exact Hq'|]. split; [exact Hem|].
      rewrite Hres. unfold requests at 2. simpl. rewrite He. reflexivity.
Qed.

(** X7: on a terminal whose socket is not set, whatever is asked and
    whatever else happens: nothing is sent to the server, no timer and no
    capture is ever pending, and each request, command or keys, is
    answered at once with "Error: terminal not connected". *)
Theorem disconnected_terminal_answers_at_once (evs : list event) :
  let t := run (initial false) evs in
  emitted t = [] ∧ quiet t ∧
  (resolved t).*2 = replicate (length (requests evs)) not_connected.
Proof.
  destruct (disconnected_run evs (initial false)) as (_ & Hq & Hem & Hres);
    [reflexivity|repeat split|].
  cbn zeta. auto.
Qed.

End CaptureFacts.

(** ** The screen text *)

Section ScreenFacts.

Import Screen.

Lemma pop_blank_rev_split (rl : list str) :
  ∃ bl,
    rl = bl ++ pop_blank_rev rl ∧ Forall (λ l, blank l = true) bl ∧
    match pop_blank_rev rl with l :: _ => blank l = false | [] => True end.
Proof.
  induction rl as [|l rl (bl & Heq & Hbl & Hhd)]; simpl.
  - exists []. repeat split; constructor.
  - destruct (blank l) eqn:Hl.
    + exists (l :: bl). split; [simpl; rewrite <- Heq; reflexivity|].
      split; [constructor; assumption|exact Hhd].
    + exists []. split; [reflexivity|]. split; [constructor|exact Hl].
Qed.

Lemma last_rev_head (l : list str) : last (rev l) = head l.
Proof.
  destruct l as [|x l]; [reflexivity|]. simpl. apply last_snoc.
Qed.

(** X8: the text handed over by [getBufferText] is made of the lines of
    the buffer up to and including the last one that is not blank, joined
    by line feeds: the lines left out are all blank and come last, so the
    text never ends in a blank line. *)
Theorem getBufferText_drops_trailing_blank_lines (buf : list (option str)) :
  ∃ kept blanks,
    map (default []) buf = kept ++ blanks ∧
    Forall (λ l, blank l = true) blanks ∧
    match last kept with Some l => blank l = false | None => True end ∧
    getBufferText (Some buf) = join [LF] kept.
Proof.
  set (lines := map (default []) buf).
  destruct (pop_blank_rev_split (rev lines)) as (bl & Heq & Hbl & Hhd).
  exists (pop_blank lines), (rev bl). unfold pop_blank. repeat split.
  - rewrite <- rev_app_distr, <- Heq, rev_involutive. reflexivity.
  - apply Forall_rev, Hbl.
  - rewrite last_rev_head. destruct (pop_blank_rev (rev lines)); exact Hhd.
Qed.

End ScreenFacts.

(** ** Replies of the model *)

Section ReplyFacts.

Import Agent Replies.

Lemma find_call_app (pre post : list part) :
  find_call pre = None → find_call (pre ++ post) = find_call post.
Proof.
  induction pre as [|p pre IH]; simpl; [reflexivity|].
  destruct p; try discriminate; exact IH.
Qed.

Lemma interpret_first_call (pre post : list part) (fc : function_call) :
  find_call pre = None →
  interpret (pre ++ Call fc :: post) =
  (if recognised (name fc)
   then decided fc (pre ++ Call fc :: post)
   else text_reply (pre ++ Call fc :: post)).
Proof.
  intros Hpre. unfold interpret, recognised, decided, action, member, text_reply.
  rewrite find_call_app by exact Hpre. simpl.
  destruct (Terminal.eqb_str (name fc) (js "task_complete"));
    [destruct (args fc); reflexivity|].
  destruct (Terminal.eqb_str (name fc) (js "run_command"));
    [destruct (args fc); reflexivity|].
  destruct (Terminal.eqb_str (name fc) (js "send_keys"));
    [destruct (args fc); reflexivity|reflexivity].
Qed.

(** X9: what [runAgentStep] makes of the parts of a reply.  Without a
    function call the reply is a text reply: the first non-empty text, or
    "No response generated.".  The first function call decides whatever
    text surrounds it and whatever calls follow.  When its name is one of
    the three actions and it has arguments, the reply is that action, with
    those arguments.  When its name is one of the three and it has no
    [args], reading the member [summary], [command] or [keys] throws a
    [TypeError]: the loop records an error step with its message and ends
    the run, nothing being run.  When its name is none of the three the
    reply is a text reply, even if a later call names an action. *)
Theorem runAgentStep_first_call_decides (pre post : list part) (fc : function_call)
  (Hpre : find_call pre = None) :
  let ps := pre ++ Call fc :: post in
  interpret pre = text_reply pre ∧
  is_text (interpret pre) = true ∧
  interpret ps =
  (if recognised (name fc)
   then match args fc with
        | Some a => action (name fc) a ps
        | None => RThrow (type_error (member (name fc)))
        end
   else text_reply ps) ∧
  (recognised (name fc) = true → args fc = None →
   ∀ (onRunAgentCommand onSendAgentKeys onAbortAgentCapture : bool)
     (renderForTerminal : str → str) (s : agent),
     pc s = AwaitModel →
     let s' := Agent.step onRunAgentCommand onSendAgentKeys onAbortAgentCapture
                 renderForTerminal s (ModelReply ps) in
     pc s' = Idle ∧ agentRunning s' = false ∧
     agentSteps s' = agentSteps s ++ [error_step (type_error (member (name fc)))] ∧
     calls s' = calls s).
Proof.
  cbn zeta. split; [|split; [|split]].
  - unfold interpret, text_reply. rewrite Hpre. reflexivity.
  - unfold interpret. rewrite Hpre. destruct (find_text pre); reflexivity.
  - apply interpret_first_call, Hpre.
  - intros Hrec Hargs onRun onKeys onAbort render s Hpc.
    unfold Agent.step. rewrite Hpc. unfold model_replied.
    rewrite (interpret_first_call pre post fc Hpre), Hrec.
    unfold decided. rewrite Hargs. simpl. repeat split; reflexivity.
Qed.

Lemma runAgentStep_first_call_decides_witness :
  let pre := [Text (js "All done.")] in
  let fc := FunctionCall (js "task_complete") None in
  let post := [run_command_call (js "ls")] in
  let ps := pre ++ Call fc :: post in
  interpret pre = text_reply pre ∧
  is_text (interpret pre) = true ∧
  interpret ps =
  (if recognised (name fc)
   then match args fc with
        | Some a => action (name fc) a ps
        | None => RThrow (type_error (member (name fc)))
        end
   else text_reply ps) ∧
  (recognised (name fc) = true → args fc = None →
   ∀ (onRunAgentCommand onSendAgentKeys onAbortAgentCapture : bool)
     (renderForTerminal : str → str) (s : agent),
     pc s = AwaitModel →
     let s' := Agent.step onRunAgentCommand onSendAgentKeys onAbortAgentCapture
                 renderForTerminal s (ModelReply ps) in
     pc s' = Idle ∧ agentRunning s' = false ∧
     agentSteps s' = agentSteps s ++ [error_step (type_error (member (name fc)))] ∧
     calls s' = calls s).
Proof.
  apply (runAgentStep_first_call_decides [Text (js "All done.")]
           [run_command_call (js "ls")]
           (FunctionCall (js "task_complete") None)).
  reflexivity.
Defined.

End ReplyFacts.

(** ** Whole runs of the agent loop *)

Section RunFacts.

Import Agent Runs.

Variable onRunAgentCommand onSendAgentKeys onAbortAgentCapture : bool.
Variable renderForTerminal : str → str.

Lemma model_calls_log_model (h : list entry) (s : agent) :
  model_calls (log_call (CallModel h) s) = model_calls s ++ [CallModel h].
Proof. unfold model_calls. simpl. rewrite List.filter_app. reflexivity. Qed.

Lemma finally_calls (n0 : nat) (s : agent) :
  (length (model_calls s) ≤ n0 + maxIterations)%nat → calls_inv n0 (finally s).
Proof.
  intros H. split; simpl; try discriminate; try contradiction.
  intros _. exact H.
Qed.

Lemma call_model_calls (n0 : nat) (s : agent) :
  length (model_calls s) = (n0 + i s)%nat → calls_inv n0 (call_model s).
Proof.
  intros H. split; simpl; try discriminate.
  intros _ _. unfold call_model.
  change (model_calls (set_pc AwaitModel (log_call (CallModel (history s)) (set_isLoading true s))))
    with (model_calls (log_call (CallModel (history s)) s)).
  rewrite model_calls_log_model, length_app, H. simpl. lia.
Qed.

Lemma loop_top_calls (n0 : nat) (s : agent) :
  length (model_calls s) = (n0 + i s)%nat → (i s ≤ maxIterations)%nat →
  calls_inv n0 (loop_top s).
Proof.
  intros H Hi. unfold loop_top.
  destruct (i s <? maxIterations)%nat eqn:Hlt.
  - destruct (abortAgentRef s).
    + apply finally_calls.
      change (model_calls (push_step aborted_step s)) with (model_calls s).
      apply Nat.ltb_lt in Hlt. lia.
    + destruct (pausedResolverRef s); try (apply call_model_calls; exact H).
      split; simpl; try discriminate; try contradiction.
      intros _. exact H.
  - apply finally_calls. lia.
Qed.

Lemma after_pause_calls (n0 : nat) (s : agent) :
  length (model_calls s) = (n0 + i s)%nat → (i s < maxIterations)%nat →
  calls_inv n0 (after_pause s).
Proof.
  intros H Hi. unfold after_pause. simpl.
  destruct (abortAgentRef s).
  - apply finally_calls.
    change (model_calls (push_step aborted_step (set_agentPaused false s)))
      with (model_calls s). lia.
  - apply call_model_calls. exact H.
Qed.

Lemma command_done_calls (n0 : nat) (s : agent) (command reasoning : option str) (output : str) :
  length (model_calls s) = (n0 + S (i s))%nat → (i s < maxIterations)%nat →
  calls_inv n0 (command_done command reasoning output s).
Proof.
  intros H Hi. unfold command_done, next_iteration.
  destruct (timedOut output); apply loop_top_calls; simpl; first [exact H|lia].
Qed.

Lemma keys_done_calls (n0 : nat) (s : agent) (keys reasoning : option str) (output : str) :
  length (model_calls s) = (n0 + S (i s))%nat → (i s < maxIterations)%nat →
  calls_inv n0 (keys_done keys reasoning output s).
Proof.
  intros H Hi. unfold keys_done, next_iteration.
  apply loop_top_calls; simpl; first [exact H|lia].
Qed.

Lemma live_index (s0 s : agent) :
  run_inv s0 s → pc s ≠ Idle → (i s < maxIterations)%nat.
Proof. intros Hinv Hpc. apply (inv_live _ _ Hinv Hpc). Qed.

Lemma same_calls (n0 : nat) (s s' : agent) :
  calls_inv n0 s → pc s' = pc s → i s' = i s → model_calls s' = model_calls s →
  calls_inv n0 s'.
Proof.
  intros [Hp Hb Ho] Epc Ei Em. split; rewrite ?Epc, ?Ei, ?Em; assumption.
Qed.

Lemma model_replied_calls (n0 : nat) (s0 s : agent) (ps : list part) :
  run_inv s0 s → calls_inv n0 s → pc s = AwaitModel →
  calls_inv n0 (model_replied onRunAgentCommand onSendAgentKeys renderForTerminal ps s).
Proof.
  intros Hinv Hc Hpc.
  assert (Hlt : (i s < maxIterations)%nat) by (eapply live_index; [eassumption|congruence]).
  assert (Hn : length (model_calls s) = (n0 + S (i s))%nat)
    by (apply (calls_busy _ _ Hc); congruence).
  unfold model_replied.
  destruct (interpret ps)
    as [text ps'|summary ps'|command reasoning ps'|keys reasoning ps'|message];
    [| | | |unfold model_threw; apply finally_calls; simpl;
            unfold model_calls in *; simpl; lia].
  - apply finally_calls. simpl. unfold model_calls in *. simpl. lia.
  - apply finally_calls. simpl. unfold model_calls in *. simpl. lia.
  - unfold executeAgentCommand. destruct onRunAgentCommand.
    + split; simpl; try discriminate. intros _ _.
      unfold model_calls in *. simpl. rewrite List.filter_app. simpl.
      rewrite app_nil_r. exact Hn.
    + apply command_done_calls; simpl; assumption.
  - unfold executeAgentSendKeys. destruct onSendAgentKeys.
    + split; simpl; try discriminate. intros _ _.
      unfold model_calls in *. simpl. rewrite List.filter_app. simpl.
      rewrite app_nil_r. exact Hn.
    + apply keys_done_calls; simpl; assumption.
Qed.

Lemma stop_flags (s : agent) :
  let s3 :=
    (if onAbortAgentCapture
     then log_call CallAbortAgentCapture
     else λ x, x)
      (let s1 := set_agentStopping true (set_abortAgentRef true s) in
       if abortControllerRef s1
       then set_abortControllerRef false (set_signal_aborted true s1)
       else s1) in
  pc s3 = pc s ∧ i s3 = i s ∧ model_calls s3 = model_calls s ∧
  pausedResolverRef s3 = pausedResolverRef s ∧ history s3 = history s ∧
  agentHistory s3 = agentHistory s.
Proof.
  cbn zeta. unfold model_calls.
  destruct onAbortAgentCapture, (abortControllerRef _); simpl;
    rewrite ?List.filter_app, ?app_nil_r; repeat split; reflexivity.
Qed.

Lemma stopAgent_unfold (s : agent) :
  stopAgent onAbortAgentCapture s =
  let s3 :=
    (if onAbortAgentCapture
     then log_call CallAbortAgentCapture
     else λ x, x)
      (let s1 := set_agentStopping true (set_abortAgentRef true s) in
       if abortControllerRef s1
       then set_abortControllerRef false (set_signal_aborted true s1)
       else s1) in
  match pausedResolverRef s3 with
  | PResolve => after_pause (set_agentPaused false (set_pausedResolverRef PNull s3))
  | _ => set_agentPaused false s3
  end.
Proof. unfold stopAgent. destruct onAbortAgentCapture; reflexivity. Qed.

Lemma step_calls (n0 : nat) (s0 s : agent) (e : event) :
  run_inv s0 s → calls_inv n0 s →
  calls_inv n0 (Agent.step onRunAgentCommand onSendAgentKeys onAbortAgentCapture renderForTerminal s e).
Proof.
  intros Hinv Hc. unfold Agent.step.
  destruct e as [ps|abort message|output| | |].
  - destruct (pc s) eqn:Hpc; try exact Hc.
    eapply model_replied_calls; eassumption.
  - destruct (pc s) eqn:Hpc; try exact Hc.
    unfold model_threw. apply finally_calls.
    assert (Hlt : (i s < maxIterations)%nat)
      by (eapply live_index; [eassumption|congruence]).
    assert (Hn : length (model_calls s) = (n0 + S (i s))%nat)
      by (apply (calls_busy _ _ Hc); congruence).
    unfold model_calls in *. simpl. lia.
  - destruct (pc s) eqn:Hpc; try exact Hc.
    + apply command_done_calls.
      * apply (calls_busy _ _ Hc); congruence.
      * eapply live_index; [eassumption|congruence].
    + apply keys_done_calls.
      * apply (calls_busy _ _ Hc); congruence.
      * eapply live_index; [eassumption|congruence].
  - assert (H : calls_inv n0 (pauseAgent s)).
    { unfold pauseAgent. destruct (agentRunning s && negb (agentPaused s)); [|exact Hc].
      apply (same_calls n0 s); [exact Hc|reflexivity..]. }
    destruct (pc s); exact H.
  - assert (H : calls_inv n0 (resumeAgent s)).
    { unfold resumeAgent. destruct (pausedResolverRef s) eqn:Hp; try exact Hc.
      assert (Hpc : pc s = AwaitPause) by (apply (inv_resolver _ _ Hinv), Hp).
      apply after_pause_calls; simpl.
      - apply (calls_paused _ _ Hc Hpc).
      - eapply live_index; [eassumption|congruence]. }
    destruct (pc s); exact H.
  - assert (H : calls_inv n0 (stopAgent onAbortAgentCapture s)).
    { rewrite stopAgent_unfold. cbn zeta.
      destruct (stop_flags s) as (Epc & Ei & Em & Er & _). cbn zeta in *.
      match goal with |- context [pausedResolverRef ?x] => set (s3 := x) in * end.
      destruct (pausedResolverRef s3) eqn:Hp.
      - apply (same_calls n0 s); [exact Hc|simpl; assumption..].
      - apply (same_calls n0 s); [exact Hc|simpl; assumption..].
      - assert (Hpc : pc s = AwaitPause)
          by (apply (inv_resolver _ _ Hinv); congruence).
        apply after_pause_calls; simpl.
        + change (model_calls (set_agentPaused false (set_pausedResolverRef PNull s3)))
            with (model_calls s3).
          rewrite Em, Ei. apply (calls_paused _ _ Hc Hpc).
        + rewrite Ei. eapply live_index; [eassumption|congruence]. }
    destruct (pc s); exact H.
Qed.

Lemma run_calls (n0 : nat) (s0 : agent) (evs : list event) :
  ∀ s, run_inv s0 s → calls_inv n0 s →
       calls_inv n0 (Agent.run onRunAgentCommand onSendAgentKeys onAbortAgentCapture renderForTerminal s evs).
Proof.
  induction evs as [|e evs IH]; intros s Hinv Hc; simpl; [exact Hc|].
  apply IH; [apply agent_step_inv, Hinv|eapply step_calls; eassumption].
Qed.

Lemma start_calls (userText : str) (s0 : agent) :
  calls_inv (length (model_calls s0)) (startAgentLoop userText s0).
Proof.
  unfold startAgentLoop. apply loop_top_calls; simpl.
  - unfold model_calls. simpl. lia.
  - unfold maxIterations. lia.
Qed.

(** X10: a run calls the model at most twenty times, however long it is
    kept alive by pauses, resumes and captures, and whatever arrives after
    it has ended. *)
Theorem run_calls_model_at_most_twenty_times (userText : str) (s0 : agent) (evs : list event) :
  (length (model_calls (Agent.run onRunAgentCommand onSendAgentKeys onAbortAgentCapture renderForTerminal (startAgentLoop userText s0) evs))
   ≤ length (model_calls s0) + maxIterations)%nat.
Proof.
  pose proof (run_calls (length (model_calls s0)) s0 evs
                (startAgentLoop userText s0)
                (startAgentLoop_inv userText s0) (start_calls userText s0)) as Hc.
  pose proof (agent_run_inv onRunAgentCommand onSendAgentKeys onAbortAgentCapture
                renderForTerminal evs s0 _ (startAgentLoop_inv userText s0)) as Hinv.
  set (s := Agent.run onRunAgentCommand onSendAgentKeys onAbortAgentCapture renderForTerminal (startAgentLoop userText s0) evs) in *.
  destruct (pc s) eqn:Hpc.
  - apply (calls_over _ _ Hc Hpc).
  - rewrite (calls_paused _ _ Hc Hpc).
    assert ((i s < maxIterations)%nat) by (eapply live_index; [eassumption|congruence]).
    lia.
  - rewrite (calls_busy _ _ Hc) by congruence.
    assert ((i s < maxIterations)%nat) by (eapply live_index; [eassumption|congruence]).
    lia.
  - rewrite (calls_busy _ _ Hc) by congruence.
    assert ((i s < maxIterations)%nat) by (eapply live_index; [eassumption|congruence]).
    lia.
  - rewrite (calls_busy _ _ Hc) by congruence.
    assert ((i s < maxIterations)%nat) by (eapply live_index; [eassumption|congruence]).
    lia.
Qed.

(** The parts of the loop that leave the conversation alone. *)
Lemma finally_history (s : agent) :
  history (finally s) = history s ∧ agentHistory (finally s) = agentHistory s.
Proof. split; reflexivity. Qed.

Lemma loop_top_history (s : agent) :
  history (loop_top s) = history s ∧ agentHistory (loop_top s) = agentHistory s.
Proof.
  unfold loop_top.
  destruct (i s <? maxIterations)%nat, (abortAgentRef s), (pausedResolverRef s);
    split; reflexivity.
Qed.

Lemma after_pause_history (s : agent) :
  history (after_pause s) = history s ∧ agentHistory (after_pause s) = agentHistory s.
Proof.
  unfold after_pause. simpl. destruct (abortAgentRef s); split; reflexivity.
Qed.

Lemma command_done_history (s : agent) (command reasoning : option str) (output : str) :
  let s' := command_done command reasoning output s in
  history s `prefix_of` history s' ∧ agentHistory s' = history s'.
Proof.
  cbn zeta. unfold command_done, next_iteration.
  destruct (timedOut output);
    match goal with |- context [loop_top ?x] =>
      destruct (loop_top_history x) as [-> ->] end;
    simpl; (split; [eexists; reflexivity|reflexivity]).
Qed.

Lemma keys_done_history (s : agent) (keys reasoning : option str) (output : str) :
  let s' := keys_done keys reasoning output s in
  history s `prefix_of` history s' ∧ agentHistory s' = history s'.
Proof.
  cbn zeta. unfold keys_done, next_iteration.
  match goal with |- context [loop_top ?x] =>
    destruct (loop_top_history x) as [-> ->] end.
  simpl. split; [eexists; reflexivity|reflexivity].
Qed.

(** An event of the loop extends the local history and writes it to the
    state, or leaves both alone. *)
Lemma step_history (s : agent) (e : event) :
  let s' := Agent.step onRunAgentCommand onSendAgentKeys onAbortAgentCapture renderForTerminal s e in
  history s `prefix_of` history s' ∧
  (agentHistory s' = history s' ∨
   (agentHistory s' = agentHistory s ∧ history s' = history s)).
Proof.
  cbn zeta. unfold Agent.step.
  assert (Hsame : history s `prefix_of` history s ∧
                  (agentHistory s = history s ∨
                   (agentHistory s = agentHistory s ∧ history s = history s)))
    by (split; [reflexivity|right; split; reflexivity]).
  destruct e as [ps|abort message|output| | |].
  - destruct (pc s); try exact Hsame. unfold model_replied.
    destruct (interpret ps)
      as [text ps'|summary ps'|command reasoning ps'|keys reasoning ps'|message].
    + simpl. split; [eexists; reflexivity|left; reflexivity].
    + simpl. split; [|left; reflexivity].
      rewrite <- app_assoc. eexists; reflexivity.
    + unfold executeAgentCommand. destruct onRunAgentCommand.
      * simpl. exact Hsame.
      * destruct (command_done_history
                    (push_step (command_step command reasoning) (set_isLoading false s))
                    command reasoning no_terminal_for_command) as [H1 H2].
        split; [exact H1|left; exact H2].
    + unfold executeAgentSendKeys. destruct onSendAgentKeys.
      * simpl. exact Hsame.
      * destruct (keys_done_history
                    (push_step (send_keys_step keys reasoning) (set_isLoading false s))
                    keys reasoning no_terminal_for_keys) as [H1 H2].
        split; [exact H1|left; exact H2].
    + unfold model_threw. simpl. exact Hsame.
  - destruct (pc s); exact Hsame.
  - destruct (pc s) as [| | |c r|k r]; try exact Hsame.
    + destruct (command_done_history s c r output) as [H1 H2].
      split; [exact H1|left; exact H2].
    + destruct (keys_done_history s k r output) as [H1 H2].
      split; [exact H1|left; exact H2].
  - assert (H : history s `prefix_of` history (pauseAgent s) ∧
                (agentHistory (pauseAgent s) = history (pauseAgent s) ∨
                 (agentHistory (pauseAgent s) = agentHistory s ∧
                  history (pauseAgent s) = history s))).
    { unfold pauseAgent. destruct (agentRunning s && negb (agentPaused s)); exact Hsame. }
    destruct (pc s); exact H.
  - assert (H : history s `prefix_of` history (resumeAgent s) ∧
                (agentHistory (resumeAgent s) = history (resumeAgent s) ∨
                 (agentHistory (resumeAgent s) = agentHistory s ∧
                  history (resumeAgent s) = history s))).
    { unfold resumeAgent. destruct (pausedResolverRef s); try exact Hsame.
      destruct (after_pause_history (set_pausedResolverRef PNull s)) as [-> ->].
      exact Hsame. }
    destruct (pc s); exact H.
  - assert (H : history s `prefix_of` history (stopAgent onAbortAgentCapture s) ∧
                (agentHistory (stopAgent onAbortAgentCapture s)
                 = history (stopAgent onAbortAgentCapture s) ∨
                 (agentHistory (stopAgent onAbortAgentCapture s) = agentHistory s ∧
                  history (stopAgent onAbortAgentCapture s) = history s))).
    { rewrite stopAgent_unfold. cbn zeta.
      destruct (stop_flags s) as (_ & _ & _ & _ & Eh & Ea). cbn zeta in *.
      match goal with |- context [pausedResolverRef ?x] => set (s3 := x) in * end.
      destruct (pausedResolverRef s3).
      - simpl. rewrite Eh, Ea. exact Hsame.
      - simpl. rewrite Eh, Ea. exact Hsame.
      - destruct (after_pause_history
                    (set_agentPaused false (set_pausedResolverRef PNull s3))) as [-> ->].
        simpl. rewrite Eh, Ea. exact Hsame. }
    destruct (pc s); exact H.
Qed.

(** The state's history is the loop's, or what a Clear click left of it. *)
Lemma run_history (evs : list Chat.event) :
  ∀ s b,
    agentHistory s = history s ∨ (b = true ∧ agentHistory s = []) →
    let s' := Chat.run onRunAgentCommand onSendAgentKeys onAbortAgentCapture renderForTerminal s evs in
    history s `prefix_of` history s' ∧
    (agentHistory s' = history s' ∨
     (b || Chat.cleared evs = true ∧ agentHistory s' = [])).
Proof.
  induction evs as [|e evs IH]; intros s b Hs; cbn zeta.
  - simpl. rewrite orb_false_r. split; [reflexivity|exact Hs].
  - change (Chat.cleared (e :: evs)) with (Chat.is_clear e || Chat.cleared evs).
    rewrite orb_assoc.
    change (Chat.run onRunAgentCommand onSendAgentKeys onAbortAgentCapture
              renderForTerminal s (e :: evs))
      with (Chat.run onRunAgentCommand onSendAgentKeys onAbortAgentCapture
              renderForTerminal
              (Chat.step onRunAgentCommand onSendAgentKeys onAbortAgentCapture
                 renderForTerminal s e) evs).
    destruct e as [e|].
    + destruct (step_history s e) as [H1 H2]. cbn zeta in *.
      destruct (IH (Agent.step onRunAgentCommand onSendAgentKeys onAbortAgentCapture
                      renderForTerminal s e) b) as [H3 H4].
      { destruct H2 as [H2|[H2 H2']]; [left; exact H2|].
        rewrite H2, H2'. exact Hs. }
      cbn zeta in *. simpl. rewrite orb_false_r.
      split; [etransitivity; eassumption|exact H4].
    + destruct (IH (Chat.handleClear s) true) as [H3 H4].
      { right. split; reflexivity. }
      cbn zeta in *. simpl. rewrite orb_true_r.
      split; [exact H3|exact H4].
Qed.

(** X11: the conversation a run works on only grows, and a Clear click
    during the run does not shorten it.  From [startAgentLoop] on, over
    model replies and errors, resolved captures, clicks on stop, pause
    and resume, and clicks on Clear: the loop's history begins with the
    conversation so far followed by the user's prompt; what it held at one
    moment is a prefix of what it holds at any later moment; and the
    history kept in the component's state is the loop's history, or, and
    only after a Clear click, empty. *)
Theorem run_history_only_grows (userText : str) (s0 : agent) (evs1 evs2 : list Chat.event) :
  let s1 := Chat.run onRunAgentCommand onSendAgentKeys onAbortAgentCapture renderForTerminal
    (startAgentLoop userText s0) evs1 in
  let s2 := Chat.run onRunAgentCommand onSendAgentKeys onAbortAgentCapture renderForTerminal s1 evs2 in
  (agentHistory s0 ++ [Entry User [Text userText]]) `prefix_of` history s1 ∧
  history s1 `prefix_of` history s2 ∧
  (agentHistory s1 = history s1 ∨
   (Chat.cleared evs1 = true ∧ agentHistory s1 = [])) ∧
  (agentHistory s2 = history s2 ∨
   (Chat.cleared (evs1 ++ evs2) = true ∧ agentHistory s2 = [])).
Proof.
  cbn zeta.
  assert (H0 : history (startAgentLoop userText s0)
               = agentHistory s0 ++ [Entry User [Text userText]] ∧
               agentHistory (startAgentLoop userText s0)
               = history (startAgentLoop userText s0)).
  { unfold startAgentLoop.
    match goal with |- context [loop_top ?x] =>
      destruct (loop_top_history x) as [-> ->] end.
    split; reflexivity. }
  destruct H0 as [Hh Ha].
  destruct (run_history evs1 (startAgentLoop userText s0) false (or_introl Ha))
    as [H1 H2].
  destruct (run_history (evs1 ++ evs2) (startAgentLoop userText s0) false (or_introl Ha))
    as [_ H4].
  cbn zeta in *. unfold Chat.run in H4. rewrite fold_left_app in H4.
  fold (Chat.run onRunAgentCommand onSendAgentKeys onAbortAgentCapture
          renderForTerminal (startAgentLoop userText s0) evs1) in H4.
  set (s1 := Chat.run onRunAgentCommand onSendAgentKeys onAbortAgentCapture renderForTerminal
    (startAgentLoop userText s0) evs1) in *.
  destruct (run_history evs2 s1 (Chat.cleared evs1) H2) as [H3 _]. cbn zeta in *.
  rewrite Hh in H1. simpl in H2, H4.
  split; [exact H1|]. split; [exact H3|].
  split; [exact H2|exact H4].
Qed.

(** A Clear click while a command runs empties the state's history and
    leaves the loop's; when the output arrives the loop writes its
    history, with the output, back to the state. *)
Lemma clear_during_command :
  let s1 := Chat.run true true true (λ x, x)
              (startAgentLoop (js "list the files") Agent.initial) Chat.cleared_run in
  let s2 := Chat.step true true true (λ x, x) s1 (Chat.Loop (CaptureResolved (js "ok"))) in
  agentHistory s1 = [] ∧ length (history s1) = 1%nat ∧
  agentHistory s2 = history s2 ∧ length (history s2) = 3%nat.
Proof. vm_compute. repeat split; reflexivity. Qed.

(** X12: a command whose output reads as a timeout ends the run: its step
    gets the status [timeout], a note is shown to the user, the stop latch
    is set, and at the next turn of the loop the step [aborted] is
    recorded and the run is over, the model not being called again. *)
Theorem timed_out_command_ends_run
  (s : agent) (command reasoning : option str) (output : str)
  (Hpc : pc s = AwaitCommand command reasoning)
  (Houtput : timedOut output = true)
  (Hroom : (S (i s) < maxIterations)%nat) :
  let s' := Agent.step onRunAgentCommand onSendAgentKeys onAbortAgentCapture renderForTerminal
              s (CaptureResolved output) in
  pc s' = Idle ∧ agentRunning s' = false ∧ abortAgentRef s' = true ∧
  agentSteps s' =
  map_last (with_output output Timeout) (agentSteps s) ++ [aborted_step] ∧
  messages s' = messages s ++ [Message MSystem input_note] ∧
  calls s' = calls s.
Proof.
  cbn zeta. unfold Agent.step. rewrite Hpc.
  unfold command_done, command_status. rewrite Houtput.
  unfold next_iteration, loop_top. simpl.
  apply Nat.ltb_lt in Hroom. rewrite Hroom. simpl.
  repeat split; reflexivity.
Qed.

(** X13: a pause clicked while a command is running, in a run that is
    going on, is not paused and has not been stopped, does not disturb the
    command.  Provided the output that arrives does not read as a timeout
    and the iteration is not the last one the cap allows ([i + 1 < 20]),
    the loop records the output and then waits, without calling the model;
    a resume makes it call the model, with the history that holds that
    output.  (On a timeout, or on the twentieth iteration, the run ends
    instead: for the latter see [pause_on_last_iteration_ends_run].) *)
Theorem pause_takes_effect_at_next_iteration
  (s : agent) (command reasoning : option str) (output : str)
  (Hpc : pc s = AwaitCommand command reasoning)
  (Hrunning : agentRunning s = true) (Hpaused : agentPaused s = false)
  (Hlatch : abortAgentRef s = false)
  (Houtput : timedOut output = false)
  (Hroom : (S (i s) < maxIterations)%nat) :
  let s1 := Agent.run onRunAgentCommand onSendAgentKeys onAbortAgentCapture renderForTerminal s
              [PauseAgent; CaptureResolved output] in
  let s2 := Agent.step onRunAgentCommand onSendAgentKeys onAbortAgentCapture renderForTerminal
              s1 ResumeAgent in
  pc s1 = AwaitPause ∧ agentPaused s1 = true ∧ calls s1 = calls s ∧
  agentSteps s1 = map_last (with_output output Done) (agentSteps s) ∧
  pc s2 = AwaitModel ∧ agentPaused s2 = false ∧
  calls s2 = calls s ++ [CallModel (history s1)] ∧
  history s1 =
  history s ++
  call_entries (js "run_command")
    (FunctionCall (js "run_command") (Some (Args command None reasoning None)))
    (Output output).
Proof.
  destruct s as [msgs ah steps running paused stopping loading latch ctl
                 resolver prompt hist n at_pc aborted cs].
  simpl in *. subst. cbn zeta.
  apply Nat.ltb_lt in Hroom.
  unfold Agent.run, Agent.step, pauseAgent. simpl.
  unfold command_done, command_status, next_iteration, loop_top.
  rewrite Houtput. simpl. rewrite Hroom. simpl.
  unfold resumeAgent, after_pause. simpl.
  repeat split; reflexivity.
Qed.

(** On the twentieth iteration the pause comes too late: when the output
    arrives the loop test fails and the run ends, the pause request being
    dropped by the [finally] block. *)
Lemma pause_on_last_iteration_ends_run
  (s : agent) (command reasoning : option str) (output : str) :
  pc s = AwaitCommand command reasoning →
  agentRunning s = true → agentPaused s = false →
  S (i s) = maxIterations →
  let s1 := Agent.run onRunAgentCommand onSendAgentKeys onAbortAgentCapture renderForTerminal s
              [PauseAgent; CaptureResolved output] in
  pc s1 = Idle ∧ agentRunning s1 = false ∧ pausedResolverRef s1 = PNull ∧
  calls s1 = calls s.
Proof.
  intros Hpc Hrunning Hpaused Hlast.
  destruct s as [msgs ah steps running paused stopping loading latch ctl
                 resolver prompt hist n at_pc aborted cs].
  simpl in *. subst.
  assert (n = 19%nat) by (unfold maxIterations in Hlast; lia). subst n. cbn zeta.
  unfold Agent.run, Agent.step, pauseAgent. simpl.
  unfold command_done, next_iteration, loop_top. simpl.
  destruct (timedOut output); simpl; repeat split; reflexivity.
Qed.

(** A resume does something only when the loop is waiting on a pause;
    doing it twice is doing it once. *)
Lemma resume_is_idempotent (s : agent) :
  resumeAgent (resumeAgent s) = resumeAgent s ∧
  (if pausedResolverRef s is PResolve then True else resumeAgent s = s).
Proof.
  assert (H : ∀ x, pausedResolverRef x ≠ PResolve → resumeAgent x = x).
  { intros x Hx. unfold resumeAgent. destruct (pausedResolverRef x); congruence. }
  destruct (pausedResolverRef s) eqn:Hp.
  - rewrite !(H s) by congruence. split; reflexivity.
  - rewrite !(H s) by congruence. split; reflexivity.
  - split; [|exact I]. apply H. unfold resumeAgent. rewrite Hp.
    unfold after_pause. simpl. destruct (abortAgentRef s); simpl; discriminate.
Qed.

End RunFacts.

Lemma timed_out_command_ends_run_witness :
  let s := Agent.run true true true (λ x, x)
             (Agent.startAgentLoop (js "ask for x") Agent.initial)
             Runs.command_pending in
  let s' := Agent.step true true true (λ x, x) s
              (Agent.CaptureResolved Terminal.command_timed_out) in
  Agent.pc s' = Agent.Idle ∧ Agent.agentRunning s' = false ∧
  Agent.abortAgentRef s' = true ∧
  Agent.agentSteps s' =
  Agent.map_last (Agent.with_output Terminal.command_timed_out Agent.Timeout)
    (Agent.agentSteps s) ++ [Agent.aborted_step] ∧
  Agent.messages s' =
  Agent.messages s ++ [Agent.Message Agent.MSystem Agent.input_note] ∧
  Agent.calls s' = Agent.calls s.
Proof.
  apply (timed_out_command_ends_run true true true (λ x, x)
           (Agent.run true true true (λ x, x)
              (Agent.startAgentLoop (js "ask for x") Agent.initial)
              Runs.command_pending)
           (Some (js "read x")) (Some (js "look")) Terminal.command_timed_out);
    [vm_compute; reflexivity|vm_compute; reflexivity|vm_compute; lia].
Defined.

Lemma pause_takes_effect_at_next_iteration_witness :
  let s := Agent.run true true true (λ x, x)
             (Agent.startAgentLoop (js "ask for x") Agent.initial)
             Runs.command_pending in
  let s1 := Agent.run true true true (λ x, x) s
              [Agent.PauseAgent; Agent.CaptureResolved (js "ok")] in
  let s2 := Agent.step true true true (λ x, x) s1 Agent.ResumeAgent in
  Agent.pc s1 = Agent.AwaitPause ∧ Agent.agentPaused s1 = true ∧
  Agent.calls s1 = Agent.calls s ∧
  Agent.agentSteps s1 =
  Agent.map_last (Agent.with_output (js "ok") Agent.Done) (Agent.agentSteps s) ∧
  Agent.pc s2 = Agent.AwaitModel ∧ Agent.agentPaused s2 = false ∧
  Agent.calls s2 = Agent.calls s ++ [Agent.CallModel (Agent.history s1)] ∧
  Agent.history s1 =
  Agent.history s ++
  Agent.call_entries (js "run_command")
    (Agent.FunctionCall (js "run_command")
       (Some (Agent.Args (Some (js "read x")) None (Some (js "look")) None)))
    (Agent.Output (js "ok")).
Proof.
  apply (pause_takes_effect_at_next_iteration true true true (λ x, x)
           (Agent.run true true true (λ x, x)
              (Agent.startAgentLoop (js "ask for x") Agent.initial)
              Runs.command_pending)
           (Some (js "read x")) (Some (js "look")) (js "ok"));
    try (vm_compute; reflexivity). vm_compute; lia.
Defined.

(** ** Input and the backends *)

Section InputFacts.

Import Bridge Inputs.
Local Open Scope Z_scope.

Lemma input_detached (pty : bool) (evs : list event) :
  ∀ s,
    ptyProcess s = None → sshStream s = None → forallb is_input evs = true →
    ∃ s', run pty s evs = Some s' ∧ trace s' = trace s ∧
          ptyProcess s' = None ∧ sshStream s' = None ∧ sshClient s' = sshClient s.
Proof.
  induction evs as [|e evs IH]; intros s Hp Hst Hin; simpl in *.
  - exists s. auto.
  - apply andb_true_iff in Hin as [He Hin].
    destruct e as [|d|c r| | | | | | | |]; try discriminate He; simpl.
    + assert (E : writeToBackend d s = s)
        by (unfold writeToBackend; rewrite Hp, Hst; reflexivity).
      rewrite E. apply IH; assumption.
    + rewrite resize_detached by assumption.
      destruct (IH (set_pendingSize (Size r c) s)) as (s' & H1 & H2 & H3 & H4 & H5);
        try assumption.
      exists s'. auto.
Qed.

(** X15: while no pty and no shell stream is attached, data and resize
    messages from the client go nowhere: nothing is written to or resized
    on any backend, nothing is sent back, and nothing is kept for later
    but the last size. *)
Theorem input_without_backend_is_dropped
  (pty : bool) (s : session) (evs : list event)
  (Hpty : ptyProcess s = None) (Hstream : sshStream s = None)
  (Hinput : forallb is_input evs = true) :
  ∃ s', run pty s evs = Some s' ∧ trace s' = trace s ∧
        ptyProcess s' = None ∧ sshStream s' = None ∧ sshClient s' = sshClient s.
Proof. apply input_detached; assumption. Qed.

Lemma input_without_backend_is_dropped_witness :
  ∃ s', run true connected [SshData (js "ls"); SshResize 120 40; SshData [CR]] = Some s' ∧
        trace s' = trace connected ∧
        ptyProcess s' = None ∧ sshStream s' = None ∧ sshClient s' = sshClient connected.
Proof.
  apply (input_without_backend_is_dropped true connected
           [SshData (js "ls"); SshResize 120 40; SshData [CR]]); reflexivity.
Defined.

(** X16: after the client has gone, whatever backend the session had, the
    teardown is the last thing done to it: data and resizes that still
    arrive change nothing on any backend. *)
Theorem nothing_reaches_backend_after_disconnect
  (pty : bool) (s : session) (evs : list event)
  (Hinput : forallb is_input evs = true) :
  ∃ s', run pty s (Disconnect :: evs) = Some s' ∧
        trace s' = trace s ++ teardown_effects s ∧
        ptyProcess s' = None ∧ sshStream s' = None ∧ sshClient s' = None.
Proof.
  destruct (cleanupBackend_handles s) as (Hp & Hst & Hc).
  destruct (input_detached pty evs (cleanupBackend s) Hp Hst Hinput)
    as (s' & H1 & H2 & H3 & H4 & H5).
  exists s'. simpl. split; [exact H1|].
  rewrite H2, cleanupBackend_trace, H5. auto.
Qed.

Lemma nothing_reaches_backend_after_disconnect_witness :
  let s := Session (Some 0%nat) (Some 1%nat) None (Size 24 80) [] 2 in
  ∃ s', run true s (Disconnect :: [SshData (js "ls"); SshResize 120 40]) = Some s' ∧
        trace s' = trace s ++ teardown_effects s ∧
        ptyProcess s' = None ∧ sshStream s' = None ∧ sshClient s' = None.
Proof.
  apply (nothing_reaches_backend_after_disconnect true
           (Session (Some 0%nat) (Some 1%nat) None (Size 24 80) [] 2)
           [SshData (js "ls"); SshResize 120 40]).
  reflexivity.
Defined.

Lemma no_pty_step (s s' : session) (e : event) :
  ptyProcess s = None → Forall (λ x, is_pty_effect x = false) (trace s) →
  step false s e = Some s' →
  ptyProcess s' = None ∧ Forall (λ x, is_pty_effect x = false) (trace s').
Proof.
  intros Hp Htr Hstep.
  assert (Hadd : ∀ x, is_pty_effect x = false →
                      Forall (λ x, is_pty_effect x = false) (trace s ++ [x])).
  { intros x Hx. apply Forall_app. split; [exact Htr|]. apply Forall_singleton, Hx. }
  destruct s as [c st p sz tr n]. simpl in Hp. subst p.
  destruct e; simpl in Hstep.
  - injection Hstep as <-. unfold ssh_connect.
    destruct (isLocal cr); simpl; split; try reflexivity; apply Hadd; reflexivity.
  - injection Hstep as <-. unfold writeToBackend. simpl.
    destruct st; simpl; split; try reflexivity; try exact Htr.
    apply Hadd. reflexivity.
  - injection Hstep as <-. unfold resizeBackend. simpl.
    destruct st; simpl; split; try reflexivity; try exact Htr.
    apply Hadd. reflexivity.
  - injection Hstep as <-. unfold cleanupBackend. simpl.
    destruct st, c; simpl; split; try reflexivity; try exact Htr;
      rewrite <- ?app_assoc; apply Forall_app; split; try exact Htr;
      repeat constructor.
  - unfold client_ready in Hstep. simpl in Hstep. destruct c; [|discriminate].
    injection Hstep as <-. simpl. split; [reflexivity|].
    rewrite <- app_assoc. apply Forall_app. split; [exact Htr|]. repeat constructor.
  - injection Hstep as <-. destruct r; simpl; split; try reflexivity;
      apply Hadd; reflexivity.
  - injection Hstep as <-. simpl. split; [reflexivity|]. apply Hadd. reflexivity.
  - injection Hstep as <-. simpl. split; [reflexivity|]. apply Hadd. reflexivity.
  - injection Hstep as <-. unfold stream_close. simpl.
    destruct c; simpl; split; try reflexivity; try (apply Hadd; reflexivity).
    rewrite <- app_assoc. apply Forall_app. split; [exact Htr|]. repeat constructor.
  - injection Hstep as <-. simpl. split; [reflexivity|]. apply Hadd. reflexivity.
  - injection Hstep as <-. simpl. split; [reflexivity|]. apply Hadd. reflexivity.
Qed.

(** X17: where node-pty could not be loaded, no session ever gets a local
    pty: whatever the client and the backends do, no pty is spawned,
    written to, resized or killed. *)
Theorem no_pty_without_node_pty (evs : list event) (s' : session)
  (Hrun : run false connected evs = Some s') :
  ptyProcess s' = None ∧ Forall (λ x, is_pty_effect x = false) (trace s').
Proof.
  assert (H : ∀ s, ptyProcess s = None →
                   Forall (λ x, is_pty_effect x = false) (trace s) →
                   run false s evs = Some s' →
                   ptyProcess s' = None ∧
                   Forall (λ x, is_pty_effect x = false) (trace s')).
  { clear Hrun. induction evs as [|e evs IH]; intros s Hp Htr Hr; simpl in Hr.
    - injection Hr as <-. auto.
    - destruct (step false s e) as [s1|] eqn:Hs; [|discriminate].
      destruct (no_pty_step s s1 e Hp Htr Hs) as [Hp1 Htr1].
      apply (IH s1); assumption. }
  apply (H connected); [reflexivity|constructor|exact Hrun].
Qed.

Lemma no_pty_without_node_pty_witness :
  let s' := perform (EmitError no_pty) connected in
  run false connected [SshConnect local_host] = Some s' ∧
  ptyProcess s' = None ∧ Forall (λ x, is_pty_effect x = false) (trace s').
Proof.
  split; [reflexivity|].
  apply (no_pty_without_node_pty [SshConnect local_host]). reflexivity.
Defined.

End InputFacts.

(** ** The cache of Vertex AI clients *)

Section VertexFacts.

Import Vertex.

(** What holds of the cache however it was filled. *)
Lemma serve_inv (rs : list (str * str)) :
  ∀ c,
    size (clientCache c) = constructed c →
    (∀ k v, clientCache c !! k = Some v →
            cache_key (project v) (location v) = k) →
    let c' := serve c rs in
    size (clientCache c') = constructed c' ∧
    (∀ k v, clientCache c' !! k = Some v →
            cache_key (project v) (location v) = k) ∧
    (constructed c' ≤ constructed c + length rs)%nat.
Proof.
  induction rs as [|[p l] rs IH]; intros c Hsize Hkey; cbn zeta.
  - simpl. split; [exact Hsize|]. split; [exact Hkey|lia].
  - change (serve c ((p, l) :: rs)) with (serve (getVertexClient p l c).2 rs).
    unfold getVertexClient.
    destruct (clientCache c !! cache_key p l) as [v|] eqn:Hlk; cbn [snd].
    + destruct (IH c Hsize Hkey) as (H1 & H2 & H3). cbn zeta in *.
      split; [exact H1|]. split; [exact H2|]. simpl. lia.
    + destruct (IH (Cache (<[cache_key p l := Client (constructed c) p l]> (clientCache c))
                      (S (constructed c)))) as (H1 & H2 & H3).
      * simpl. rewrite map_size_insert_None by exact Hlk. lia.
      * simpl. intros k v Hv. rewrite lookup_insert in Hv.
        destruct (decide (cache_key p l = k)) as [<-|Hne].
        -- injection Hv as <-. reflexivity.
        -- apply Hkey, Hv.
      * cbn zeta in *. simpl in H3.
        split; [exact H1|]. split; [exact H2|]. simpl. lia.
Qed.

(** X18: the cache of Vertex AI clients holds one client for each key
    asked for so far: as many clients were constructed as it has keys, at
    most one for each request.  A request whose key is known constructs
    nothing and is given the cached client, so asking twice gives the same
    client; the client given was constructed for a project and a location
    that make the same key as those asked for. *)
Theorem vertex_client_cached_per_key (rs : list (str * str)) (p l : str) :
  let c := serve empty rs in
  let (v, c1) := getVertexClient p l c in
  size (clientCache c) = constructed c ∧
  (constructed c ≤ length rs)%nat ∧
  getVertexClient p l c1 = (v, c1) ∧
  cache_key (project v) (location v) = cache_key p l ∧
  (constructed c1 ≤ S (constructed c))%nat ∧
  (is_Some (clientCache c !! cache_key p l) → c1 = c).
Proof.
  cbn zeta.
  destruct (serve_inv rs empty) as (Hsize & Hkey & Hle);
    [reflexivity|intros k v Hv; simpl in Hv; rewrite lookup_empty in Hv; discriminate|].
  cbn zeta in *. set (c := serve empty rs) in *.
  unfold getVertexClient at 1.
  destruct (clientCache c !! cache_key p l) as [v|] eqn:Hlk.
  - split; [exact Hsize|]. split; [simpl in Hle; lia|].
    split; [unfold getVertexClient; rewrite Hlk; reflexivity|].
    split; [apply Hkey, Hlk|]. split; [lia|]. reflexivity.
  - split; [exact Hsize|]. split; [simpl in Hle; lia|].
    split; [unfold getVertexClient; simpl; rewrite lookup_insert_eq; reflexivity|].
    split; [reflexivity|]. split; [simpl; lia|].
    intros [x Hx]. discriminate Hx.
Qed.

End VertexFacts.

(** ** Tabs and the agent's terminal *)

Section AppFacts.

Import App.

Lemma ids_filter (x : nat) (ts : list tab) :
  id <$> List.filter (λ t, negb (id t =? x)%nat) ts
  = List.filter (λ y, negb (y =? x)%nat) (id <$> ts).
Proof.
  induction ts as [|t ts IH]; [reflexivity|].
  cbn [List.filter]. rewrite fmap_cons. cbn [List.filter].
  destruct (id t =? x)%nat; cbn [negb]; [exact IH|].
  rewrite fmap_cons, IH. reflexivity.
Qed.

Lemma ids_status (x : nat) (st : str) (ts : list tab) :
  id <$> map (λ t, if (id t =? x)%nat
                   then Tab (id t) (type t) (connection t) st else t) ts
  = id <$> ts.
Proof.
  induction ts as [|t ts IH]; [reflexivity|].
  cbn [map]. rewrite !fmap_cons, IH. destruct (id t =? x)%nat; reflexivity.
Qed.

Lemma elem_of_filter_ne (x y : nat) (l : list nat) :
  y ∈ List.filter (λ z, negb (z =? x)%nat) l ↔ y ∈ l ∧ y ≠ x.
Proof.
  rewrite !list_elem_of_In, List.filter_In, negb_true_iff, Nat.eqb_neq.
  reflexivity.
Qed.

Lemma open_tab_inv (ty : tab_type) (conn : option Bridge.credentials) (a : app) :
  tabs_inv a → tabs_inv (open_tab ty conn a).
Proof.
  intros [Hn Hd Hr Ha Hf]. unfold open_tab, ids in *.
  split; unfold ids; cbn [tabs activeTab showForm nextId];
    rewrite ?fmap_app, ?fmap_cons; cbn [id fmap list_fmap].
  - lia.
  - apply NoDup_snoc; [exact Hd|].
    intros Hin. rewrite Forall_forall in Hr. specialize (Hr _ Hin). lia.
  - apply Forall_app. split.
    + eapply Forall_impl; [exact Hr|]. cbn beta. intros x Hx. lia.
    + apply Forall_singleton. lia.
  - intros x [= <-]. apply elem_of_app. right. apply list_elem_of_here.
  - split; discriminate.
Qed.

Lemma close_tab_inv (x : nat) (a : app) : tabs_inv a → tabs_inv (handleCloseTab x a).
Proof.
  intros [Hn Hd Hr Ha Hf]. unfold handleCloseTab.
  set (updated := List.filter (λ t, negb (id t =? x)%nat) (tabs a)).
  assert (Hids : id <$> updated = List.filter (λ y, negb (y =? x)%nat) (ids a))
    by apply ids_filter.
  assert (Hd' : NoDup (id <$> updated))
    by (rewrite Hids; apply NoDup_ListNoDup, List.NoDup_filter, NoDup_ListNoDup, Hd).
  assert (Hr' : Forall (λ y, (1 ≤ y < nextId a)%nat) (id <$> updated)).
  { rewrite Hids. apply Forall_forall. intros y Hy.
    apply elem_of_filter_ne in Hy as [Hy _].
    rewrite Forall_forall in Hr. apply Hr, Hy. }
  destruct (is_active x a) eqn:Hact.
  - destruct (last updated) as [t|] eqn:Hlast.
    + split; unfold ids; cbn [tabs activeTab showForm nextId]; try assumption.
      * intros y [= <-]. apply list_elem_of_fmap_2.
        apply last_Some_elem_of, Hlast.
      * split; discriminate.
    + split; unfold ids; cbn [tabs activeTab showForm nextId]; try assumption.
      * discriminate.
      * split; reflexivity.
  - split; unfold ids; cbn [tabs activeTab showForm nextId]; try assumption.
    intros y Hy. rewrite Hids. apply elem_of_filter_ne. split; [apply Ha, Hy|].
    intros ->. unfold is_active in Hact. rewrite Hy, Nat.eqb_refl in Hact.
    discriminate.
Qed.

Lemma app_step_inv (a : app) (e : event) :
  tabs_inv a →
  match e with SwitchTab x => x ∈ ids a | _ => True end →
  tabs_inv (step a e).
Proof.
  intros Hinv He. destruct e; cbn [step]; try (apply open_tab_inv, Hinv).
  - destruct Hinv as [Hn Hd Hr Ha Hf]. unfold handleStatusChange, ids in *.
    split; unfold ids; cbn [tabs activeTab showForm nextId]; rewrite ?ids_status;
      assumption.
  - apply close_tab_inv, Hinv.
  - destruct Hinv as [Hn Hd Hr Ha Hf].
    split; unfold ids, handleNewTab in *; cbn [tabs activeTab showForm nextId];
      try assumption.
    + discriminate.
    + split; reflexivity.
  - destruct Hinv as [Hn Hd Hr Ha Hf].
    split; unfold ids, switchTab in *; cbn [tabs activeTab showForm nextId];
      try assumption.
    + intros y [= <-]. exact He.
    + split; discriminate.
Qed.

Lemma app_run_inv (evs : list event) :
  ∀ a, tabs_inv a → offered a evs = true → tabs_inv (run a evs).
Proof.
  induction evs as [|e evs IH]; intros a Hinv Hok; simpl in *; [exact Hinv|].
  apply andb_true_iff in Hok as [He Hok].
  apply IH; [|exact Hok]. apply app_step_inv; [exact Hinv|].
  destruct e; try exact I. apply bool_decide_eq_true in He. exact He.
Qed.

Lemma initial_tabs_inv : tabs_inv initial.
Proof.
  split; simpl.
  - lia.
  - constructor.
  - constructor.
  - discriminate.
  - split; reflexivity.
Qed.

(** X19: however tabs are opened, switched to, updated and closed, no two
    open tabs share an id, the active tab is an open tab whenever there is
    one, and the connection form is shown exactly when no tab is active. *)
Theorem active_tab_is_open (evs : list event)
  (Hoffered : offered initial evs = true) :
  tabs_inv (run initial evs).
Proof. apply app_run_inv; [apply initial_tabs_inv|exact Hoffered]. Qed.

Lemma active_tab_is_open_witness :
  offered initial session_of_tabs = true ∧ tabs_inv (run initial session_of_tabs).
Proof.
  split; [vm_compute; reflexivity|].
  apply (active_tab_is_open session_of_tabs). vm_compute; reflexivity.
Defined.

Lemma sshTabId_spec (a : app) :
  match sshTabId a with
  | Some x => ∃ t, t ∈ tabs a ∧ id t = x ∧ is_ssh t = true
  | None => Forall (λ t, is_ssh t = false) (tabs a)
  end.
Proof.
  unfold sshTabId.
  destruct (truthy (activeTab a) &&
            bool_decide (is_Some (List.find (λ t, is_active (id t) a && is_ssh t) (tabs a))))
    eqn:E.
  - apply andb_true_iff in E as [Ht Hf]. apply bool_decide_eq_true in Hf as [t Hf].
    apply List.find_some in Hf as [Hin Hp]. apply andb_true_iff in Hp as [Hact Hssh].
    unfold is_active in Hact. destruct (activeTab a) as [x|]; [|discriminate].
    apply Nat.eqb_eq in Hact. exists t. rewrite list_elem_of_In. auto.
  - destruct (List.find is_ssh (tabs a)) as [t|] eqn:F; simpl.
    + apply List.find_some in F as [Hin Hssh]. exists t.
      rewrite list_elem_of_In. auto.
    + apply Forall_forall. intros t Hin. apply list_elem_of_In in Hin.
      apply (List.find_none _ _ F t Hin).
Qed.

Lemma truthy_open (a : app) (x : nat) : tabs_inv a → x ∈ ids a → truthy (Some x) = true.
Proof.
  intros Hinv Hx. pose proof (ids_range _ Hinv) as Hr.
  rewrite Forall_forall in Hr. specialize (Hr x Hx).
  destruct x; [lia|reflexivity].
Qed.

(** X20: a command or keys call of the agent is handed to a Terminal only
    if that Terminal is mounted and belongs to an open ssh tab; it is
    answered "(No SSH terminal connected)" exactly when no ssh tab is
    open; and when the active tab is an ssh tab it is the one chosen, even
    if other ssh tabs were opened before it. *)
Theorem agent_calls_go_to_an_ssh_tab (evs : list event) (terminalRefs : list nat)
  (Hoffered : offered initial evs = true) :
  let a := run initial evs in
  (∀ x, handleRunAgentCommand terminalRefs a = ToTerminal x →
        x ∈ terminalRefs ∧ ∃ t, t ∈ tabs a ∧ id t = x ∧ is_ssh t = true) ∧
  (handleRunAgentCommand terminalRefs a = Answer no_ssh_terminal
   ↔ Forall (λ t, is_ssh t = false) (tabs a)) ∧
  (∀ t, t ∈ tabs a → is_ssh t = true → activeTab a = Some (id t) →
        sshTabId a = Some (id t)).
Proof.
  cbn zeta. set (a := run initial evs).
  assert (Hinv : tabs_inv a) by (apply app_run_inv; [apply initial_tabs_inv|exact Hoffered]).
  pose proof (sshTabId_spec a) as Hspec.
  split; [|split].
  - intros x Hx. unfold handleRunAgentCommand in Hx.
    destruct (sshTabId a) as [y|]; [|destruct (truthy None); discriminate].
    destruct (truthy (Some y)); [|discriminate].
    destruct (bool_decide (y ∈ terminalRefs)) eqn:Hr; [|discriminate].
    injection Hx as <-. apply bool_decide_eq_true in Hr. auto.
  - unfold handleRunAgentCommand.
    destruct (sshTabId a) as [y|] eqn:Hy.
    + destruct Hspec as (t & Hin & Hid & Hssh).
      rewrite (truthy_open a y Hinv)
        by (subst y; apply list_elem_of_fmap_2, Hin).
      split.
      * destruct (bool_decide (y ∈ terminalRefs)); [discriminate|].
        intros H. vm_compute in H. discriminate H.
      * intros Hall. rewrite Forall_forall in Hall.
        rewrite (Hall t Hin) in Hssh. discriminate.
    + simpl. split; [intros _; exact Hspec|reflexivity].
  - intros t Hin Hssh Hact. unfold sshTabId.
    assert (Hid : id t ∈ ids a) by apply list_elem_of_fmap_2, Hin.
    rewrite Hact at 1. rewrite (truthy_open a (id t) Hinv Hid).
    destruct (List.find (λ t0, is_active (id t0) a && is_ssh t0) (tabs a)) as [u|] eqn:F.
    + rewrite bool_decide_eq_true_2 by eauto. simpl. exact Hact.
    + exfalso. apply list_elem_of_In in Hin.
      pose proof (List.find_none _ _ F t Hin) as Hn. cbn beta in Hn.
      unfold is_active in Hn. rewrite Hact, Nat.eqb_refl, Hssh in Hn.
      discriminate.
Qed.

Lemma agent_calls_go_to_an_ssh_tab_witness :
  offered initial session_of_tabs = true ∧
  let a := run initial session_of_tabs in
  (∀ x, handleRunAgentCommand [3%nat] a = ToTerminal x →
        x ∈ [3%nat] ∧ ∃ t, t ∈ tabs a ∧ id t = x ∧ is_ssh t = true) ∧
  (handleRunAgentCommand [3%nat] a = Answer no_ssh_terminal
   ↔ Forall (λ t, is_ssh t = false) (tabs a)) ∧
  (∀ t, t ∈ tabs a → is_ssh t = true → activeTab a = Some (id t) →
        sshTabId a = Some (id t)).
Proof.
  split; [vm_compute; reflexivity|].
  apply (agent_calls_go_to_an_ssh_tab session_of_tabs [3%nat]).
  vm_compute; reflexivity.
Defined.

End AppFacts.

(** ** The input line and its history *)

Section PromptFacts.

Import Prompt.
Local Open Scope Z_scope.

Lemma entry_in_range (l : list str) (k : Z) :
  0 ≤ k < Z.of_nat (length l) → is_Some (entry l k).
Proof.
  intros Hk. unfold entry. destruct (k <? 0) eqn:E; [apply Z.ltb_lt in E; lia|].
  apply lookup_lt_is_Some. lia.
Qed.

Lemma prompt_step_in_range (p : prompt) (e : event) :
  in_range p → clears p e = false → in_range (step p e).
Proof.
  intros [Hidx Hin] Hc. destruct e; simpl in *.
  - unfold arrowUp. destruct (0 <? len p) eqn:E; [|split; assumption].
    apply Z.ltb_lt in E. unfold in_range, len in *. simpl.
    assert (Hr : 0 ≤ Z.min (historyIndex p + 1) (Z.of_nat (length (commandHistory p)) - 1)
                 < Z.of_nat (length (commandHistory p))) by lia.
    split; [right; exact Hr|apply entry_in_range, Hr].
  - unfold arrowDown. destruct (0 <? historyIndex p) eqn:E.
    + apply Z.ltb_lt in E. unfold in_range, len in *. simpl.
      assert (Hr : 0 ≤ historyIndex p - 1 < Z.of_nat (length (commandHistory p))) by lia.
      split; [right; exact Hr|apply entry_in_range, Hr].
    + split; simpl; [left; reflexivity|eauto].
  - split; simpl; [exact Hidx|eauto].
  - unfold handleSend. destruct (input p) as [typed|] eqn:Hi; [|split; rewrite ?Hi; assumption].
    destruct (trim typed) as [|c text] eqn:Ht; [split; rewrite ?Hi; assumption|].
    destruct busy; [split; rewrite ?Hi; assumption|].
    rewrite Hc.
    destruct (Terminal.eqb_str (c :: text) (js "help")
              || Terminal.eqb_str (c :: text) (js "model")).
    + split; simpl; [exact Hidx|eauto].
    + split; simpl; [left; reflexivity|eauto].
  - discriminate.
  - split; simpl; [left; reflexivity|eauto].
Qed.

(** X21: in the input line of the chat, as long as the history is not
    emptied by the Clear button or by sending the word [clear], the arrow
    keys never leave the history: the index is -1 or the index of an
    entry, and the input is always a string, whatever is typed, sent or
    recalled, and after a new chat as well. *)
Theorem history_navigation_stays_in_range (loaded : list str) (evs : list event)
  (Hkept : never_cleared (mounted loaded) evs = true) :
  in_range (run (mounted loaded) evs).
Proof.
  assert (H : ∀ p, in_range p → never_cleared p evs = true → in_range (run p evs)).
  { clear Hkept. induction evs as [|e evs IH]; intros p Hp Hk; simpl in *; [exact Hp|].
    apply andb_true_iff in Hk as [Hc Hk]. apply negb_true_iff in Hc.
    apply IH; [apply prompt_step_in_range; assumption|exact Hk]. }
  apply H; [|exact Hkept]. split; simpl; [left; reflexivity|eauto].
Qed.

Lemma history_navigation_stays_in_range_witness :
  never_cleared (mounted [js "whoami"]) browsing = true ∧
  in_range (run (mounted [js "whoami"]) browsing).
Proof.
  split; [vm_compute; reflexivity|].
  apply (history_navigation_stays_in_range [js "whoami"] browsing).
  vm_compute; reflexivity.
Defined.

(** X22: the Clear button empties the history and leaves the index where
    it is.  When an entry other than the newest was being shown, the next
    ArrowDown reads an entry that is no longer there and sets the input
    to undefined; [handleSend] then fails on [input.trim()] before it
    sets anything. *)
Theorem arrow_down_after_clear_loses_input (p : prompt) (busy : bool)
  (Hshown : 0 < historyIndex p) :
  let p' := arrowDown (handleClear p) in
  input p' = None ∧ commandHistory p' = [] ∧
  historyIndex p' = historyIndex p - 1 ∧
  handleSend busy p' = p'.
Proof.
  cbn zeta. unfold arrowDown, handleClear. simpl.
  apply Z.ltb_lt in Hshown. rewrite Hshown. simpl.
  assert (He : entry [] (historyIndex p - 1) = None).
  { unfold entry. destruct (historyIndex p - 1 <? 0); [reflexivity|].
    apply lookup_nil. }
  rewrite He. repeat split.
Qed.

Lemma arrow_down_after_clear_loses_input_witness :
  let p := Prompt (Some (js "ls -la")) [js "pwd"; js "ls -la"] 1 in
  let p' := arrowDown (handleClear p) in
  input p' = None ∧ commandHistory p' = [] ∧
  historyIndex p' = historyIndex p - 1 ∧
  handleSend false p' = p'.
Proof.
  apply (arrow_down_after_clear_loses_input
           (Prompt (Some (js "ls -la")) [js "pwd"; js "ls -la"] 1) false).
  reflexivity.
Defined.

End PromptFacts.

(** ** Scripted runs *)

Section ScriptFacts.

Import Agent Runs.

Variable onSendAgentKeys onAbortAgentCapture : bool.
Variable renderForTerminal : str → str.

Lemma map_last_snoc (f : step_record → step_record) (l : list step_record) (x : step_record) :
  map_last f (l ++ [x]) = l ++ [f x].
Proof.
  induction l as [|a l IH]; [reflexivity|].
  cbn [app]. cbn [map_last]. rewrite IH.
  destruct (l ++ [x]) eqn:E; [|reflexivity].
  destruct l; discriminate E.
Qed.

Lemma interpret_command (c : str) :
  interpret [run_command_call c]
  = RCommand (Some c) (Some (js "look")) [run_command_call c].
Proof. reflexivity. Qed.

Lemma interpret_complete (summary : str) :
  interpret [complete_call summary]
  = RComplete (Some summary) [complete_call summary].
Proof. reflexivity. Qed.

(** One scripted command, from the reply that asks for it to the next call
    of the model. *)
Lemma script_one (s : agent) (c o : str) :
  pc s = AwaitModel → abortAgentRef s = false → pausedResolverRef s = PNull →
  (S (i s) < maxIterations)%nat → timedOut o = false →
  let s' := Agent.run true onSendAgentKeys onAbortAgentCapture renderForTerminal
              s [ModelReply [run_command_call c]; CaptureResolved o] in
  pc s' = AwaitModel ∧ abortAgentRef s' = false ∧ pausedResolverRef s' = PNull ∧
  i s' = S (i s) ∧
  agentSteps s' = agentSteps s ++ [done_step (c, o)] ∧
  agentRunning s' = agentRunning s ∧
  length (model_calls s') = S (length (model_calls s)).
Proof.
  intros Hpc Hlatch Hres Hroom Hout.
  destruct s as [msgs ah steps running paused stopping loading latch ctl
                 resolver prompt hist n at_pc aborted cs].
  simpl in *. subst. cbn zeta.
  apply Nat.ltb_lt in Hroom.
  unfold Agent.run, Agent.step. simpl.
  unfold model_replied. rewrite interpret_command. simpl.
  unfold command_done, command_status, next_iteration, loop_top.
  rewrite Hout. simpl. rewrite Hroom. simpl.
  rewrite map_last_snoc. unfold model_calls. simpl.
  rewrite !List.filter_app. simpl. rewrite length_app, app_nil_r. simpl.
  repeat split; try reflexivity. lia.
Qed.

Lemma script_run (cmds : list (str * str)) :
  ∀ s,
    pc s = AwaitModel → abortAgentRef s = false → pausedResolverRef s = PNull →
    (i s + length cmds < maxIterations)%nat → ordinary cmds = true →
    let s' := Agent.run true onSendAgentKeys onAbortAgentCapture renderForTerminal
                s (script cmds) in
    pc s' = AwaitModel ∧ abortAgentRef s' = false ∧ pausedResolverRef s' = PNull ∧
    i s' = (i s + length cmds)%nat ∧
    agentSteps s' = agentSteps s ++ map done_step cmds ∧
    agentRunning s' = agentRunning s ∧
    length (model_calls s') = (length (model_calls s) + length cmds)%nat.
Proof.
  induction cmds as [|[c o] cmds IH]; intros s Hpc Hlatch Hres Hroom Hord; cbn zeta.
  - simpl. rewrite app_nil_r, !Nat.add_0_r. repeat split; assumption || reflexivity.
  - simpl in Hord. apply andb_true_iff in Hord as [Ho Hord].
    apply negb_true_iff in Ho. cbn [length] in Hroom.
    destruct (script_one s c o Hpc Hlatch Hres ltac:(lia) Ho)
      as (Hpc1 & Hl1 & Hr1 & Hi1 & Hs1 & Hrun1 & Hm1).
    cbn zeta in *.
    change (script ((c, o) :: cmds))
      with ([ModelReply [run_command_call c]; CaptureResolved o] ++ script cmds).
    unfold Agent.run in *. rewrite fold_left_app.
    match goal with |- context [fold_left ?f (script cmds) ?x] => set (s1 := x) in * end.
    destruct (IH s1 Hpc1 Hl1 Hr1 ltac:(lia) Hord)
      as (Hpc2 & Hl2 & Hr2 & Hi2 & Hs2 & Hrun2 & Hm2).
    cbn zeta in *. cbn [length map].
    split; [exact Hpc2|]. split; [exact Hl2|]. split; [exact Hr2|].
    split; [lia|]. split; [rewrite Hs2, Hs1, <- app_assoc; reflexivity|].
    split; [congruence|lia].
Qed.

(** The reply that declares the task complete ends the run. *)
Lemma complete_one (s : agent) (summary : str) :
  pc s = AwaitModel →
  let s' := Agent.step true onSendAgentKeys onAbortAgentCapture renderForTerminal
              s (ModelReply [complete_call summary]) in
  pc s' = Idle ∧ agentRunning s' = false ∧
  agentSteps s' = agentSteps s ++ [complete_step (Some summary)] ∧
  length (model_calls s') = length (model_calls s).
Proof.
  intros Hpc.
  destruct s as [msgs ah steps running paused stopping loading latch ctl
                 resolver prompt hist n at_pc aborted cs].
  simpl in *. subst. cbn zeta.
  unfold Agent.step. simpl.
  unfold model_replied. rewrite interpret_complete. simpl.
  repeat split; reflexivity.
Qed.

Lemma startAgentLoop_top (userText : str) (s0 : agent) :
  let s1 := startAgentLoop userText s0 in
  pc s1 = AwaitModel ∧ abortAgentRef s1 = false ∧
  pausedResolverRef s1 = PNull ∧ i s1 = 0%nat ∧ agentSteps s1 = [] ∧
  length (model_calls s1) = S (length (model_calls s0)).
Proof.
  cbn zeta. unfold startAgentLoop, loop_top, model_calls. simpl.
  rewrite List.filter_app, length_app. simpl. repeat split; lia.
Qed.

(** X14: a model that asks for fewer than twenty commands, none of whose
    outputs reads as a timeout, and then declares the task complete, gives
    a run that ends with exactly one step record for each command, in
    order and with its output and the status [done], followed by the
    record [complete]; the model was called once for each command and once
    more. *)
Theorem scripted_run_completes
  (userText : str) (s0 : agent) (cmds : list (str * str)) (summary : str)
  (Hfew : (length cmds < maxIterations)%nat) (Hord : ordinary cmds = true) :
  let s := Agent.run true onSendAgentKeys onAbortAgentCapture renderForTerminal
             (startAgentLoop userText s0)
             (script cmds ++ [ModelReply [complete_call summary]]) in
  pc s = Idle ∧ agentRunning s = false ∧
  agentSteps s = map done_step cmds ++ [complete_step (Some summary)] ∧
  length (model_calls s) = (length (model_calls s0) + S (length cmds))%nat.
Proof.
  intros s.
  destruct (startAgentLoop_top userText s0) as (Hpc & Hl & Hr & Hi & Hs & Hm).
  assert (Hroom : (i (startAgentLoop userText s0) + length cmds < maxIterations)%nat)
    by (rewrite Hi; exact Hfew).
  destruct (script_run cmds (startAgentLoop userText s0) Hpc Hl Hr Hroom Hord)
    as (Hpc1 & _ & _ & _ & Hs1 & _ & Hm1).
  destruct (complete_one _ summary Hpc1) as (Hpc2 & Hrun2 & Hs2 & Hm2).
  assert (Es : s = Agent.step true onSendAgentKeys onAbortAgentCapture renderForTerminal
                 (Agent.run true onSendAgentKeys onAbortAgentCapture renderForTerminal
                    (startAgentLoop userText s0) (script cmds))
                 (ModelReply [complete_call summary])).
  { subst s. unfold Agent.run. rewrite fold_left_app. reflexivity. }
  rewrite Es. clear Es s.
  split; [exact Hpc2|]. split; [exact Hrun2|].
  split.
  - rewrite Hs2, Hs1, Hs. reflexivity.
  - rewrite Hm2, Hm1, Hm. lia.
Qed.

End ScriptFacts.

Lemma scripted_run_completes_witness :
  let s := Agent.run true true true (λ x, x)
             (Agent.startAgentLoop (js "list the files") Agent.initial)
             (Runs.script [(js "ls", js "ok")] ++
              [Agent.ModelReply [Runs.complete_call (js "listed")]]) in
  Agent.pc s = Agent.Idle ∧ Agent.agentRunning s = false ∧
  Agent.agentSteps s =
  map Runs.done_step [(js "ls", js "ok")] ++ [Agent.complete_step (Some (js "listed"))] ∧
  length (Agent.model_calls s)
  = (length (Agent.model_calls Agent.initial) + S (length [(js "ls", js "ok")]))%nat.
Proof.
  apply (scripted_run_completes true true (λ x, x) (js "list the files")
           Agent.initial [(js "ls", js "ok")] (js "listed"));
    [vm_compute; lia|vm_compute; reflexivity].
Defined.
